(** * Balanced-ternary codec of the nradix driver (encoding.c)

    A shallow embedding of [src/nradix-driver/src/encoding.c] and the
    properties its specification states about it.

    Conventions of the embedding:
    - a C [int] is a [Z] kept in [-2^31, 2^31) by [wrap32] after every
      arithmetic operation (two's complement wrap-around);
    - [size_t] is a [Z] kept in [0, 2^64) by [to_size_t] (LP64);
    - [uint8_t] and [int8_t] are [Z] values normalised by [to_uint8] and
      [to_int8];
    - C [/] and [%] on integers are [Z.quot] and [Z.rem] (truncation);
    - a C array is a [list], read with [nth] and written with
      [<[i:=x]>] (an access outside the list, undefined in C, reads 0
      and writes nothing); a pointer that may be null is an [option];
    - C [float] is IEEE-754 binary32, given by the Standard Library's
      [spec_float] with [prec = 24] and [emax = 128]; every float
      operation rounds to binary32, to nearest even (no excess
      precision), and an [int] operand of a float operation is first
      converted to [float]. *)

From Stdlib Require Import ZArith QArith Qabs Qpower Lia Lqa Bool List.
From Stdlib Require Import SpecFloat.
From stdpp Require Import base list.

Local Open Scope Z_scope.

(** ** Machine integers *)

Module Mach.

Definition INT_MIN : Z := - 2 ^ 31.
Definition INT_MAX : Z := 2 ^ 31 - 1.
Definition SIZE_MOD : Z := 2 ^ 64.

(** Signed 32-bit wrap-around. *)
Definition wrap32 (z : Z) : Z := (z + 2 ^ 31) mod 2 ^ 32 - 2 ^ 31.

(** Conversion to [size_t]. *)
Definition to_size_t (z : Z) : Z := z mod SIZE_MOD.

(** Conversion to [uint8_t]. *)
Definition to_uint8 (z : Z) : Z := z mod 256.

(** Conversion to [int8_t]. *)
Definition to_int8 (z : Z) : Z := (z + 128) mod 256 - 128.

Definition in_int (z : Z) : Prop := INT_MIN <= z <= INT_MAX.

Definition is_trit (t : Z) : Prop := t = -1 \/ t = 0 \/ t = 1.

End Mach.
Import Mach.

(** ** Byte packer *)

(** [pack_trits]: the operands are promoted to [int], the sum is
    converted to [uint8_t]. *)
Definition pack_trits (t0 t1 t2 t3 t4 : Z) : Z :=
  to_uint8 (wrap32 (wrap32 (wrap32 (wrap32
    (wrap32 (t0 + 1) +
     wrap32 (wrap32 (t1 + 1) * 3)) +
     wrap32 (wrap32 (t2 + 1) * 9)) +
     wrap32 (wrap32 (t3 + 1) * 27)) +
     wrap32 (wrap32 (t4 + 1) * 81))).

(** [unpack_trits]: [trits] is the output array ([None] is the null
    pointer, for which the function returns at once); [packed] is the
    local copy of the byte, divided in place. *)
Definition unpack_trits (packed : Z) (trits : option (list Z)) : option (list Z) :=
  match trits with
  | None => None
  | Some a =>
      let a := <[0%nat := to_int8 (Z.rem packed 3 - 1)]> a in
      let packed := to_uint8 (Z.quot packed 3) in
      let a := <[1%nat := to_int8 (Z.rem packed 3 - 1)]> a in
      let packed := to_uint8 (Z.quot packed 3) in
      let a := <[2%nat := to_int8 (Z.rem packed 3 - 1)]> a in
      let packed := to_uint8 (Z.quot packed 3) in
      let a := <[3%nat := to_int8 (Z.rem packed 3 - 1)]> a in
      let packed := to_uint8 (Z.quot packed 3) in
      let a := <[4%nat := to_int8 (Z.rem packed 3 - 1)]> a in
      Some a
  end.

(** ** Size computation *)

Definition calculate_packed_size (rows cols trits_per_val : Z) : Z :=
  let total_trits :=
    to_size_t (to_size_t (to_size_t rows * to_size_t cols) * to_size_t trits_per_val) in
  Z.quot (to_size_t (total_trits + 4)) 5.

(** [c] is the integer ceiling of [n / d]. *)
Definition is_ceil_div (n d c : Z) : Prop := d * (c - 1) < n <= d * c.

(** ** IEEE-754 binary32 *)

Module F32.

Definition prec : Z := 24.
Definition emax : Z := 128.

(** A C [float]. *)
Definition float : Type := spec_float.

(** Well-formed binary32 datum: the mantissa is canonical for the
    exponent and the exponent is in range. *)
Definition valid (x : float) : bool := valid_binary prec emax x.

(** Conversion [(float)z] of an integer, round to nearest even. *)
Definition of_int (z : Z) : float := binary_normalize prec emax z 0 false.

Definition mul (x y : float) : float := SFmul prec emax x y.
Definition div (x y : float) : float := SFdiv prec emax x y.
Definition ltb (x y : float) : bool := SFltb x y.
Definition leb (x y : float) : bool := SFleb x y.

Definition zero : float := S754_zero false.
Definition one : float := of_int 1.
Definition minus_one : float := of_int (-1).

(** The decimal literal [n/d] rounded to binary32, as a compiler does
    for a constant such as [0.33f]. *)
Definition lit (n d : Z) : float := div (of_int n) (of_int d).

(** [roundf]: nearest integral value, halfway cases away from zero.
    A float with a non-negative exponent is integral already. *)
Definition roundf (x : float) : float :=
  match x with
  | S754_finite s m e =>
      if 0 <=? e then x
      else
        let q := Z.shiftr (Zpos m + 2 ^ (- e - 1)) (- e) in
        binary_normalize prec emax (cond_Zopp s q) 0 s
  | _ => x
  end.

(** Conversion [(int)x]: truncation toward zero.  C leaves the
    conversion of a NaN, an infinity or a value outside the range of
    [int] undefined; the embedding returns [INT_MIN] there, which is
    what the x86-64 conversion instruction produces. *)
Definition to_int (x : float) : Z :=
  match x with
  | S754_zero _ => 0
  | S754_finite s m e =>
      let mag := if 0 <=? e then Zpos m * 2 ^ e else Z.shiftr (Zpos m) (- e) in
      let z := cond_Zopp s mag in
      if (INT_MIN <=? z) && (z <=? INT_MAX) then z else INT_MIN
  | _ => INT_MIN
  end.

(** The rational number a finite float denotes (0 for the others). *)
Definition F2Q (x : float) : Q :=
  match x with
  | S754_finite s m e => inject_Z (cond_Zopp s (Zpos m)) * 2 ^ e
  | _ => 0
  end%Q.

End F32.

(** ** Scalar codec *)

(** [clamp]: both comparisons are false on a NaN, which is returned
    unchanged. *)
Definition clamp (v : F32.float) : F32.float :=
  if F32.ltb v F32.minus_one then F32.minus_one
  else if F32.ltb F32.one v then F32.one
  else v.

(** The loop [for (i = 0; i < num_trits; i++) max_val *= 3;] *)
Fixpoint pow3_loop (fuel : nat) (max_val : Z) : Z :=
  match fuel with
  | O => max_val
  | S fuel' => pow3_loop fuel' (wrap32 (max_val * 3))
  end.

(** [max_val] as [float_to_balanced_ternary] computes it. *)
Definition encode_max_val (num_trits : Z) : Z :=
  let max_val := pow3_loop (Z.to_nat num_trits) 1 in
  wrap32 (Z.quot (wrap32 (max_val - 1)) 2).

(** The digit loop of [float_to_balanced_ternary], from index [i]. *)
Fixpoint ternary_loop (fuel : nat) (i : nat) (k : Z) (trits : list Z) : list Z :=
  match fuel with
  | O => trits
  | S fuel' =>
      let rem := Z.rem k 3 in
      let rem := if (k <? 0) && negb (rem =? 0) then wrap32 (rem + 3) else rem in
      if rem =? 0 then
        ternary_loop fuel' (S i) (wrap32 (Z.quot k 3)) (<[i := 0]> trits)
      else if rem =? 1 then
        ternary_loop fuel' (S i) (wrap32 (Z.quot k 3)) (<[i := 1]> trits)
      else
        ternary_loop fuel' (S i) (wrap32 (Z.quot (wrap32 (k + 1)) 3)) (<[i := to_int8 (-1)]> trits)
  end.

(** [float_to_balanced_ternary]: the return code and the output array. *)
Definition float_to_balanced_ternary
    (value : F32.float) (trits : option (list Z)) (num_trits : Z)
  : Z * option (list Z) :=
  match trits with
  | None => (-1, None)
  | Some a =>
      if num_trits <=? 0 then (-1, Some a)
      else
        let value := clamp value in
        let max_val := encode_max_val num_trits in
        let k := F32.to_int (F32.roundf (F32.mul value (F32.of_int max_val))) in
        (0, Some (ternary_loop (Z.to_nat num_trits) 0 k a))
  end.

(** The accumulation loop of [balanced_ternary_to_float]: returns
    [(value, power)]. *)
Fixpoint weigh_loop (fuel : nat) (i : nat) (trits : list Z) (value power : Z) : Z * Z :=
  match fuel with
  | O => (value, power)
  | S fuel' =>
      weigh_loop fuel' (S i) trits
        (wrap32 (value + wrap32 (nth i trits 0 * power)))
        (wrap32 (power * 3))
  end.

(** [max_val] as [balanced_ternary_to_float] computes it from the
    final [power]. *)
Definition decode_max_val (trits : list Z) (num_trits : Z) : Z :=
  let '(_, power) := weigh_loop (Z.to_nat num_trits) 0 trits 0 1 in
  wrap32 (Z.quot (wrap32 (power - 1)) 2).

Definition balanced_ternary_to_float (trits : option (list Z)) (num_trits : Z) : F32.float :=
  match trits with
  | None => F32.zero
  | Some a =>
      if num_trits <=? 0 then F32.zero
      else
        let value := fst (weigh_loop (Z.to_nat num_trits) 0 a 0 1) in
        let max_val := decode_max_val a num_trits in
        F32.div (F32.of_int value) (F32.of_int max_val)
  end.

(** ** Matrix codec *)

(** [memset(p, 0, n)] on the bytes of [p]. *)
Fixpoint memset0 (n : nat) (p : list Z) : list Z :=
  match n, p with
  | S n', _ :: p' => 0 :: memset0 n' p'
  | _, _ => p
  end.

(** Local variables of [float_matrix_to_ternary] that the loops
    update, with the output buffer. *)
Record enc_state := {
  e_trits : list Z;          (* int8_t trits[64] *)
  e_trit_buffer : list Z;    (* int8_t trit_buffer[5] *)
  e_buffer_pos : Z;
  e_packed_index : Z;
  e_packed : list Z
}.

Definition pack_buffer (b : list Z) : Z :=
  pack_trits (nth 0 b 0) (nth 1 b 0) (nth 2 b 0) (nth 3 b 0) (nth 4 b 0).

(** Body of the loop over [j]: store one trit, pack when five are
    there. *)
Definition enc_step (j : nat) (st : enc_state) : enc_state :=
  let tb := <[Z.to_nat (e_buffer_pos st) := nth j (e_trits st) 0]> (e_trit_buffer st) in
  let pos := wrap32 (e_buffer_pos st + 1) in
  if pos =? 5 then
    {| e_trits := e_trits st;
       e_trit_buffer := tb;
       e_buffer_pos := 0;
       e_packed_index := to_size_t (e_packed_index st + 1);
       e_packed := <[Z.to_nat (e_packed_index st) := pack_buffer tb]> (e_packed st) |}
  else
    {| e_trits := e_trits st;
       e_trit_buffer := tb;
       e_buffer_pos := pos;
       e_packed_index := e_packed_index st;
       e_packed := e_packed st |}.

Fixpoint enc_inner (fuel : nat) (j : nat) (st : enc_state) : enc_state :=
  match fuel with
  | O => st
  | S fuel' => enc_inner fuel' (S j) (enc_step j st)
  end.

(** The loop over the matrix elements.  The return code of
    [float_to_balanced_ternary] is ignored, as in the source. *)
Fixpoint enc_outer (fuel : nat) (i : nat) (matrix : list F32.float)
    (trits_per_val : Z) (st : enc_state) : enc_state :=
  match fuel with
  | O => st
  | S fuel' =>
      let r := float_to_balanced_ternary (nth i matrix F32.zero)
                 (Some (e_trits st)) trits_per_val in
      let st := {| e_trits := default (e_trits st) (snd r);
                   e_trit_buffer := e_trit_buffer st;
                   e_buffer_pos := e_buffer_pos st;
                   e_packed_index := e_packed_index st;
                   e_packed := e_packed st |} in
      enc_outer fuel' (S i) matrix trits_per_val
        (enc_inner (Z.to_nat trits_per_val) 0 st)
  end.

(** [while (buffer_pos < 5) trit_buffer[buffer_pos++] = 0;] *)
Fixpoint pad_loop (fuel : nat) (tb : list Z) (pos : Z) : list Z :=
  match fuel with
  | O => tb
  | S fuel' =>
      if pos <? 5 then pad_loop fuel' (<[Z.to_nat pos := 0]> tb) (wrap32 (pos + 1))
      else tb
  end.

Definition enc_flush (st : enc_state) : list Z :=
  if 0 <? e_buffer_pos st then
    let tb := pad_loop 5 (e_trit_buffer st) (e_buffer_pos st) in
    <[Z.to_nat (e_packed_index st) := pack_buffer tb]> (e_packed st)
  else e_packed st.

(** [float_matrix_to_ternary]: the return code and the output buffer
    after the call.  The scratch array [trits] is not initialised in
    the source; it is taken as zeros here. *)
Definition float_matrix_to_ternary
    (matrix : option (list F32.float)) (rows cols trits_per_val : Z)
    (packed : option (list Z)) (packed_size : Z) : Z * option (list Z) :=
  match matrix, packed with
  | Some m, Some p =>
      if (rows <=? 0) || (cols <=? 0) || (trits_per_val <=? 0) then (-1, Some p)
      else
        let required_size := calculate_packed_size rows cols trits_per_val in
        if packed_size <? required_size then (-1, Some p)
        else
          let p := memset0 (Z.to_nat packed_size) p in
          if 64 <? trits_per_val then (-1, Some p)
          else
            let st := {| e_trits := repeat 0 64;
                         e_trit_buffer := [0; 0; 0; 0; 0];
                         e_buffer_pos := 0;
                         e_packed_index := 0;
                         e_packed := p |} in
            let st := enc_outer (Z.to_nat (wrap32 (rows * cols))) 0 m trits_per_val st in
            (0, Some (enc_flush st))
  | _, _ => (-1, packed)
  end.

(** Local variables of [ternary_to_float_matrix], the output matrix,
    and a log of the indices at which [packed] has been read. *)
Record dec_state := {
  d_trits : list Z;          (* int8_t trits[64] *)
  d_unpacked : list Z;       (* int8_t unpacked[5] *)
  d_unpack_pos : Z;
  d_packed_index : Z;
  d_matrix : list F32.float;
  d_reads : list Z
}.

(** The refill at the head of the loop over [j]: when the five
    unpacked trits are used up, the next byte is unpacked; [inr] is the
    [return -1] on an exhausted buffer. *)
Definition dec_refill (packed : list Z) (packed_size : Z) (st : dec_state)
  : dec_state + dec_state :=
  if 5 <=? d_unpack_pos st then
    if packed_size <=? d_packed_index st then inr st
    else
      let byte := nth (Z.to_nat (d_packed_index st)) packed 0 in
      inl {| d_trits := d_trits st;
             d_unpacked := default (d_unpacked st)
                             (unpack_trits byte (Some (d_unpacked st)));
             d_unpack_pos := 0;
             d_packed_index := to_size_t (d_packed_index st + 1);
             d_matrix := d_matrix st;
             d_reads := d_packed_index st :: d_reads st |}
  else inl st.

(** Body of the loop over [j]: refill, then
    [trits[j] = unpacked[unpack_pos++]]. *)
Definition dec_step (packed : list Z) (packed_size : Z) (j : nat) (st : dec_state)
  : dec_state + dec_state :=
  match dec_refill packed packed_size st with
  | inr st' => inr st'
  | inl st' =>
      inl {| d_trits := <[j := nth (Z.to_nat (d_unpack_pos st')) (d_unpacked st') 0]>
                          (d_trits st');
             d_unpacked := d_unpacked st';
             d_unpack_pos := wrap32 (d_unpack_pos st' + 1);
             d_packed_index := d_packed_index st';
             d_matrix := d_matrix st';
             d_reads := d_reads st' |}
  end.

(** The loops return [inl st] when they run to their end and [inr st]
    when the function has returned -1 in state [st]. *)
Fixpoint dec_inner (packed : list Z) (packed_size : Z) (fuel : nat) (j : nat)
    (st : dec_state) : dec_state + dec_state :=
  match fuel with
  | O => inl st
  | S fuel' =>
      match dec_step packed packed_size j st with
      | inl st' => dec_inner packed packed_size fuel' (S j) st'
      | inr st' => inr st'
      end
  end.

Fixpoint dec_outer (packed : list Z) (packed_size : Z) (trits_per_val : Z)
    (fuel : nat) (i : nat) (st : dec_state) : dec_state + dec_state :=
  match fuel with
  | O => inl st
  | S fuel' =>
      match dec_inner packed packed_size (Z.to_nat trits_per_val) 0 st with
      | inl st' =>
          let f := balanced_ternary_to_float (Some (d_trits st')) trits_per_val in
          dec_outer packed packed_size trits_per_val fuel' (S i)
            {| d_trits := d_trits st';
               d_unpacked := d_unpacked st';
               d_unpack_pos := d_unpack_pos st';
               d_packed_index := d_packed_index st';
               d_matrix := <[i := f]> (d_matrix st');
               d_reads := d_reads st' |}
      | inr st' => inr st'
      end
  end.

(** Result of [ternary_to_float_matrix]: return code, output matrix
    after the call, and the indices of [packed] that were read. *)
Record dec_result := {
  r_code : Z;
  r_matrix : option (list F32.float);
  r_reads : list Z
}.

(** [ternary_to_float_matrix].  The scratch arrays [trits] and
    [unpacked] are not initialised in the source; they are taken as
    zeros here. *)
Definition ternary_to_float_matrix
    (packed : option (list Z)) (packed_size : Z) (trits_per_val : Z)
    (matrix : option (list F32.float)) (rows cols : Z) : dec_result :=
  match packed, matrix with
  | Some p, Some m =>
      if (rows <=? 0) || (cols <=? 0) || (trits_per_val <=? 0) then
        {| r_code := -1; r_matrix := Some m; r_reads := [] |}
      else if 64 <? trits_per_val then
        {| r_code := -1; r_matrix := Some m; r_reads := [] |}
      else
        let st := {| d_trits := repeat 0 64;
                     d_unpacked := [0; 0; 0; 0; 0];
                     d_unpack_pos := 5;
                     d_packed_index := 0;
                     d_matrix := m;
                     d_reads := [] |} in
        match dec_outer p packed_size trits_per_val
                (Z.to_nat (wrap32 (rows * cols))) 0 st with
        | inl st' => {| r_code := 0; r_matrix := Some (d_matrix st'); r_reads := d_reads st' |}
        | inr st' => {| r_code := -1; r_matrix := Some (d_matrix st'); r_reads := d_reads st' |}
        end
  | _, _ => {| r_code := -1; r_matrix := matrix; r_reads := [] |}
  end.

(** Invariant of the decoding loops once [t] trits have been taken
    from the stream: the cursor is in 1..5 (5 before the first byte is
    unpacked), [5 * packed_index - (5 - unpack_pos) = t], the index has
    not passed [packed_size], and every logged read is below the
    index. *)
Definition dec_inv (packed_size : Z) (t : Z) (st : dec_state) : Prop :=
  1 <= d_unpack_pos st <= 5 /\
  5 * d_packed_index st + d_unpack_pos st = t + 5 /\
  0 <= d_packed_index st <= packed_size /\
  Forall (fun r => 0 <= r < d_packed_index st) (d_reads st).

(** ** Quantities of the specification *)

(** The largest magnitude [n] trits represent, [(3^n - 1) / 2]. *)
Definition max_val (n : Z) : Z := (3 ^ n - 1) / 2.

(** Encoding [value] into the array [a] with [n] trits and decoding
    the array again. *)
Definition scalar_roundtrip (value : F32.float) (a : list Z) (n : Z) : F32.float :=
  balanced_ternary_to_float (snd (float_to_balanced_ternary value (Some a) n)) n.

(** The round trip of [value] is within one quantisation step. *)
Definition roundtrip_within_step (value : F32.float) (a : list Z) (n : Z) : Prop :=
  (Qabs (F32.F2Q (scalar_roundtrip value a n) - F32.F2Q value)
   <= 1 / inject_Z (max_val n))%Q.

(** The matrix of the matrix round-trip test, row-major. *)
Definition sample_matrix : list F32.float :=
  [ F32.of_int (-1); F32.lit (-5) 10; F32.zero;
    F32.lit 33 100;  F32.lit 5 10;    F32.lit 75 100;
    F32.of_int 1;    F32.lit (-75) 100; F32.lit 1 10 ].

(** ** Notions used to reason about binary32 rounding *)

(** Position of a remainder [r] of a division by [d] with respect to
    one half, as a [location]. *)
Definition loc_of_rem (r d : Z) : location :=
  if r =? 0 then loc_Exact else loc_Inexact (2 * r ?= d).

(** A shift record stands for the fraction [n / d]: its mantissa is
    the integer part and its round and sticky bits locate the rest. *)
Definition represents (mrs : shr_record) (n d : Z) : Prop :=
  0 < d /\ 0 <= n /\ shr_m mrs = n / d /\
  loc_of_shr_record mrs = loc_of_rem (n mod d) d.

(** The float a rounding returns for a mantissa [m] and an exponent
    [e]. *)
Definition float_of_mantissa (s : bool) (m e : Z) : spec_float :=
  match m with
  | Z0 => S754_zero s
  | Zpos p => S754_finite s p e
  | Zneg _ => S754_nan
  end.

(** [(3^n - 1) / 2] by its recurrence. *)
Fixpoint half_pow3 (n : nat) : Z :=
  match n with
  | O => 0
  | S n' => 3 * half_pow3 n' + 1
  end.

(** ** The trit stream of the matrix codec *)

(** One pass of the digit loop of [float_to_balanced_ternary]: the
    trit stored and the next [k]. *)
Definition digit_step (k : Z) : Z * Z :=
  let rem := Z.rem k 3 in
  let rem := if (k <? 0) && negb (rem =? 0) then wrap32 (rem + 3) else rem in
  if rem =? 0 then (0, wrap32 (Z.quot k 3))
  else if rem =? 1 then (1, wrap32 (Z.quot k 3))
  else (to_int8 (-1), wrap32 (Z.quot (wrap32 (k + 1)) 3)).

(** The trits that [fuel] passes of the digit loop store, in order. *)
Fixpoint digits (fuel : nat) (k : Z) : list Z :=
  match fuel with
  | O => []
  | S fuel' => fst (digit_step k) :: digits fuel' (snd (digit_step k))
  end.

(** The integer [k] that [float_to_balanced_ternary] derives from
    [value]. *)
Definition quantised (value : F32.float) (num_trits : Z) : Z :=
  F32.to_int (F32.roundf (F32.mul (clamp value) (F32.of_int (encode_max_val num_trits)))).

(** The trits of one matrix element. *)
Definition element_trits (num_trits : Z) (value : F32.float) : list Z :=
  digits (Z.to_nat num_trits) (quantised value num_trits).

(** The trits of a matrix, element after element. *)
Definition trit_stream (num_trits : Z) (m : list F32.float) : list Z :=
  concat (map (element_trits num_trits) m).

(** The byte that holds trits [5b .. 5b+4] of a stream; past the end
    of the stream the trits are 0. *)
Definition stream_byte (s : list Z) (b : nat) : Z :=
  pack_trits (nth (5 * b) s 0) (nth (5 * b + 1) s 0) (nth (5 * b + 2) s 0)
             (nth (5 * b + 3) s 0) (nth (5 * b + 4) s 0).

(** The weighted sum of [fuel] trits [ts], lowest first. *)
Fixpoint trits_value (ts : list Z) : Z :=
  match ts with
  | [] => 0
  | t :: ts' => t + 3 * trits_value ts'
  end.

(** Invariant of the encoding loops once the trits [s] have been
    stored: with [length s = 5 q + r], [r < 5], the buffer holds the
    last [r] trits, [q] bytes have been written, each the packing of
    its five trits, and the bytes from [q] on are those of [p0], the
    output buffer before the loops. *)
Definition enc_inv (p0 : list Z) (s : list Z) (st : enc_state) : Prop :=
  exists q r : nat,
    length s = (5 * q + r)%nat /\ (r < 5)%nat /\
    e_buffer_pos st = Z.of_nat r /\ e_packed_index st = Z.of_nat q /\
    length (e_trit_buffer st) = 5%nat /\
    (forall j, (j < r)%nat -> nth j (e_trit_buffer st) 0 = nth (5 * q + j) s 0) /\
    length (e_packed st) = length p0 /\
    (forall b, (b < q)%nat -> nth b (e_packed st) 0 = stream_byte s b) /\
    (forall b, (q <= b)%nat -> nth b (e_packed st) 0 = nth b p0 0).

(** The five trits [unpack_trits] extracts from a byte. *)
Definition byte_trits (b : Z) : list Z :=
  default [] (unpack_trits b (Some [0; 0; 0; 0; 0])).

(** Trit number [t] of a packed buffer: trit [t mod 5] of byte
    [t / 5]. *)
Definition buffer_trit (buf : list Z) (t : nat) : Z :=
  nth (t mod 5) (byte_trits (nth (t / 5) buf 0)) 0.

(** The float that trits [i n .. i n + n - 1] of a packed buffer
    decode to. *)
Definition decoded_element (buf : list Z) (n : Z) (i : nat) : F32.float :=
  balanced_ternary_to_float
    (Some (map (buffer_trit buf) (seq (i * Z.to_nat n) (Z.to_nat n)))) n.

(** [dec_inv] together with the content of [unpacked]: the trits of
    the byte last read. *)
Definition dec_stream_inv (buf : list Z) (packed_size : Z) (t : Z) (st : dec_state) : Prop :=
  dec_inv packed_size t st /\
  length (d_unpacked st) = 5%nat /\
  (1 <= d_packed_index st ->
   d_unpacked st = byte_trits (nth (Z.to_nat (d_packed_index st - 1)) buf 0)).

(** [m'] is [m] with the elements [i .. i + c - 1] replaced by their
    decodings. *)
Definition decoded_range (buf : list Z) (n : Z) (i c : nat) (m m' : list F32.float) : Prop :=
  length m' = length m /\
  (forall x, (i <= x < i + c)%nat -> (x < length m)%nat ->
     nth x m' F32.zero = decoded_element buf n x) /\
  (forall x, ~ (i <= x < i + c)%nat -> nth x m' F32.zero = nth x m F32.zero).

(** ** The device layer (nrioc.c) *)

Module Nrioc.

(** The enumerations [nrioc.c] uses, as [include/nrioc.h] declares
    them. *)
Inductive nrioc_status_t : Set :=
  | NR_OK | NR_ERROR | NR_TIMEOUT | NR_BUSY
  | NR_INVALID_PARAM | NR_NO_DEVICE | NR_OUT_OF_MEMORY.

Inductive nrioc_state_t : Set :=
  | NR_STATE_UNINITIALIZED | NR_STATE_IDLE | NR_STATE_BUSY | NR_STATE_ERROR.

Inductive nrioc_cmd_type_t : Set :=
  | NR_CMD_NOP | NR_CMD_LOAD_WEIGHTS | NR_CMD_COMPUTE | NR_CMD_RESET | NR_CMD_CALIBRATE.

(** A [void *]: an address, [None] for the null pointer. *)
Definition pointer : Type := option Z.

Definition is_null (p : pointer) : bool :=
  match p with
  | None => true
  | Some _ => false
  end.

Record nrioc_command_t := {
  cmd_type : nrioc_cmd_type_t;
  cmd_src : pointer;
  cmd_dst : pointer;
  cmd_width : Z;
  cmd_height : Z;
  cmd_flags : Z;
  cmd_timestamp : Z
}.

(** The static structure [g_driver]. *)
Record driver := {
  state : nrioc_state_t;
  array_width : Z;
  array_height : Z;
  weights_buffer : pointer;
  last_command_time : Z
}.

Definition DEFAULT_ARRAY_WIDTH : Z := 27.
Definition DEFAULT_ARRAY_HEIGHT : Z := 27.

(** The initialiser of [g_driver]. *)
Definition g_driver : driver :=
  {| state := NR_STATE_UNINITIALIZED;
     array_width := DEFAULT_ARRAY_WIDTH;
     array_height := DEFAULT_ARRAY_HEIGHT;
     weights_buffer := None;
     last_command_time := 0 |}.

Definition to_uint64 (z : Z) : Z := z mod 2 ^ 64.

(** Every function takes the value of [g_driver] and returns it with
    its result.  [nrioc_alloc] and [nrioc_free] act on the heap only,
    which is not represented. *)
Definition nrioc_init (g : driver) : nrioc_status_t * driver :=
  match state g with
  | NR_STATE_UNINITIALIZED =>
      (NR_OK, {| state := NR_STATE_IDLE;
                 array_width := DEFAULT_ARRAY_WIDTH;
                 array_height := DEFAULT_ARRAY_HEIGHT;
                 weights_buffer := None;
                 last_command_time := 0 |})
  | _ => (NR_ERROR, g)
  end.

(** [nrioc_shutdown]: a non-null [weights_buffer] is freed and set to
    null (the heap is not part of the model). *)
Definition nrioc_shutdown (g : driver) : nrioc_status_t * driver :=
  match state g with
  | NR_STATE_UNINITIALIZED => (NR_ERROR, g)
  | _ =>
      (NR_OK, {| state := NR_STATE_UNINITIALIZED;
                 array_width := array_width g;
                 array_height := array_height g;
                 weights_buffer := if is_null (weights_buffer g) then weights_buffer g
                                   else None;
                 last_command_time := last_command_time g |})
  end.

(** [nrioc_get_array_size]: [width] and [height] are the contents of
    the two output locations ([None] for a null pointer); the result
    carries their contents after the call. *)
Definition nrioc_get_array_size (width height : option Z) (g : driver)
  : nrioc_status_t * option Z * option Z :=
  match width, height with
  | Some _, Some _ => (NR_OK, Some (array_width g), Some (array_height g))
  | _, _ => (NR_INVALID_PARAM, width, height)
  end.

(** [nrioc_submit]: [cmd] is the command pointed to ([None] for a
    null pointer) and [now] the value of [time(NULL)]; the result
    carries the command after the call. *)
Definition nrioc_submit (cmd : option nrioc_command_t) (now : Z) (g : driver)
  : nrioc_status_t * option nrioc_command_t * driver :=
  match cmd with
  | None => (NR_INVALID_PARAM, cmd, g)
  | Some c =>
      match state g with
      | NR_STATE_UNINITIALIZED => (NR_NO_DEVICE, cmd, g)
      | NR_STATE_BUSY => (NR_BUSY, cmd, g)
      | _ =>
          let c' := {| cmd_type := cmd_type c; cmd_src := cmd_src c; cmd_dst := cmd_dst c;
                       cmd_width := cmd_width c; cmd_height := cmd_height c;
                       cmd_flags := cmd_flags c;
                       cmd_timestamp := to_uint64 now |} in
          (NR_OK, Some c',
           {| state := NR_STATE_BUSY;
              array_width := array_width g;
              array_height := array_height g;
              weights_buffer := weights_buffer g;
              last_command_time := cmd_timestamp c' |})
      end
  end.

Definition nrioc_wait (timeout_ms : Z) (g : driver) : nrioc_status_t * driver :=
  match state g with
  | NR_STATE_UNINITIALIZED => (NR_NO_DEVICE, g)
  | NR_STATE_IDLE => (NR_OK, g)
  | _ =>
      (NR_OK, {| state := NR_STATE_IDLE;
                 array_width := array_width g;
                 array_height := array_height g;
                 weights_buffer := weights_buffer g;
                 last_command_time := last_command_time g |})
  end.

Definition nrioc_get_status (g : driver) : nrioc_state_t := state g.

Definition nrioc_load_weights (weights : pointer) (width height : Z) (now : Z) (g : driver)
  : nrioc_status_t * driver :=
  if is_null weights || (width <=? 0) || (height <=? 0) then (NR_INVALID_PARAM, g)
  else if (array_width g <? width) || (array_height g <? height) then (NR_INVALID_PARAM, g)
  else
    let cmd := {| cmd_type := NR_CMD_LOAD_WEIGHTS; cmd_src := weights; cmd_dst := None;
                  cmd_width := width; cmd_height := height; cmd_flags := 0;
                  cmd_timestamp := 0 |} in
    let '(status, _, g') := nrioc_submit (Some cmd) now g in
    match status with
    | NR_OK => nrioc_wait 1000 g'
    | _ => (status, g')
    end.

Definition nrioc_compute (input output : pointer) (width height : Z) (now : Z) (g : driver)
  : nrioc_status_t * driver :=
  if is_null input || is_null output || (width <=? 0) || (height <=? 0)
  then (NR_INVALID_PARAM, g)
  else if (array_width g <? width) || (array_height g <? height) then (NR_INVALID_PARAM, g)
  else
    let cmd := {| cmd_type := NR_CMD_COMPUTE; cmd_src := input; cmd_dst := output;
                  cmd_width := width; cmd_height := height; cmd_flags := 0;
                  cmd_timestamp := 0 |} in
    let '(status, _, g') := nrioc_submit (Some cmd) now g in
    match status with
    | NR_OK => nrioc_wait 1000 g'
    | _ => (status, g')
    end.

(** The dimensions [nrioc_load_weights] and [nrioc_compute] accept. *)
Definition fits_array (g : driver) (width height : Z) : Prop :=
  0 < width <= array_width g /\ 0 < height <= array_height g.

(** A call of the interface by a client, with its arguments. *)
Inductive call : Type :=
  | Init
  | Shutdown
  | Submit (cmd : option nrioc_command_t) (now : Z)
  | Wait (timeout_ms : Z)
  | LoadWeights (weights : pointer) (width height : Z) (now : Z)
  | Compute (input output : pointer) (width height : Z) (now : Z).

(** The status a call returns and [g_driver] after it. *)
Definition perform (c : call) (g : driver) : nrioc_status_t * driver :=
  match c with
  | Init => nrioc_init g
  | Shutdown => nrioc_shutdown g
  | Submit cmd now => let '(s, _, g') := nrioc_submit cmd now g in (s, g')
  | Wait timeout_ms => nrioc_wait timeout_ms g
  | LoadWeights weights width height now => nrioc_load_weights weights width height now g
  | Compute input output width height now => nrioc_compute input output width height now g
  end.

(** [g_driver] after a sequence of calls. *)
Definition run (cs : list call) (g : driver) : driver :=
  fold_left (fun g c => snd (perform c g)) cs g.

End Nrioc.

(** * Properties *)

(** ** Machine arithmetic *)

Lemma wrap32_small (z : Z) : INT_MIN <= z <= INT_MAX -> wrap32 z = z.
Proof.
  unfold wrap32, INT_MIN, INT_MAX. intros H.
  rewrite Z.mod_small; lia.
Qed.

Lemma wrap32_range (z : Z) : INT_MIN <= wrap32 z <= INT_MAX.
Proof.
  unfold wrap32, INT_MIN, INT_MAX.
  pose proof (Z.mod_pos_bound (z + 2 ^ 31) (2 ^ 32) ltac:(lia)). lia.
Qed.

(** Removes every [wrap32] whose argument [lia] shows to be in range. *)
Ltac unwrap32 :=
  repeat match goal with
         | |- context [wrap32 ?z] =>
             rewrite (wrap32_small z) by (unfold INT_MIN, INT_MAX; lia)
         end.

Lemma to_size_t_small (z : Z) : 0 <= z < SIZE_MOD -> to_size_t z = z.
Proof. intros H. unfold to_size_t. now apply Z.mod_small. Qed.

Lemma to_uint8_small (z : Z) : 0 <= z < 256 -> to_uint8 z = z.
Proof. intros H. unfold to_uint8. now apply Z.mod_small. Qed.

Lemma to_int8_small (z : Z) : -128 <= z < 128 -> to_int8 z = z.
Proof. intros H. unfold to_int8. rewrite Z.mod_small; lia. Qed.

Lemma is_trit_cases (t : Z) : is_trit t <-> -1 <= t <= 1.
Proof. unfold is_trit. lia. Qed.

(** ** The binary32 operations on known values *)

Example lit_one_tenth : F32.lit 1 10 = S754_finite false 13421773 (-27).
Proof. vm_compute. reflexivity. Qed.

Example lit_033 : F32.lit 33 100 = S754_finite false 11072963 (-25).
Proof. vm_compute. reflexivity. Qed.

Example roundf_half_away :
  F32.to_int (F32.roundf (F32.lit 5 2)) = 3 /\
  F32.to_int (F32.roundf (F32.lit (-5) 2)) = -3 /\
  F32.to_int (F32.roundf (F32.lit 1 2)) = 1 /\
  F32.to_int (F32.roundf (F32.lit 49 100)) = 0 /\
  F32.roundf (F32.lit (-3) 10) = S754_zero true.
Proof. repeat split; vm_compute; reflexivity. Qed.

Example to_int_truncates :
  F32.to_int (F32.lit 399 100) = 3 /\ F32.to_int (F32.lit (-399) 100) = -3.
Proof. split; vm_compute; reflexivity. Qed.

Example encode_three_quarters :
  float_to_balanced_ternary (F32.lit 3 4) (Some (repeat 0 8)) 8
    = (0, Some [0; 1; 0; 1; 0; 1; 0; 1]) /\
  balanced_ternary_to_float (Some [0; 1; 0; 1; 0; 1; 0; 1]) 8 = F32.lit 3 4.
Proof. split; vm_compute; reflexivity. Qed.

(** ** Byte packer *)

Lemma pack_trits_value (t0 t1 t2 t3 t4 : Z) :
  is_trit t0 -> is_trit t1 -> is_trit t2 -> is_trit t3 -> is_trit t4 ->
  pack_trits t0 t1 t2 t3 t4 =
  (t0 + 1) + (t1 + 1) * 3 + (t2 + 1) * 9 + (t3 + 1) * 27 + (t4 + 1) * 81.
Proof.
  rewrite !is_trit_cases. intros H0 H1 H2 H3 H4. unfold pack_trits.
  unwrap32. apply to_uint8_small. lia.
Qed.

(** A base-3 digit shifted to balanced form is a trit. *)
Lemma digit_is_trit (x : Z) : 0 <= x -> is_trit (to_int8 (Z.rem x 3 - 1)).
Proof.
  intros Hx. pose proof (Z.rem_bound_pos x 3 Hx ltac:(lia)).
  rewrite to_int8_small by lia. apply is_trit_cases. lia.
Qed.

Lemma next_digit_nonneg (x : Z) : 0 <= to_uint8 (Z.quot x 3).
Proof. unfold to_uint8. apply Z.mod_pos_bound. lia. Qed.

(** C2.  For trits [t0..t4] in {-1,0,+1}, [pack_trits] gives a byte in
    [0,242] and [unpack_trits] of that byte writes [t0..t4], in this
    order, to the first five slots of the output array (the rest of the
    array is left as it was). *)
Theorem pack_unpack_bijection (t0 t1 t2 t3 t4 : Z) (a : list Z) :
  is_trit t0 -> is_trit t1 -> is_trit t2 -> is_trit t3 -> is_trit t4 ->
  (5 <= length a)%nat ->
  0 <= pack_trits t0 t1 t2 t3 t4 <= 242 /\
  unpack_trits (pack_trits t0 t1 t2 t3 t4) (Some a)
    = Some ([t0; t1; t2; t3; t4] ++ drop 5 a).
Proof.
  intros H0 H1 H2 H3 H4 Hlen.
  rewrite pack_trits_value by assumption.
  split; [rewrite is_trit_cases in *; lia|].
  destruct a as [|a0 [|a1 [|a2 [|a3 [|a4 l]]]]]; simpl in Hlen; try lia.
  unfold is_trit in *.
  destruct H0 as [->|[->| ->]], H1 as [->|[->| ->]], H2 as [->|[->| ->]],
           H3 as [->|[->| ->]], H4 as [->|[->| ->]]; reflexivity.
Qed.

Lemma pack_unpack_bijection_witness :
  0 <= pack_trits 1 (-1) 0 1 (-1) <= 242 /\
  unpack_trits (pack_trits 1 (-1) 0 1 (-1)) (Some [0; 0; 0; 0; 0])
    = Some ([1; -1; 0; 1; -1] ++ drop 5 [0; 0; 0; 0; 0]).
Proof.
  apply (pack_unpack_bijection 1 (-1) 0 1 (-1) [0; 0; 0; 0; 0]);
    unfold is_trit; simpl; lia.
Defined.

(** The converse: every byte of [0,242] is the packing of the trits
    that [unpack_trits] extracts from it. *)
Lemma unpack_pack_inverse (b : Z) (a0 a1 a2 a3 a4 : Z) (l : list Z) :
  0 <= b <= 242 ->
  exists t0 t1 t2 t3 t4,
    unpack_trits b (Some (a0 :: a1 :: a2 :: a3 :: a4 :: l))
      = Some (t0 :: t1 :: t2 :: t3 :: t4 :: l) /\
    pack_trits t0 t1 t2 t3 t4 = b.
Proof.
  intros Hb. do 5 eexists. split; [reflexivity|].
  pose proof (Z.quot_rem' b 3) as E0.
  pose proof (Z.rem_bound_pos b 3 ltac:(lia) ltac:(lia)) as R0.
  set (q0 := Z.quot b 3) in *.
  rewrite (to_uint8_small q0) by lia.
  pose proof (Z.quot_rem' q0 3) as E1.
  pose proof (Z.rem_bound_pos q0 3 ltac:(lia) ltac:(lia)) as R1.
  set (q1 := Z.quot q0 3) in *.
  rewrite (to_uint8_small q1) by lia.
  pose proof (Z.quot_rem' q1 3) as E2.
  pose proof (Z.rem_bound_pos q1 3 ltac:(lia) ltac:(lia)) as R2.
  set (q2 := Z.quot q1 3) in *.
  rewrite (to_uint8_small q2) by lia.
  pose proof (Z.quot_rem' q2 3) as E3.
  pose proof (Z.rem_bound_pos q2 3 ltac:(lia) ltac:(lia)) as R3.
  set (q3 := Z.quot q2 3) in *.
  rewrite (to_uint8_small q3) by lia.
  assert (R4 : Z.rem q3 3 = q3) by (apply Z.rem_small; lia).
  rewrite !to_int8_small by lia.
  rewrite pack_trits_value by (apply is_trit_cases; lia).
  lia.
Qed.

(** C8.  [unpack_trits] is total on bytes: for every byte 0..255 (the
    values 243..255 that [pack_trits] never produces included) and
    every output array of at least five slots it returns, and the five
    slots it writes hold trits. *)
Theorem unpack_trits_total (packed : Z) (a : list Z) :
  0 <= packed <= 255 -> (5 <= length a)%nat ->
  exists a', unpack_trits packed (Some a) = Some a' /\
             length a' = length a /\
             drop 5 a' = drop 5 a /\
             forall i, (i < 5)%nat -> is_trit (nth i a' 0).
Proof.
  intros Hb Hlen.
  destruct a as [|a0 [|a1 [|a2 [|a3 [|a4 l]]]]]; simpl in Hlen; try lia.
  eexists. split; [reflexivity|]. cbn [list_insert insert].
  split; [reflexivity|]. split; [reflexivity|].
  intros i Hi.
  destruct i as [|[|[|[|[|i]]]]]; try lia; cbn [nth];
    apply digit_is_trit; try lia; apply next_digit_nonneg.
Qed.

Lemma unpack_trits_total_witness :
  exists a', unpack_trits 255 (Some [0; 0; 0; 0; 0]) = Some a' /\
             length a' = length [0; 0; 0; 0; 0] /\
             drop 5 a' = drop 5 [0; 0; 0; 0; 0] /\
             forall i, (i < 5)%nat -> is_trit (nth i a' 0).
Proof.
  apply (unpack_trits_total 255 [0; 0; 0; 0; 0]); simpl; lia.
Defined.

(** ** Size computation *)

Lemma calculate_packed_size_exact (rows cols trits_per_val : Z) :
  0 < rows -> 0 < cols -> 0 < trits_per_val ->
  rows * cols * trits_per_val + 4 < SIZE_MOD ->
  calculate_packed_size rows cols trits_per_val
    = (rows * cols * trits_per_val + 4) / 5.
Proof.
  intros Hr Hc Ht Hb. unfold calculate_packed_size.
  assert (Hrc : 0 < rows * cols) by nia.
  assert (Hall : rows * cols <= rows * cols * trits_per_val) by nia.
  rewrite (to_size_t_small rows) by nia.
  rewrite (to_size_t_small cols) by nia.
  rewrite (to_size_t_small (rows * cols)) by lia.
  rewrite (to_size_t_small trits_per_val) by nia.
  rewrite (to_size_t_small (rows * cols * trits_per_val)) by lia.
  rewrite (to_size_t_small (rows * cols * trits_per_val + 4)) by lia.
  now rewrite Z.quot_div_nonneg by lia.
Qed.

Lemma ceil_div5 (n : Z) : is_ceil_div n 5 ((n + 4) / 5).
Proof.
  unfold is_ceil_div.
  pose proof (Z.div_mod (n + 4) 5 ltac:(lia)).
  pose proof (Z.mod_pos_bound (n + 4) 5 ltac:(lia)). lia.
Qed.

(** C3, as the code has it.  For positive [rows], [cols] and
    [trits_per_val] whose product plus 4 fits [size_t],
    [calculate_packed_size] is [(total_trits + 4) / 5], the integer
    ceiling of [rows * cols * trits_per_val / 5]; it gives 6 on
    (2,3,5), 1 on (1,1,1) and 9 on (3,3,5). *)
Theorem calculate_packed_size_ceiling (rows cols trits_per_val : Z) :
  0 < rows -> 0 < cols -> 0 < trits_per_val ->
  rows * cols * trits_per_val + 4 < SIZE_MOD ->
  calculate_packed_size rows cols trits_per_val
    = (rows * cols * trits_per_val + 4) / 5 /\
  is_ceil_div (rows * cols * trits_per_val) 5
    (calculate_packed_size rows cols trits_per_val) /\
  calculate_packed_size 2 3 5 = 6 /\
  calculate_packed_size 1 1 1 = 1 /\
  calculate_packed_size 3 3 5 = 9.
Proof.
  intros Hr Hc Ht Hb.
  rewrite calculate_packed_size_exact by lia.
  split; [reflexivity|]. split; [apply ceil_div5|].
  repeat split; reflexivity.
Qed.

Lemma calculate_packed_size_ceiling_witness :
  calculate_packed_size 3 3 8 = (3 * 3 * 8 + 4) / 5 /\
  is_ceil_div (3 * 3 * 8) 5 (calculate_packed_size 3 3 8) /\
  calculate_packed_size 2 3 5 = 6 /\
  calculate_packed_size 1 1 1 = 1 /\
  calculate_packed_size 3 3 5 = 9.
Proof.
  apply (calculate_packed_size_ceiling 3 3 8); unfold SIZE_MOD; lia.
Defined.

(** C3, as the specification states it, fails where the product leaves
    [size_t]: for a 2147483647 x 2147483647 matrix of 64-trit values
    the result is not the ceiling of the number of trits over 5. *)
Lemma calculate_packed_size_wraps :
  in_int 2147483647 /\ 0 < 64 <= 64 /\
  ~ is_ceil_div (2147483647 * 2147483647 * 64) 5
      (calculate_packed_size 2147483647 2147483647 64).
Proof.
  split; [unfold in_int, INT_MIN, INT_MAX; lia|]. split; [lia|].
  unfold is_ceil_div. vm_compute. intros [H1 H2]. now apply H2.
Qed.

(** ** Argument validation of the matrix functions *)

(** Valid arguments and a large enough buffer are accepted. *)
Lemma float_matrix_to_ternary_accepts
    (m : list F32.float) (rows cols trits_per_val : Z) (p : list Z) (packed_size : Z) :
  0 < rows -> 0 < cols -> 1 <= trits_per_val <= 64 ->
  calculate_packed_size rows cols trits_per_val <= packed_size ->
  fst (float_matrix_to_ternary (Some m) rows cols trits_per_val (Some p) packed_size) = 0.
Proof.
  intros Hr Hc Ht Hs. unfold float_matrix_to_ternary.
  replace ((rows <=? 0) || (cols <=? 0) || (trits_per_val <=? 0)) with false
    by (symmetry; rewrite !orb_false_iff, !Z.leb_gt; lia).
  replace (packed_size <? calculate_packed_size rows cols trits_per_val) with false
    by (symmetry; apply Z.ltb_ge; lia).
  replace (64 <? trits_per_val) with false by (symmetry; apply Z.ltb_ge; lia).
  reflexivity.
Qed.

(** C6.  [float_matrix_to_ternary] returns 0 or -1, and -1 exactly
    when [matrix] or [packed] is null, a dimension or [trits_per_val]
    is not positive, [trits_per_val] exceeds 64, or [packed_size] is
    below [calculate_packed_size]; both matrix functions reject
    [trits_per_val = 65]. *)
Theorem encode_argument_validation
    (matrix : option (list F32.float)) (rows cols trits_per_val : Z)
    (packed : option (list Z)) (packed_size : Z) :
  (fst (float_matrix_to_ternary matrix rows cols trits_per_val packed packed_size) = -1
   <-> (matrix = None \/ packed = None \/ rows <= 0 \/ cols <= 0 \/
        trits_per_val <= 0 \/ 64 < trits_per_val \/
        packed_size < calculate_packed_size rows cols trits_per_val)) /\
  (fst (float_matrix_to_ternary matrix rows cols trits_per_val packed packed_size) = -1 \/
   fst (float_matrix_to_ternary matrix rows cols trits_per_val packed packed_size) = 0) /\
  fst (float_matrix_to_ternary matrix rows cols 65 packed packed_size) = -1 /\
  r_code (ternary_to_float_matrix packed packed_size 65 matrix rows cols) = -1.
Proof.
  unfold float_matrix_to_ternary, ternary_to_float_matrix.
  destruct matrix as [m|], packed as [p|]; cbn [fst r_code];
    try (repeat split; auto; try (intros _; auto); fail).
  repeat split.
  - destruct (rows <=? 0) eqn:Hr; [intros _; lia|].
    destruct (cols <=? 0) eqn:Hc; [intros _; lia|].
    destruct (trits_per_val <=? 0) eqn:Ht; [intros _; lia|].
    cbn [orb].
    destruct (packed_size <? _) eqn:Hs; [intros _; lia|].
    destruct (64 <? trits_per_val) eqn:H64; [intros _; lia|].
    cbn [fst]. discriminate.
  - intros [H|[H|[H|[H|[H|[H|H]]]]]]; try discriminate.
    + apply Z.leb_le in H. now rewrite H.
    + apply Z.leb_le in H. rewrite H, orb_true_r. reflexivity.
    + apply Z.leb_le in H. rewrite H, !orb_true_r. reflexivity.
    + destruct (_ || _ || _); [reflexivity|].
      destruct (packed_size <? _); [reflexivity|].
      apply Z.ltb_lt in H. now rewrite H.
    + destruct (_ || _ || _); [reflexivity|].
      apply Z.ltb_lt in H. now rewrite H.
  - destruct (_ || _ || _); [now left|].
    destruct (packed_size <? _); [now left|].
    destruct (64 <? trits_per_val); [now left| now right].
  - destruct (_ || _ || _); [reflexivity|].
    destruct (packed_size <? _); reflexivity.
  - destruct (_ || _ || _); reflexivity.
Qed.


(** C7.  With [packed_size] one byte short of
    [calculate_packed_size], [float_matrix_to_ternary] returns -1 and
    leaves every byte of the output buffer as it was. *)
Theorem undersized_buffer_untouched
    (matrix : option (list F32.float)) (rows cols trits_per_val : Z)
    (p : list Z) (packed_size : Z) :
  packed_size = calculate_packed_size rows cols trits_per_val - 1 ->
  float_matrix_to_ternary matrix rows cols trits_per_val (Some p) packed_size
    = (-1, Some p) /\
  forall r, snd (float_matrix_to_ternary matrix rows cols trits_per_val
                   (Some p) packed_size) = Some r ->
            nth 0 r 0 = nth 0 p 0.
Proof.
  intros Hsz.
  assert (E : float_matrix_to_ternary matrix rows cols trits_per_val (Some p) packed_size
              = (-1, Some p)).
  { unfold float_matrix_to_ternary. destruct matrix as [m|]; [|reflexivity].
    destruct (_ || _ || _); [reflexivity|].
    destruct (packed_size <? _) eqn:Hlt; [reflexivity|].
    apply Z.ltb_ge in Hlt. lia. }
  split; [exact E|]. rewrite E. cbn [snd]. intros r [= <-]. reflexivity.
Qed.

Lemma undersized_buffer_untouched_witness :
  float_matrix_to_ternary (Some [F32.one; F32.zero]) 1 2 8 (Some [7; 7; 7; 7]) 3
    = (-1, Some [7; 7; 7; 7]) /\
  forall r, snd (float_matrix_to_ternary (Some [F32.one; F32.zero]) 1 2 8
                   (Some [7; 7; 7; 7]) 3) = Some r ->
            nth 0 r 0 = nth 0 [7; 7; 7; 7] 0.
Proof.
  apply (undersized_buffer_untouched (Some [F32.one; F32.zero]) 1 2 8 [7; 7; 7; 7] 3).
  reflexivity.
Defined.

(** ** Decoding and the size of the packed buffer *)

Section Decode.

Variable packed : list Z.
Variable packed_size : Z.
Hypothesis packed_size_range : 0 <= packed_size < SIZE_MOD.

Lemma dec_inv_index (t : Z) (st : dec_state) :
  dec_inv packed_size t st -> d_packed_index st = (t + 4) / 5.
Proof.
  intros (Hpos & Heq & _).
  apply Z.div_unique with (r := d_unpack_pos st - 1); lia.
Qed.

Lemma dec_step_spec (j : nat) (t : Z) (st : dec_state) :
  dec_inv packed_size t st ->
  match dec_step packed packed_size j st with
  | inl st' => dec_inv packed_size (t + 1) st' /\ d_matrix st' = d_matrix st
  | inr st' => st' = st /\ 5 * packed_size <= t
  end.
Proof.
  intros (Hpos & Heq & Hle & Hrd). unfold dec_step, dec_refill.
  destruct (5 <=? d_unpack_pos st) eqn:H5.
  - apply Z.leb_le in H5.
    destruct (packed_size <=? d_packed_index st) eqn:Hex.
    + apply Z.leb_le in Hex. split; [reflexivity | lia].
    + apply Z.leb_gt in Hex.
      unfold dec_inv; cbn [d_unpack_pos d_packed_index d_reads d_matrix].
      rewrite to_size_t_small by lia.
      rewrite wrap32_small by (unfold INT_MIN, INT_MAX; lia).
      repeat split; try lia.
      constructor; [lia|].
      eapply Forall_impl; [exact Hrd|]. cbn. intros; lia.
  - apply Z.leb_gt in H5.
    unfold dec_inv; cbn [d_unpack_pos d_packed_index d_reads d_matrix].
    rewrite wrap32_small by (unfold INT_MIN, INT_MAX; lia).
    repeat split; try lia. exact Hrd.
Qed.

Lemma dec_inner_spec (fuel : nat) : forall (j : nat) (t : Z) (st : dec_state),
  dec_inv packed_size t st ->
  match dec_inner packed packed_size fuel j st with
  | inl st' => dec_inv packed_size (t + Z.of_nat fuel) st' /\ d_matrix st' = d_matrix st
  | inr st' => exists t', t <= t' < t + Z.of_nat fuel /\
                          dec_inv packed_size t' st' /\ 5 * packed_size <= t'
  end.
Proof.
  induction fuel as [|fuel IH]; intros j t st Hinv.
  - cbn. rewrite Z.add_0_r. auto.
  - cbn [dec_inner].
    pose proof (dec_step_spec j t st Hinv) as Hstep.
    destruct (dec_step packed packed_size j st) as [st1|st1].
    + destruct Hstep as [Hinv1 Hm1].
      specialize (IH (S j) (t + 1) st1 Hinv1).
      destruct (dec_inner packed packed_size fuel (S j) st1) as [st2|st2].
      * destruct IH as [Hinv2 Hm2]. split; [|congruence].
        replace (t + Z.of_nat (S fuel)) with (t + 1 + Z.of_nat fuel) by lia.
        exact Hinv2.
      * destruct IH as (t' & Ht' & Hinv2 & Hex).
        exists t'. repeat split; try lia; apply Hinv2.
    + destruct Hstep as [-> Hex]. exists t. repeat split; try lia; apply Hinv.
Qed.

Lemma dec_outer_spec (trits_per_val : Z) (fuel : nat) :
  0 <= trits_per_val ->
  forall (i : nat) (t : Z) (st : dec_state),
  dec_inv packed_size t st ->
  match dec_outer packed packed_size trits_per_val fuel i st with
  | inl st' => dec_inv packed_size (t + Z.of_nat fuel * trits_per_val) st'
  | inr st' => exists t', t <= t' < t + Z.of_nat fuel * trits_per_val /\
                          dec_inv packed_size t' st' /\ 5 * packed_size <= t'
  end.
Proof.
  intros Htpv. induction fuel as [|fuel IH]; intros i t st Hinv.
  - cbn [dec_outer]. now rewrite Z.add_0_r.
  - cbn [dec_outer].
    pose proof (dec_inner_spec (Z.to_nat trits_per_val) 0 t st Hinv) as Hin.
    rewrite Z2Nat.id in Hin by lia.
    destruct (dec_inner packed packed_size (Z.to_nat trits_per_val) 0 st) as [st1|st1].
    + destruct Hin as [Hinv1 _].
      match goal with |- context [dec_outer _ _ _ _ _ ?s] =>
        specialize (IH (S i) (t + trits_per_val) s Hinv1) end.
      destruct (dec_outer packed packed_size trits_per_val fuel (S i) _) as [st2|st2].
      * replace (t + Z.of_nat (S fuel) * trits_per_val)
          with (t + trits_per_val + Z.of_nat fuel * trits_per_val) by lia.
        exact IH.
      * destruct IH as (t' & Ht' & Hinv2 & Hex).
        exists t'. repeat split; try nia; apply Hinv2.
    + destruct Hin as (t' & Ht' & Hinv1 & Hex).
      exists t'. repeat split; try nia; apply Hinv1.
Qed.

End Decode.

(** A run that is not starved does not depend on [packed_size]. *)
Lemma dec_step_size_irrelevant (packed : list Z) (ps ps' : Z) (j : nat) (st : dec_state) :
  d_unpack_pos st < 5 \/ (d_packed_index st < ps /\ d_packed_index st < ps') ->
  dec_step packed ps j st = dec_step packed ps' j st.
Proof.
  intros H. unfold dec_step, dec_refill.
  destruct (5 <=? d_unpack_pos st) eqn:H5; [|reflexivity].
  apply Z.leb_le in H5. destruct H as [H|[H1 H2]]; [lia|].
  apply Z.leb_gt in H1, H2. now rewrite H1, H2.
Qed.

Lemma dec_inner_size_irrelevant (packed : list Z) (ps ps' : Z) (fuel : nat) :
  0 <= ps < SIZE_MOD -> 0 <= ps' < SIZE_MOD ->
  forall (j : nat) (t : Z) (st : dec_state),
  dec_inv ps t st ->
  (t + Z.of_nat fuel + 4) / 5 <= ps' ->
  (t + Z.of_nat fuel + 4) / 5 <= ps ->
  dec_inner packed ps fuel j st = dec_inner packed ps' fuel j st.
Proof.
  intros Hps Hps'. induction fuel as [|fuel IH]; intros j t st Hinv Hb' Hb.
  - reflexivity.
  - cbn [dec_inner].
    assert (Hmono : (t + 5) / 5 <= (t + Z.of_nat (S fuel) + 4) / 5)
      by (apply Z.div_le_mono; lia).
    assert (Hstep : dec_step packed ps j st = dec_step packed ps' j st).
    { apply dec_step_size_irrelevant.
      destruct Hinv as (Hpos & Heq & Hle & _).
      destruct (Z_lt_dec (d_unpack_pos st) 5) as [Hlt|Hge]; [now left|right].
      assert (Hidx : d_packed_index st + 1 = (t + 5) / 5)
        by (apply Z.div_unique with (r := 0); lia).
      lia. }
    rewrite <- Hstep.
    pose proof (dec_step_spec packed ps Hps j t st Hinv) as Hsp.
    destruct (dec_step packed ps j st) as [st1|st1]; [|reflexivity].
    destruct Hsp as [Hinv1 _].
    apply (IH (S j) (t + 1) st1 Hinv1);
      replace (t + 1 + Z.of_nat fuel) with (t + Z.of_nat (S fuel)) by lia;
      assumption.
Qed.

Lemma dec_outer_size_irrelevant (packed : list Z) (ps ps' trits_per_val : Z) (fuel : nat) :
  0 <= ps < SIZE_MOD -> 0 <= ps' < SIZE_MOD -> 0 <= trits_per_val ->
  forall (i : nat) (t : Z) (st : dec_state),
  dec_inv ps t st ->
  (t + Z.of_nat fuel * trits_per_val + 4) / 5 <= ps' ->
  (t + Z.of_nat fuel * trits_per_val + 4) / 5 <= ps ->
  dec_outer packed ps trits_per_val fuel i st
    = dec_outer packed ps' trits_per_val fuel i st.
Proof.
  intros Hps Hps' Htpv. induction fuel as [|fuel IH]; intros i t st Hinv Hb' Hb.
  - reflexivity.
  - cbn [dec_outer].
    assert (Hmono : (t + Z.of_nat (Z.to_nat trits_per_val) + 4) / 5
                    <= (t + Z.of_nat (S fuel) * trits_per_val + 4) / 5)
      by (apply Z.div_le_mono; nia).
    rewrite <- (dec_inner_size_irrelevant packed ps ps' (Z.to_nat trits_per_val)
                  Hps Hps' 0 t st Hinv) by lia.
    pose proof (dec_inner_spec packed ps Hps (Z.to_nat trits_per_val) 0 t st Hinv) as Hin.
    rewrite Z2Nat.id in Hin by lia.
    destruct (dec_inner packed ps (Z.to_nat trits_per_val) 0 st) as [st1|st1];
      [|reflexivity].
    destruct Hin as [Hinv1 _].
    apply (IH (S i) (t + trits_per_val)); [exact Hinv1 | |];
      replace (t + trits_per_val + Z.of_nat fuel * trits_per_val)
        with (t + Z.of_nat (S fuel) * trits_per_val) by lia;
      assumption.
Qed.

Lemma dec_inv_init (ps : Z) (m : list F32.float) :
  0 <= ps ->
  dec_inv ps 0 {| d_trits := repeat 0 64; d_unpacked := [0; 0; 0; 0; 0];
                  d_unpack_pos := 5; d_packed_index := 0;
                  d_matrix := m; d_reads := [] |}.
Proof. intros H. unfold dec_inv; cbn. repeat split; try lia. constructor. Qed.

Lemma ternary_to_float_matrix_code
    (packed : option (list Z)) (packed_size trits_per_val : Z)
    (matrix : option (list F32.float)) (rows cols : Z) :
  r_code (ternary_to_float_matrix packed packed_size trits_per_val matrix rows cols) = -1 \/
  r_code (ternary_to_float_matrix packed packed_size trits_per_val matrix rows cols) = 0.
Proof.
  unfold ternary_to_float_matrix.
  destruct packed, matrix; cbn [r_code]; auto.
  destruct (_ || _ || _); cbn [r_code]; auto.
  destruct (64 <? _); cbn [r_code]; auto.
  destruct (dec_outer _ _ _ _ _ _); cbn [r_code]; auto.
Qed.

(** The element count as the loops of the matrix functions compute
    it, when it fits [int]. *)
Lemma element_count (rows cols : Z) :
  0 < rows -> 0 < cols -> rows * cols <= INT_MAX ->
  Z.of_nat (Z.to_nat (wrap32 (rows * cols))) = rows * cols.
Proof.
  intros Hr Hc Hfit.
  rewrite wrap32_small by (unfold INT_MIN, INT_MAX in *; nia).
  apply Z2Nat.id. nia.
Qed.

(** Return code and reads of [ternary_to_float_matrix] on valid
    arguments. *)
Lemma ternary_to_float_matrix_starved
    (p : list Z) (m : list F32.float) (rows cols trits_per_val packed_size : Z) :
  0 < rows -> 0 < cols -> 1 <= trits_per_val <= 64 ->
  rows * cols <= INT_MAX ->
  0 <= packed_size < SIZE_MOD ->
  let required := calculate_packed_size rows cols trits_per_val in
  let r := ternary_to_float_matrix (Some p) packed_size trits_per_val (Some m) rows cols in
  (r_code r = -1 <-> packed_size < required) /\
  (forall i, In i (r_reads r) -> 0 <= i < packed_size /\ i < required).
Proof.
  intros Hr Hc Ht Hfit Hps required r.
  assert (Hreq : required = (rows * cols * trits_per_val + 4) / 5).
  { apply calculate_packed_size_exact; try lia.
    unfold INT_MAX, SIZE_MOD in *. nia. }
  pose proof (element_count rows cols Hr Hc Hfit) as Hn.
  subst r. unfold ternary_to_float_matrix.
  replace ((rows <=? 0) || (cols <=? 0) || (trits_per_val <=? 0)) with false
    by (symmetry; rewrite !orb_false_iff, !Z.leb_gt; lia).
  replace (64 <? trits_per_val) with false by (symmetry; apply Z.ltb_ge; lia).
  pose proof (dec_outer_spec p packed_size Hps trits_per_val
                (Z.to_nat (wrap32 (rows * cols))) ltac:(lia) 0 0 _
                (dec_inv_init packed_size m ltac:(lia))) as Hout.
  rewrite Hn, Z.add_0_l in Hout.
  destruct (dec_outer p packed_size trits_per_val _ 0 _) as [st'|st'];
    cbn [r_code r_reads].
  - pose proof (dec_inv_index packed_size _ _ Hout) as Hidx.
    destruct Hout as (_ & _ & Hle & Hrd).
    rewrite <- Hreq in Hidx. split; [split; [discriminate | lia]|].
    intros i Hi. rewrite List.Forall_forall in Hrd.
    specialize (Hrd i Hi). lia.
  - destruct Hout as (t' & Ht' & Hinv & Hex).
    pose proof (dec_inv_index packed_size _ _ Hinv) as Hidx.
    destruct Hinv as (_ & _ & Hle & Hrd).
    assert (Hlt : packed_size < required).
    { rewrite Hreq.
      assert (packed_size + 1 <= (rows * cols * trits_per_val + 4) / 5)
        by (apply Z.div_le_lower_bound; lia).
      lia. }
    split; [split; [intros _; exact Hlt | reflexivity]|].
    intros i Hi. rewrite List.Forall_forall in Hrd.
    specialize (Hrd i Hi). lia.
Qed.

(** C5.  For non-null buffers, positive dimensions and
    [1 <= trits_per_val <= 64], on every input for which the loop
    bound [rows * cols] is defined in C, that is, fits [int]:
    [ternary_to_float_matrix] returns -1 exactly when [packed_size] is
    below [calculate_packed_size] (so it does one byte short of it) and
    0 otherwise; every index at which it reads [packed] is below both
    [packed_size] and [calculate_packed_size]; and with a larger
    [packed_size] it behaves as with [calculate_packed_size]. *)
Theorem decode_fails_iff_undersupplied
    (p : list Z) (m : list F32.float) (rows cols trits_per_val packed_size : Z) :
  0 < rows -> 0 < cols -> 1 <= trits_per_val <= 64 ->
  rows * cols <= INT_MAX ->
  0 <= packed_size < SIZE_MOD ->
  let required := calculate_packed_size rows cols trits_per_val in
  let r := ternary_to_float_matrix (Some p) packed_size trits_per_val (Some m) rows cols in
  (r_code r = -1 <-> packed_size < required) /\
  (required <= packed_size -> r_code r = 0) /\
  (packed_size = required - 1 -> r_code r = -1) /\
  (forall i, In i (r_reads r) -> 0 <= i < packed_size /\ i < required) /\
  (required <= packed_size ->
   r = ternary_to_float_matrix (Some p) required trits_per_val (Some m) rows cols).
Proof.
  intros Hr Hc Ht Hfit Hps required r.
  destruct (ternary_to_float_matrix_starved p m rows cols trits_per_val packed_size
              Hr Hc Ht Hfit Hps) as [Hiff Hreads].
  fold required in Hiff, Hreads. fold r in Hiff, Hreads.
  assert (Hreq : required = (rows * cols * trits_per_val + 4) / 5).
  { apply calculate_packed_size_exact; try lia.
    unfold INT_MAX, SIZE_MOD in *. nia. }
  assert (Hreq_range : 0 <= required < SIZE_MOD).
  { rewrite Hreq. unfold INT_MAX, SIZE_MOD in *. split.
    - apply Z.div_pos; nia.
    - apply Z.div_lt_upper_bound; nia. }
  pose proof (element_count rows cols Hr Hc Hfit) as Hn.
  split; [exact Hiff|].
  split.
  { intros Hge.
    destruct (ternary_to_float_matrix_code (Some p) packed_size trits_per_val
                (Some m) rows cols) as [H|H]; fold r in H; [|exact H].
    apply Hiff in H. lia. }
  split; [intros ->; apply Hiff; lia|].
  split; [exact Hreads|].
  intros Hge. subst r. unfold ternary_to_float_matrix.
  destruct (_ || _ || _); [reflexivity|].
  destruct (64 <? _); [reflexivity|].
  rewrite (dec_outer_size_irrelevant p packed_size required trits_per_val
             _ Hps Hreq_range ltac:(lia) 0 0 _
             (dec_inv_init packed_size m ltac:(lia))); [reflexivity | |];
    rewrite Hn, Z.add_0_l, <- Hreq; lia.
Qed.

Lemma decode_fails_iff_undersupplied_witness :
  let required := calculate_packed_size 1 2 8 in
  let r := ternary_to_float_matrix (Some [0; 135; 212; 121]) 3 8
             (Some [F32.zero; F32.zero]) 1 2 in
  (r_code r = -1 <-> 3 < required) /\
  (required <= 3 -> r_code r = 0) /\
  (3 = required - 1 -> r_code r = -1) /\
  (forall i, In i (r_reads r) -> 0 <= i < 3 /\ i < required) /\
  (required <= 3 ->
   r = ternary_to_float_matrix (Some [0; 135; 212; 121]) required 8
         (Some [F32.zero; F32.zero]) 1 2).
Proof.
  apply (decode_fails_iff_undersupplied [0; 135; 212; 121] [F32.zero; F32.zero] 1 2 8 3);
    unfold INT_MAX, SIZE_MOD; lia.
Defined.

(** ** The integer [max_val] of the scalar codec *)

Lemma weigh_loop_power (fuel : nat) : forall (i : nat) (trits : list Z) (value power : Z),
  snd (weigh_loop fuel i trits value power) = pow3_loop fuel power.
Proof.
  induction fuel as [|fuel IH]; intros i trits value power; cbn; [reflexivity|].
  apply IH.
Qed.

Lemma decode_max_val_encode (trits : list Z) (n : Z) :
  decode_max_val trits n = encode_max_val n.
Proof.
  unfold decode_max_val, encode_max_val.
  pose proof (weigh_loop_power (Z.to_nat n) 0 trits 0 1) as H.
  destruct (weigh_loop (Z.to_nat n) 0 trits 0 1) as [v pw]. cbn [snd] in H.
  now rewrite H.
Qed.

Lemma encode_max_val_exact (n : Z) : 1 <= n <= 19 -> encode_max_val n = max_val n.
Proof.
  intros H.
  assert (Hc : n = 1 \/ n = 2 \/ n = 3 \/ n = 4 \/ n = 5 \/ n = 6 \/ n = 7 \/
               n = 8 \/ n = 9 \/ n = 10 \/ n = 11 \/ n = 12 \/ n = 13 \/
               n = 14 \/ n = 15 \/ n = 16 \/ n = 17 \/ n = 18 \/ n = 19) by lia.
  repeat (destruct Hc as [->|Hc]; [vm_compute; reflexivity|]).
  subst n. vm_compute; reflexivity.
Qed.

Lemma encode_max_val_bound (n : Z) : - 2 ^ 30 <= encode_max_val n <= 2 ^ 30.
Proof.
  unfold encode_max_val.
  pose proof (wrap32_range (pow3_loop (Z.to_nat n) 1 - 1)) as Hw.
  unfold INT_MIN, INT_MAX in Hw.
  set (w := wrap32 (pow3_loop (Z.to_nat n) 1 - 1)) in *.
  assert (Hq : - 2 ^ 30 <= Z.quot w 2 <= 2 ^ 30).
  { pose proof (Z.quot_rem' w 2) as Hqr.
    pose proof (Z.rem_bound_abs w 2 ltac:(lia)). lia. }
  rewrite wrap32_small by (unfold INT_MIN, INT_MAX; lia). exact Hq.
Qed.

Lemma max_val_large (n : Z) : 20 <= n -> 2 ^ 30 < max_val n.
Proof.
  intros H. unfold max_val.
  assert (H3 : 3 ^ 20 <= 3 ^ n) by (apply Z.pow_le_mono_r; lia).
  assert (Hm : (3 ^ 20 - 1) / 2 <= (3 ^ n - 1) / 2) by (apply Z.div_le_mono; lia).
  assert (Hc : 2 ^ 30 < (3 ^ 20 - 1) / 2) by (vm_compute; reflexivity).
  lia.
Qed.

(** C10.  The [max_val] that [float_to_balanced_ternary] and
    [balanced_ternary_to_float] compute with 32-bit wrap-around is
    [(3^n - 1) / 2] for [1 <= n <= 19] and differs from it for every
    [n >= 20], yet both matrix functions accept [trits_per_val] up to
    64: on a 1 x 1 matrix with a 13-byte buffer they return 0. *)
Theorem max_val_exact_up_to_19 (n : Z) (trits : list Z) :
  (1 <= n <= 19 ->
   encode_max_val n = max_val n /\ decode_max_val trits n = max_val n) /\
  (20 <= n ->
   encode_max_val n <> max_val n /\ decode_max_val trits n <> max_val n) /\
  (20 <= n <= 64 ->
   forall (v : F32.float) (p : list Z),
   fst (float_matrix_to_ternary (Some [v]) 1 1 n (Some p) 13) = 0 /\
   r_code (ternary_to_float_matrix (Some p) 13 n (Some [v]) 1 1) = 0).
Proof.
  rewrite decode_max_val_encode. split; [|split].
  - intros H. split; apply encode_max_val_exact; exact H.
  - intros H. pose proof (encode_max_val_bound n). pose proof (max_val_large n H). lia.
  - intros H v p.
    assert (Hreq : calculate_packed_size 1 1 n <= 13).
    { rewrite calculate_packed_size_exact by (unfold SIZE_MOD; lia).
      assert ((1 * 1 * n + 4) / 5 < 14) by (apply Z.div_lt_upper_bound; lia).
      lia. }
    split.
    + apply float_matrix_to_ternary_accepts; lia.
    + destruct (ternary_to_float_matrix_code (Some p) 13 n (Some [v]) 1 1)
        as [Hm|Hz]; [|exact Hz].
      apply (ternary_to_float_matrix_starved p [v] 1 1 n 13) in Hm;
        unfold INT_MAX, SIZE_MOD; lia.
Qed.

Lemma max_val_exact_up_to_19_witness :
  (encode_max_val 19 = max_val 19 /\ decode_max_val [] 19 = max_val 19) /\
  (encode_max_val 20 <> max_val 20 /\ decode_max_val [] 20 <> max_val 20) /\
  (forall (v : F32.float) (p : list Z),
   fst (float_matrix_to_ternary (Some [v]) 1 1 20 (Some p) 13) = 0 /\
   r_code (ternary_to_float_matrix (Some p) 13 20 (Some [v]) 1 1) = 0).
Proof.
  split; [|split].
  - apply (proj1 (max_val_exact_up_to_19 19 [])). lia.
  - apply (proj1 (proj2 (max_val_exact_up_to_19 20 []))). lia.
  - apply (proj2 (proj2 (max_val_exact_up_to_19 20 []))). lia.
Defined.

(** ** Clamping *)

Lemma one_val : F32.one = S754_finite false 8388608 (-23).
Proof. vm_compute. reflexivity. Qed.

Lemma minus_one_val : F32.minus_one = S754_finite true 8388608 (-23).
Proof. vm_compute. reflexivity. Qed.

(** A value above 1 is not below -1. *)
Lemma above_one_not_below (x : F32.float) :
  F32.ltb F32.one x = true -> F32.ltb x F32.minus_one = false.
Proof.
  rewrite one_val, minus_one_val. unfold F32.ltb, SFltb.
  destruct x as [s|s| |s m e]; try destruct s;
    try (cbv [SFcompare]; discriminate);
    intros _; cbv [SFcompare]; reflexivity.
Qed.

(** C9.  A value above 1 is encoded as 1.0 is and a value below -1 as
    -1.0 is: same return code, same trits; so are 2.5 and -7.0 with
    four trits. *)
Theorem clamp_encodes_as_endpoint (v : F32.float) (trits : option (list Z)) (n : Z) :
  (F32.ltb F32.one v = true ->
   float_to_balanced_ternary v trits n = float_to_balanced_ternary F32.one trits n) /\
  (F32.ltb v F32.minus_one = true ->
   float_to_balanced_ternary v trits n = float_to_balanced_ternary F32.minus_one trits n) /\
  float_to_balanced_ternary (F32.lit 25 10) trits 4
    = float_to_balanced_ternary (F32.of_int 1) trits 4 /\
  float_to_balanced_ternary (F32.of_int (-7)) trits 4
    = float_to_balanced_ternary (F32.of_int (-1)) trits 4.
Proof.
  assert (Hhi : forall x, F32.ltb F32.one x = true -> clamp x = clamp F32.one).
  { intros x Hx. unfold clamp. rewrite Hx, (above_one_not_below x Hx).
    reflexivity. }
  assert (Hlo : forall x, F32.ltb x F32.minus_one = true -> clamp x = clamp F32.minus_one).
  { intros x Hx. unfold clamp. rewrite Hx. reflexivity. }
  assert (Henc : forall x y, clamp x = clamp y ->
            float_to_balanced_ternary x trits n = float_to_balanced_ternary y trits n).
  { intros x y Hxy. unfold float_to_balanced_ternary. now rewrite Hxy. }
  assert (Henc4 : forall x y, clamp x = clamp y ->
            float_to_balanced_ternary x trits 4 = float_to_balanced_ternary y trits 4).
  { intros x y Hxy. unfold float_to_balanced_ternary. now rewrite Hxy. }
  split; [|split; [|split]].
  - intros H. apply Henc, Hhi, H.
  - intros H. apply Henc, Hlo, H.
  - apply Henc4. vm_compute. reflexivity.
  - apply Henc4. vm_compute. reflexivity.
Qed.

Lemma clamp_encodes_as_endpoint_witness :
  float_to_balanced_ternary (F32.lit 25 10) (Some [0; 0; 0; 0]) 4
    = float_to_balanced_ternary F32.one (Some [0; 0; 0; 0]) 4 /\
  float_to_balanced_ternary (F32.of_int (-7)) (Some [0; 0; 0; 0]) 4
    = float_to_balanced_ternary F32.minus_one (Some [0; 0; 0; 0]) 4.
Proof.
  split.
  - apply (proj1 (clamp_encodes_as_endpoint (F32.lit 25 10) (Some [0; 0; 0; 0]) 4)).
    vm_compute. reflexivity.
  - apply (proj1 (proj2 (clamp_encodes_as_endpoint (F32.of_int (-7))
                           (Some [0; 0; 0; 0]) 4))).
    vm_compute. reflexivity.
Defined.

(** ** The matrix round trip of the sample matrix *)

(** C4.  On the 3 x 3 sample matrix with eight trits per value both
    calls return 0, in a buffer of [calculate_packed_size 3 3 8 = 15]
    bytes, but the element -0.5 comes back as +0.25: the digit loop
    takes [-1640 / 3] with C's truncating division, so the trits of
    -1640 are those of +820.  The error of that element is 3/4, above
    [1/3280]; the eight other elements are within [1/3280]. *)
Theorem sample_matrix_roundtrip :
  calculate_packed_size 3 3 8 = 15 /\
  exists (packed : list Z) (out : list F32.float),
    float_matrix_to_ternary (Some sample_matrix) 3 3 8
      (Some (repeat 0 15)) (calculate_packed_size 3 3 8) = (0, Some packed) /\
    ternary_to_float_matrix (Some packed) (calculate_packed_size 3 3 8) 8
      (Some (repeat F32.zero 9)) 3 3
      = {| r_code := 0; r_matrix := Some out;
           r_reads := [14; 13; 12; 11; 10; 9; 8; 7; 6; 5; 4; 3; 2; 1; 0] |} /\
    nth 1 sample_matrix F32.zero = S754_finite true 8388608 (-24) /\
    nth 1 out F32.zero = S754_finite false 8388608 (-25) /\
    (F32.F2Q (nth 1 out F32.zero) - F32.F2Q (nth 1 sample_matrix F32.zero) == 3 # 4)%Q /\
    ~ (Qabs (F32.F2Q (nth 1 out F32.zero) - F32.F2Q (nth 1 sample_matrix F32.zero))
       <= 1 # 3280)%Q /\
    Forall (fun i =>
      (Qabs (F32.F2Q (nth i out F32.zero) - F32.F2Q (nth i sample_matrix F32.zero))
       <= 1 # 3280)%Q) [0; 2; 3; 4; 5; 6; 7; 8]%nat.
Proof.
  split; [reflexivity|].
  eexists. eexists.
  split; [vm_compute; reflexivity|].
  split; [vm_compute; reflexivity|].
  split; [vm_compute; reflexivity|].
  split; [vm_compute; reflexivity|].
  split; [vm_compute; reflexivity|].
  split; [vm_compute; intros H; apply H; reflexivity|].
  repeat constructor; vm_compute; discriminate.
Qed.

(** The trits the encoder gives -0.5 with eight trits stand for +820,
    not for -1640. *)
Lemma minus_half_encoded_as_positive :
  float_to_balanced_ternary (F32.lit (-5) 10) (Some (repeat 0 8)) 8
    = (0, Some [1; 0; 1; 0; 1; 0; 1; 0]) /\
  fst (weigh_loop 8 0 [1; 0; 1; 0; 1; 0; 1; 0] 0 1) = 820.
Proof. split; vm_compute; reflexivity. Qed.

(** ** The scalar round trip *)

(** C1, as the specification states it, fails in two ways.  With 16
    trits the value 15428767 * 2^-24 (about 0.9196) comes back as
    15428768 * 2^-24: the error, 2^-24, is above [1/21523360] because
    binary32 has 24 significant bits.  With 2 trits the value -0.5
    comes back as +0.25, by the truncating division of the digit
    loop. *)
Lemma scalar_roundtrip_exceeds_step :
  F32.valid (S754_finite false 15428767 (-24)) = true /\
  F32.leb F32.zero (S754_finite false 15428767 (-24)) = true /\
  F32.leb (S754_finite false 15428767 (-24)) F32.one = true /\
  ~ roundtrip_within_step (S754_finite false 15428767 (-24)) (repeat 0 16) 16 /\
  F32.valid (F32.lit (-1) 2) = true /\
  F32.leb F32.minus_one (F32.lit (-1) 2) = true /\
  F32.leb (F32.lit (-1) 2) F32.one = true /\
  ~ roundtrip_within_step (F32.lit (-1) 2) (repeat 0 2) 2.
Proof.
  repeat split; try (vm_compute; reflexivity);
    unfold roundtrip_within_step; vm_compute; intros H; apply H; reflexivity.
Qed.

(** ** Binary32 rounding *)

Lemma digits2_pos_bounds (p : positive) :
  2 ^ (Zpos (digits2_pos p) - 1) <= Zpos p < 2 ^ Zpos (digits2_pos p).
Proof.
  induction p as [p IH|p IH|]; cbn [digits2_pos].
  - rewrite Pos2Z.inj_succ.
    replace (Z.succ (Zpos (digits2_pos p)) - 1) with (Z.succ (Zpos (digits2_pos p) - 1)) by lia.
    rewrite !Z.pow_succ_r by lia. lia.
  - rewrite Pos2Z.inj_succ.
    replace (Z.succ (Zpos (digits2_pos p)) - 1) with (Z.succ (Zpos (digits2_pos p) - 1)) by lia.
    rewrite !Z.pow_succ_r by lia. lia.
  - cbn. lia.
Qed.

Lemma Zdigits2_nonneg (m : Z) : 0 <= Zdigits2 m.
Proof. destruct m; cbn; lia. Qed.

Lemma Zdigits2_bounds (m : Z) :
  0 < m -> 2 ^ (Zdigits2 m - 1) <= m < 2 ^ Zdigits2 m.
Proof. destruct m as [|p|p]; try lia. intros _. apply digits2_pos_bounds. Qed.

Lemma Zdigits2_le (m k : Z) : 0 <= m -> 0 <= k -> m < 2 ^ k -> Zdigits2 m <= k.
Proof.
  intros Hm Hk Hlt. destruct (Z.eq_dec m 0) as [->|Hnz]; [cbn; lia|].
  pose proof (Zdigits2_bounds m ltac:(lia)) as [Hlo _].
  destruct (Z_le_gt_dec (Zdigits2 m) k) as [H|H]; [exact H|].
  assert (2 ^ k <= 2 ^ (Zdigits2 m - 1)) by (apply Z.pow_le_mono_r; lia). lia.
Qed.

Lemma Zdigits2_ge (m k : Z) : 0 <= k -> 2 ^ k <= m -> k + 1 <= Zdigits2 m.
Proof.
  intros Hk Hle.
  assert (0 < m) by (pose proof (Z.pow_pos_nonneg 2 k); lia).
  pose proof (Zdigits2_bounds m ltac:(lia)) as [_ Hhi].
  destruct (Z_le_gt_dec (k + 1) (Zdigits2 m)) as [H0|H0]; [exact H0|].
  assert (2 ^ Zdigits2 m <= 2 ^ k) by (apply Z.pow_le_mono_r; lia). lia.
Qed.

(** Adding one to a number adds a digit only when it gives a power of
    two. *)
Lemma Zdigits2_succ (m : Z) :
  0 <= m ->
  Zdigits2 (m + 1) = Zdigits2 m \/
  (m + 1 = 2 ^ Zdigits2 m /\ Zdigits2 (m + 1) = Zdigits2 m + 1).
Proof.
  intros Hm. destruct (Z.eq_dec m 0) as [->|Hnz]; [right; split; reflexivity|].
  pose proof (Zdigits2_bounds m ltac:(lia)) as [Hlo Hhi].
  pose proof (Zdigits2_nonneg m) as Hd.
  assert (Hd1 : 1 <= Zdigits2 m).
  { destruct (Z_le_gt_dec 1 (Zdigits2 m)) as [H|H]; [exact H|].
    replace (Zdigits2 m) with 0 in Hhi by lia. cbn in Hhi. lia. }
  destruct (Z.eq_dec (m + 1) (2 ^ Zdigits2 m)) as [Heq|Hne].
  - right. split; [exact Heq|].
    apply Z.le_antisymm.
    + apply Zdigits2_le; try lia. rewrite Z.pow_add_r by lia. lia.
    + apply Zdigits2_ge; lia.
  - left. apply Z.le_antisymm.
    + apply Zdigits2_le; lia.
    + replace (Zdigits2 m) with (Zdigits2 m - 1 + 1) at 1 by lia.
      apply Zdigits2_ge; lia.
Qed.

Lemma loc_of_record_of_loc (m : Z) (l : location) :
  loc_of_shr_record (shr_record_of_loc m l) = l.
Proof. destruct l as [|[]]; reflexivity. Qed.

Lemma shr_m_record_of_loc (m : Z) (l : location) :
  shr_m (shr_record_of_loc m l) = m.
Proof. destruct l as [|[]]; reflexivity. Qed.

Lemma represents_sticky (m : Z) (r s : bool) (n d : Z) :
  represents (Build_shr_record m r s) n d ->
  (r || s = false <-> n mod d = 0).
Proof.
  intros (Hd & Hn & _ & Hloc). cbn in Hloc. unfold loc_of_rem in Hloc.
  destruct (n mod d =? 0) eqn:E.
  - apply Z.eqb_eq in E. destruct r, s; try discriminate. tauto.
  - apply Z.eqb_neq in E. destruct r, s; try discriminate; cbn; split; intros; try lia; discriminate.
Qed.

Lemma halve_even (n d p rho : Z) :
  0 < d -> n = d * (2 * p) + rho -> 0 <= rho < d ->
  n / (2 * d) = p /\ n mod (2 * d) = rho.
Proof.
  intros Hd Hn Hr.
  assert (H : n = (2 * d) * p + rho) by lia.
  split.
  - symmetry. apply Z.div_unique with (r := rho); lia.
  - symmetry. apply Z.mod_unique with (q := p); lia.
Qed.

Lemma halve_odd (n d p rho : Z) :
  0 < d -> n = d * (2 * p + 1) + rho -> 0 <= rho < d ->
  n / (2 * d) = p /\ n mod (2 * d) = d + rho.
Proof.
  intros Hd Hn Hr.
  assert (H : n = (2 * d) * p + (d + rho)) by lia.
  split.
  - symmetry. apply Z.div_unique with (r := d + rho); lia.
  - symmetry. apply Z.mod_unique with (q := p); lia.
Qed.

(** One right shift of a record halves the scale it is read at. *)
Lemma shr_1_represents (mrs : shr_record) (n d : Z) :
  represents mrs n d -> represents (shr_1 mrs) n (2 * d).
Proof.
  destruct mrs as [m r s]. intros H.
  pose proof (represents_sticky m r s n d H) as Hst.
  destruct H as (Hd & Hn & Hm & Hloc). cbn [shr_m] in Hm.
  pose proof (Z.div_mod n d ltac:(lia)) as Hdm.
  pose proof (Z.mod_pos_bound n d Hd) as Hrho.
  assert (Hmpos : 0 <= m) by (rewrite Hm; apply Z.div_pos; lia).
  set (rho := n mod d) in *. rewrite <- Hm in Hdm.
  assert (Even : forall p, m = 2 * p ->
            represents (Build_shr_record p false (r || s)) n (2 * d)).
  { intros p Hp. destruct (halve_even n d p rho Hd ltac:(lia) Hrho) as [Hq Hr].
    repeat split; try lia; cbn [shr_m]; [now rewrite Hq|].
    rewrite Hr. unfold loc_of_rem. cbn [loc_of_shr_record].
    destruct (r || s) eqn:E.
    - assert (rho <> 0) by (intros H0; apply Hst in H0; discriminate).
      replace (rho =? 0) with false by (symmetry; now apply Z.eqb_neq).
      replace (2 * rho ?= 2 * d) with Lt; [reflexivity|].
      symmetry. apply Z.compare_lt_iff. lia.
    - assert (rho = 0) by (now apply Hst). subst rho.
      replace (n mod d =? 0) with true by (symmetry; now apply Z.eqb_eq).
      reflexivity. }
  assert (Odd : forall p, m = 2 * p + 1 ->
            represents (Build_shr_record p true (r || s)) n (2 * d)).
  { intros p Hp. destruct (halve_odd n d p rho Hd ltac:(lia) Hrho) as [Hq Hr].
    repeat split; try lia; cbn [shr_m]; [now rewrite Hq|].
    rewrite Hr. unfold loc_of_rem. cbn [loc_of_shr_record].
    replace (d + rho =? 0) with false by (symmetry; apply Z.eqb_neq; lia).
    destruct (r || s) eqn:E.
    - assert (rho <> 0) by (intros H0; apply Hst in H0; discriminate).
      replace (2 * (d + rho) ?= 2 * d) with Gt; [reflexivity|].
      symmetry. apply Z.compare_gt_iff. lia.
    - assert (rho = 0) by (now apply Hst).
      replace (2 * (d + rho) ?= 2 * d) with Eq; [reflexivity|].
      symmetry. apply Z.compare_eq_iff. lia. }
  destruct m as [|[p|p|]|p]; cbn [shr_1]; try lia.
  - apply (Even 0). lia.
  - apply (Odd (Zpos p)). lia.
  - apply (Even (Zpos p)). lia.
  - apply (Odd 0). lia.
Qed.

Lemma represents_scale (mrs : shr_record) (n d d' : Z) :
  d = d' -> represents mrs n d -> represents mrs n d'.
Proof. now intros ->. Qed.

Lemma iter_pos_shr_1_represents (p : positive) : forall (mrs : shr_record) (n d : Z),
  represents mrs n d ->
  represents (SpecFloat.iter_pos shr_1 p mrs) n (d * 2 ^ Zpos p).
Proof.
  induction p as [p IH|p IH|]; intros mrs n d H; cbn [SpecFloat.iter_pos].
  - apply (represents_scale _ _ (2 * d * 2 ^ Zpos p * 2 ^ Zpos p)).
    + replace (Zpos p~1) with (Zpos p + Zpos p + 1) by lia.
      rewrite !Z.pow_add_r by lia. lia.
    + apply IH, IH, shr_1_represents, H.
  - apply (represents_scale _ _ (d * 2 ^ Zpos p * 2 ^ Zpos p)).
    + replace (Zpos p~0) with (Zpos p + Zpos p) by lia.
      rewrite !Z.pow_add_r by lia. lia.
    + apply IH, IH, H.
  - apply (represents_scale _ _ (2 * d)); [lia|].
    apply shr_1_represents, H.
Qed.

(** [shr] by [k] positions. *)
Lemma shr_represents (mrs : shr_record) (e k n d : Z) :
  represents mrs n d ->
  represents (fst (shr mrs e k)) n (d * 2 ^ Z.max k 0) /\
  snd (shr mrs e k) = e + Z.max k 0.
Proof.
  intros H. destruct k as [|p|p]; cbn [shr fst snd].
  - change (Z.max 0 0) with 0. rewrite Z.pow_0_r, Z.mul_1_r, Z.add_0_r. now split.
  - rewrite Z.max_l by lia. split; [|reflexivity].
    apply iter_pos_shr_1_represents, H.
  - rewrite Z.max_r by lia. rewrite Z.pow_0_r, Z.mul_1_r, Z.add_0_r. now split.
Qed.

(** Rounding to nearest even is within half a unit. *)
Lemma round_nearest_even_represents (mrs : shr_record) (n d : Z) :
  represents mrs n d ->
  let m := round_nearest_even (shr_m mrs) (loc_of_shr_record mrs) in
  (m = shr_m mrs \/ m = shr_m mrs + 1) /\
  2 * Z.abs (m * d - n) <= d /\
  (n mod d = 0 -> m * d = n).
Proof.
  intros (Hd & Hn & Hm & Hloc). cbn zeta.
  pose proof (Z.div_mod n d ltac:(lia)) as Hdm.
  pose proof (Z.mod_pos_bound n d Hd) as Hrho.
  rewrite <- Hm in Hdm. rewrite Hloc. unfold loc_of_rem.
  set (rho := n mod d) in *.
  destruct (rho =? 0) eqn:E0; cbn [round_nearest_even].
  - apply Z.eqb_eq in E0. repeat split; lia.
  - apply Z.eqb_neq in E0.
    destruct (Z.compare_spec (2 * rho) d) as [Ec|Ec|Ec]; cbn [round_nearest_even].
    + destruct (Z.even (shr_m mrs)); repeat split; lia.
    + repeat split; lia.
    + repeat split; lia.
Qed.

(** The exponent function of binary32. *)
Lemma fexp32 (e : Z) : fexp F32.prec F32.emax e = Z.max (e - 24) (-149).
Proof. reflexivity. Qed.

Lemma div_pow2_digits (mx kk : Z) :
  0 <= mx -> 0 <= kk ->
  Zdigits2 (mx / 2 ^ kk) <= Z.max (Zdigits2 mx - kk) 0.
Proof.
  intros Hm Hk.
  assert (Hp : 0 < 2 ^ kk) by (apply Z.pow_pos_nonneg; lia).
  destruct (Z.eq_dec mx 0) as [->|Hnz]; [rewrite Z.div_0_l by lia; cbn; lia|].
  pose proof (Zdigits2_bounds mx ltac:(lia)) as [_ Hhi].
  pose proof (Zdigits2_nonneg mx) as Hd.
  destruct (Z_le_gt_dec (Zdigits2 mx) kk) as [Hle|Hgt].
  - assert (2 ^ Zdigits2 mx <= 2 ^ kk) by (apply Z.pow_le_mono_r; lia).
    rewrite Z.div_small by lia. cbn. lia.
  - rewrite Z.max_l by lia. apply Zdigits2_le; try lia.
    + apply Z.div_pos; lia.
    + apply Z.div_lt_upper_bound; [lia|].
      rewrite <- Z.pow_add_r by lia.
      replace (kk + (Zdigits2 mx - kk)) with (Zdigits2 mx) by lia. exact Hhi.
Qed.

(** [binary_round_aux] on a mantissa [mx] at exponent [ex] that stands,
    with its location, for the fraction [n / d] in units of [2^ex]:
    the result has a mantissa [m3] at an exponent [e3] that is the
    canonical exponent [E] or [E + 1], and it lies within half a unit
    of [2^E] of the value rounded. *)
Lemma binary_round_aux_spec (s : bool) (mx ex : Z) (lx : location) (n d : Z) :
  represents (shr_record_of_loc mx lx) n d ->
  let E := Z.max ex (fexp F32.prec F32.emax (Zdigits2 mx + ex)) in
  E + 1 <= 104 ->
  exists m3 e3 : Z,
    binary_round_aux F32.prec F32.emax s mx ex lx = float_of_mantissa s m3 e3 /\
    0 <= m3 /\ E <= e3 <= E + 1 /\
    2 * Z.abs (m3 * 2 ^ (e3 - ex) * d - n) <= d * 2 ^ (E - ex) /\
    (n mod (d * 2 ^ (E - ex)) = 0 ->
     m3 * 2 ^ (e3 - ex) * d = n /\
     (Z.max (Zdigits2 (n / (d * 2 ^ (E - ex))) + E - 24) (-149) <= E -> e3 = E)).
Proof.
  intros Hrep E HE.
  pose proof Hrep as (Hd & Hn & Hmx & _).
  rewrite shr_m_record_of_loc in Hmx.
  assert (Hmx0 : 0 <= mx) by (rewrite Hmx; apply Z.div_pos; lia).
  unfold binary_round_aux, shr_fexp.
  set (k1 := fexp F32.prec F32.emax (Zdigits2 mx + ex) - ex).
  assert (Hk1 : k1 = Z.max (Zdigits2 mx + ex - 24) (-149) - ex) by reflexivity.
  assert (HEk : E = ex + Z.max k1 0) by (unfold E, k1; lia).
  clearbody E k1.
  destruct (shr_represents (shr_record_of_loc mx lx) ex k1 n d Hrep) as [Hrep1 He1].
  destruct (shr (shr_record_of_loc mx lx) ex k1) as [mrs1 e1].
  cbn [fst snd] in Hrep1, He1. rewrite <- HEk in He1. subst e1.
  set (kk := Z.max k1 0) in *.
  assert (Hkkdef : kk = Z.max k1 0) by reflexivity.
  clearbody kk.
  assert (Hkk : 0 <= kk) by lia.
  assert (Hpk : 0 < 2 ^ kk) by (apply Z.pow_pos_nonneg; lia).
  replace (E - ex) with kk by lia.
  (* the mantissa after the first shift *)
  assert (Hm1 : shr_m mrs1 = mx / 2 ^ kk).
  { destruct Hrep1 as (_ & _ & H & _). rewrite H, Hmx.
    now rewrite Z.div_div by lia. }
  assert (Hm1pos : 0 <= shr_m mrs1) by (rewrite Hm1; apply Z.div_pos; lia).
  assert (Hcanon : fexp F32.prec F32.emax (Zdigits2 (shr_m mrs1) + E) <= E).
  { pose proof (div_pow2_digits mx kk Hmx0 Hkk) as Hdg. rewrite <- Hm1 in Hdg.
    pose proof (Zdigits2_nonneg mx).
    rewrite fexp32. lia. }
  (* rounding *)
  destruct (round_nearest_even_represents mrs1 n (d * 2 ^ kk) Hrep1)
    as (Hm2 & Herr & Hexact).
  set (m2 := round_nearest_even (shr_m mrs1) (loc_of_shr_record mrs1)) in *.
  assert (Hm2pos : 0 <= m2) by lia.
  (* the second shift *)
  rewrite fexp32 in Hcanon.
  set (k2 := fexp F32.prec F32.emax (Zdigits2 m2 + E) - E).
  assert (Hk2def : k2 = Z.max (Zdigits2 m2 + E - 24) (-149) - E) by reflexivity.
  clearbody k2.
  assert (Hrep2 : represents (shr_record_of_loc m2 loc_Exact) m2 1).
  { repeat split; try lia; cbn [shr_record_of_loc shr_m loc_of_shr_record].
    - now rewrite Z.div_1_r.
    - now rewrite Z.mod_1_r. }
  destruct (shr_represents (shr_record_of_loc m2 loc_Exact) E k2 m2 1 Hrep2)
    as [Hrep3 He3].
  destruct (shr (shr_record_of_loc m2 loc_Exact) E k2) as [mrs3 e3].
  cbn [fst snd] in Hrep3, He3.
  assert (Hk2 : k2 <= 0 \/ (k2 = 1 /\ exists j, 0 <= j /\ m2 = 2 * 2 ^ j)).
  { destruct Hm2 as [Hsame|Hinc].
    - left. rewrite Hk2def, Hsame. lia.
    - destruct (Zdigits2_succ (shr_m mrs1) Hm1pos) as [Hdig|[Hpow Hdig]];
        rewrite <- Hinc in *.
      + left. rewrite Hk2def, Hdig. lia.
      + assert (Hle1 : k2 <= 1) by (rewrite Hk2def, Hdig; lia).
        destruct (Z_le_gt_dec k2 0) as [H0|H0]; [now left|right].
        split; [lia|].
        pose proof (Zdigits2_nonneg (shr_m mrs1)) as Hdn.
        destruct (Z.eq_dec (Zdigits2 (shr_m mrs1)) 0) as [Hz|Hnz].
        * exfalso. rewrite Hk2def, Hdig in H0. rewrite Hz in *. lia.
        * exists (Zdigits2 (shr_m mrs1) - 1). split; [lia|].
          rewrite Hpow. rewrite <- Z.pow_succ_r by lia. f_equal. lia. }
  assert (Hm3 : shr_m mrs3 * 2 ^ Z.max k2 0 = m2 /\ 0 <= shr_m mrs3).
  { destruct Hrep3 as (_ & _ & H & _). rewrite Z.mul_1_l in H.
    destruct Hk2 as [Hle|[-> (j & Hj & Hpow)]].
    - rewrite Z.max_r in * by lia. rewrite Z.pow_0_r, Z.div_1_r in H.
      rewrite H. lia.
    - change (Z.max 1 0) with 1 in *. rewrite Z.pow_1_r in *.
      assert (Hhalf : m2 / 2 = 2 ^ j).
      { rewrite Hpow. replace (2 * 2 ^ j) with (2 ^ j * 2) by ring.
        apply Z.div_mul. lia. }
      pose proof (Z.pow_pos_nonneg 2 j ltac:(lia) Hj). lia. }
  destruct Hm3 as [Hm3 Hm3pos].
  exists (shr_m mrs3), e3.
  assert (Hscale : shr_m mrs3 * 2 ^ (e3 - ex) = m2 * 2 ^ kk).
  { replace (e3 - ex) with (Z.max k2 0 + kk) by lia.
    rewrite Z.pow_add_r by lia. rewrite <- Hm3. ring. }
  split; [|split; [exact Hm3pos|split; [lia|split]]].
  - unfold float_of_mantissa. destruct (shr_m mrs3) as [|p|p]; try reflexivity.
    replace (e3 <=? F32.emax - F32.prec) with true; [reflexivity|].
    symmetry. apply Z.leb_le. change (F32.emax - F32.prec) with 104. lia.
  - rewrite Hscale. replace (m2 * 2 ^ kk * d) with (m2 * (d * 2 ^ kk)) by ring.
    exact Herr.
  - intros Hmod. rewrite Hscale.
    replace (m2 * 2 ^ kk * d) with (m2 * (d * 2 ^ kk)) by ring.
    specialize (Hexact Hmod). split; [exact Hexact|].
    intros Hc. rewrite <- Hexact in Hc.
    rewrite Z.div_mul in Hc by lia. lia.
Qed.

(** ** Conversion of small integers *)

Lemma iter_xO_value (p d : positive) :
  Zpos (Pos.iter xO p d) = Zpos p * 2 ^ Zpos d.
Proof.
  induction d as [|d IH] using Pos.peano_ind.
  - cbn. lia.
  - rewrite Pos.iter_succ, Pos2Z.inj_succ, Z.pow_succ_r by lia.
    rewrite Pos2Z.inj_xO, IH. ring.
Qed.

Lemma represents_exact (m : Z) : 0 <= m -> represents (shr_record_of_loc m loc_Exact) m 1.
Proof.
  intros H. repeat split; try lia; cbn [shr_record_of_loc shr_m loc_of_shr_record].
  - now rewrite Z.div_1_r.
  - now rewrite Z.mod_1_r.
Qed.

(** [(float)z] is exact for [0 < z < 2^24]: the mantissa is [z]
    shifted left to 24 digits. *)
Lemma of_int_exact (z : Z) :
  0 < z < 2 ^ 24 ->
  exists m : positive,
    F32.of_int z = S754_finite false m (Zdigits2 z - 24) /\
    1 <= Zdigits2 z <= 24 /\
    Zpos m = z * 2 ^ (24 - Zdigits2 z).
Proof.
  intros Hz. destruct z as [|p|p]; try lia.
  unfold F32.of_int, binary_normalize, binary_round.
  pose proof (digits2_pos_bounds p) as Hdg. cbn [Zdigits2].
  remember (Zpos (digits2_pos p)) as dg eqn:Hdgdef.
  assert (Hdg24 : 1 <= dg <= 24).
  { split; [lia|].
    destruct (Z_le_gt_dec dg 24) as [H|H]; [exact H|].
    assert (2 ^ 24 <= 2 ^ (dg - 1)) by (apply Z.pow_le_mono_r; lia). lia. }
  rewrite Z.add_0_r, fexp32. rewrite Z.max_l by lia.
  assert (Hal : exists mz : positive,
            shl_align p 0 (dg - 24) = (mz, dg - 24) /\ Zpos mz = Zpos p * 2 ^ (24 - dg)).
  { unfold shl_align. rewrite Z.sub_0_r.
    destruct (dg - 24) as [|q|q] eqn:Eq; try lia.
    - exists p. split; [f_equal; lia|]. replace (24 - dg) with 0 by lia. lia.
    - exists (Pos.iter xO p q). split; [reflexivity|].
      rewrite iter_xO_value. f_equal. f_equal. lia. }
  destruct Hal as (mz & -> & Hmz).
  assert (Hp2 : 0 < 2 ^ (24 - dg)) by (apply Z.pow_pos_nonneg; lia).
  assert (Hmzd : Zdigits2 (Zpos mz) = 24).
  { apply Z.le_antisymm.
    - apply Zdigits2_le; try lia. rewrite Hmz.
      replace 24 with (dg + (24 - dg)) at 2 by lia.
      rewrite Z.pow_add_r by lia. nia.
    - replace 24 with (23 + 1) by lia. apply Zdigits2_ge; [lia|]. rewrite Hmz.
      replace 23 with ((dg - 1) + (24 - dg)) by lia.
      rewrite Z.pow_add_r by lia. nia. }
  destruct (binary_round_aux_spec false (Zpos mz) (dg - 24) loc_Exact (Zpos mz) 1
              (represents_exact (Zpos mz) ltac:(lia))) as (m3 & e3 & Hres & Hm3 & He3 & _ & Hex).
  { rewrite Hmzd, fexp32. lia. }
  rewrite Hmzd, fexp32 in He3, Hex.
  replace (Z.max (dg - 24) (Z.max (24 + (dg - 24) - 24) (-149))) with (dg - 24) in * by lia.
  rewrite Z.sub_diag, Z.pow_0_r, Z.mul_1_r, Z.mod_1_r, Z.div_1_r, Hmzd in Hex.
  destruct (Hex eq_refl) as [Hval He]. specialize (He ltac:(lia)). subst e3.
  rewrite Z.sub_diag, Z.pow_0_r, !Z.mul_1_r in Hval. subst m3.
  rewrite Hres. exists mz. cbn [float_of_mantissa]. auto.
Qed.

(** ** From scaled integers to rationals *)

Local Open Scope Q_scope.

Lemma two_pow_pos (e : Z) : 0 < 2 ^ e.
Proof. apply Qpower_0_lt. reflexivity. Qed.

Lemma two_pow_split (a b : Z) : (a <= b)%Z -> inject_Z (2 ^ (b - a)) * 2 ^ a == 2 ^ b.
Proof.
  intros H. rewrite Zpower_Qpower by lia.
  change (inject_Z 2) with 2. rewrite <- Qpower_plus by discriminate.
  now replace (b - a + a)%Z with b by lia.
Qed.

Lemma two_pow_le (a b : Z) : (a <= b)%Z -> 2 ^ a <= 2 ^ b.
Proof. intros H. apply Qpower_le_compat_l; [exact H | discriminate]. Qed.

Lemma F2Q_of_mantissa (m e : Z) :
  (0 <= m)%Z -> F32.F2Q (float_of_mantissa false m e) == inject_Z m * 2 ^ e.
Proof.
  intros H. destruct m as [|p|p]; try lia; cbn [float_of_mantissa F32.F2Q cond_Zopp].
  - ring.
  - reflexivity.
Qed.

(** An error bound on scaled integers, read on the rationals. *)
Lemma round_error_Q (m3 e3 ex E n d : Z) :
  (0 < d)%Z -> (ex <= e3)%Z -> (ex <= E)%Z ->
  (2 * Z.abs (m3 * 2 ^ (e3 - ex) * d - n) <= d * 2 ^ (E - ex))%Z ->
  Qabs (inject_Z m3 * 2 ^ e3 - inject_Z n / inject_Z d * 2 ^ ex) <= 2 ^ E * (1 # 2).
Proof.
  intros Hd He3 HE Herr.
  rewrite <- (two_pow_split ex e3 He3), <- (two_pow_split ex E HE).
  pose proof (two_pow_pos ex) as HA.
  set (A := 2 ^ ex) in *.
  assert (HD : 0 < inject_Z d) by (change 0 with (inject_Z 0); rewrite <- Zlt_Qlt; exact Hd).
  set (b := (2 ^ (e3 - ex))%Z) in *. set (t := (2 ^ (E - ex))%Z) in *.
  assert (Hlo : (- (d * t) <= 2 * (m3 * b * d + - n))%Z) by lia.
  assert (Hhi : (2 * (m3 * b * d + - n) <= d * t)%Z) by lia.
  rewrite Zle_Qle in Hlo, Hhi.
  rewrite inject_Z_opp in Hlo.
  rewrite !inject_Z_mult, inject_Z_plus, !inject_Z_mult, inject_Z_opp in Hlo, Hhi.
  change (inject_Z 2) with 2 in Hlo, Hhi.
  set (B := inject_Z b) in *. set (T := inject_Z t) in *.
  set (D := inject_Z d) in *. set (N := inject_Z n) in *. set (M3 := inject_Z m3) in *.
  assert (Heq : M3 * (B * A) - N / D * A == (M3 * B * D + - N) * (A / D))
    by (field; lra).
  rewrite Heq. apply Qabs_Qle_condition.
  assert (HAD : 0 < A / D) by (apply Qlt_shift_div_l; lra).
  assert (Hb : T * A * (1 # 2) == D * T * (1 # 2) * (A / D)) by (field; lra).
  rewrite Hb.
  set (c := A / D) in *. set (X := M3 * B * D + - N) in *.
  split.
  - assert (E1 : - (D * T * (1 # 2) * c) == (- (D * T * (1 # 2))) * c) by ring.
    rewrite E1. apply Qmult_le_compat_r; lra.
  - apply Qmult_le_compat_r; lra.
Qed.

Local Open Scope Z_scope.

(** ** Rounding to an integer *)

Lemma to_int_of_int (z : Z) : 0 <= z < 2 ^ 24 -> F32.to_int (F32.of_int z) = z.
Proof.
  intros Hz. destruct (Z.eq_dec z 0) as [->|Hnz]; [reflexivity|].
  destruct (of_int_exact z ltac:(lia)) as (m & Hof & Hdg & Hm).
  rewrite Hof. unfold F32.to_int. cbn [cond_Zopp].
  assert (Hmag : (if 0 <=? Zdigits2 z - 24 then Zpos m * 2 ^ (Zdigits2 z - 24)
                  else Z.shiftr (Zpos m) (- (Zdigits2 z - 24))) = z).
  { destruct (0 <=? Zdigits2 z - 24) eqn:E.
    - apply Z.leb_le in E. replace (Zdigits2 z - 24) with 0 by lia.
      rewrite Hm. replace (24 - Zdigits2 z) with 0 by lia.
      rewrite !Z.pow_0_r. lia.
    - rewrite Z.shiftr_div_pow2 by lia. rewrite Hm.
      replace (- (Zdigits2 z - 24)) with (24 - Zdigits2 z) by lia.
      apply Z.div_mul. apply Z.pow_nonzero; lia. }
  rewrite Hmag.
  replace ((INT_MIN <=? z) && (z <=? INT_MAX)) with true; [reflexivity|].
  symmetry. apply andb_true_iff. unfold INT_MIN, INT_MAX.
  split; apply Z.leb_le; lia.
Qed.

(** [(int)roundf(x)] of a non-negative float not above [2^23] is
    within one half of [x]. *)
Lemma roundf_to_int (m e : Z) :
  0 <= m -> e <= 23 -> m <= 2 ^ (23 - e) ->
  let k := F32.to_int (F32.roundf (float_of_mantissa false m e)) in
  let c := Z.max (- e) 0 in
  0 <= k <= 2 ^ 23 /\
  2 * Z.abs (k * 2 ^ c - m * 2 ^ (e + c)) <= 2 ^ c.
Proof.
  intros Hm He Hb k c.
  destruct m as [|p|p]; try lia.
  - subst k. cbn. split; [lia|]. rewrite Z.mul_0_l.
    pose proof (Z.pow_pos_nonneg 2 c ltac:(lia) ltac:(lia)). cbn. lia.
  - subst k. cbn [float_of_mantissa F32.roundf].
    destruct (0 <=? e) eqn:E0.
    + unfold F32.to_int. rewrite E0. apply Z.leb_le in E0. cbn [cond_Zopp].
      assert (Hv : Zpos p * 2 ^ e <= 2 ^ 23).
      { replace (2 ^ 23) with (2 ^ (23 - e) * 2 ^ e)
          by (rewrite <- Z.pow_add_r by lia; f_equal; lia).
        apply Z.mul_le_mono_nonneg_r; [apply Z.pow_nonneg; lia | exact Hb]. }
      assert (Hv0 : 0 < Zpos p * 2 ^ e).
      { apply Z.mul_pos_pos; [lia | apply Z.pow_pos_nonneg; lia]. }
      replace ((INT_MIN <=? Zpos p * 2 ^ e) && (Zpos p * 2 ^ e <=? INT_MAX)) with true.
      * split; [lia|]. subst c. rewrite Z.max_r by lia.
        rewrite Z.add_0_r, Z.pow_0_r. lia.
      * symmetry. apply andb_true_iff. unfold INT_MIN, INT_MAX.
        split; apply Z.leb_le; lia.
    + apply Z.leb_gt in E0. cbn [cond_Zopp].
      change (binary_normalize F32.prec F32.emax ?z 0 false) with (F32.of_int z).
      rewrite Z.shiftr_div_pow2 by lia.
      set (h := 2 ^ (- e - 1)).
      assert (Hh : 0 < h) by (apply Z.pow_pos_nonneg; lia).
      assert (H2h : 2 ^ (- e) = 2 * h).
      { unfold h. rewrite <- Z.pow_succ_r by lia. f_equal. lia. }
      rewrite H2h.
      pose proof (Z.div_mod (Zpos p + h) (2 * h) ltac:(lia)) as Hdm.
      pose proof (Z.mod_pos_bound (Zpos p + h) (2 * h) ltac:(lia)) as Hmod.
      set (q := (Zpos p + h) / (2 * h)) in *.
      assert (Hq0 : 0 <= q) by (apply Z.div_pos; lia).
      assert (Hb' : Zpos p <= 2 ^ 23 * (2 * h)).
      { rewrite <- H2h, <- Z.pow_add_r by lia.
        now replace (23 + - e) with (23 - e) by lia. }
      assert (Hq : q <= 2 ^ 23) by nia.
      rewrite to_int_of_int by lia.
      split; [lia|]. subst c. rewrite Z.max_l by lia.
      replace (e + - e) with 0 by lia. rewrite Z.pow_0_r, H2h. lia.
Qed.

(** ** Multiplication *)

(** The product of two positive floats that stays below [2^23] is
    computed with an error of at most 1/4, and the result is not above
    [2^23]. *)
Lemma mul_spec (mv mM : positive) (ev eM : Z) :
  ev + eM <= 23 ->
  Zpos mv * Zpos mM < 2 ^ (23 - (ev + eM)) ->
  exists m3 e3 : Z,
    F32.mul (S754_finite false mv ev) (S754_finite false mM eM)
      = float_of_mantissa false m3 e3 /\
    0 <= m3 /\ e3 <= 23 /\ m3 <= 2 ^ (23 - e3) /\
    (Qabs (inject_Z m3 * 2 ^ e3 - inject_Z (Zpos mv * Zpos mM) * 2 ^ (ev + eM))
     <= 1 # 4)%Q.
Proof.
  intros Hex Hlt. unfold F32.mul, SFmul. cbn [xorb].
  set (ex := ev + eM) in *. set (mx := Zpos (mv * mM)).
  assert (Hmx : mx = Zpos mv * Zpos mM) by reflexivity.
  rewrite <- Hmx in *. assert (Hmx1 : 1 <= mx) by lia. clearbody mx ex.
  assert (Hex22 : ex <= 22).
  { destruct (Z.eq_dec ex 23) as [->|]; [|lia]. cbn in Hlt. lia. }
  assert (Hdg : Zdigits2 mx <= 23 - ex) by (apply Zdigits2_le; lia).
  pose proof (Zdigits2_nonneg mx) as Hdg0.
  destruct (binary_round_aux_spec false mx ex loc_Exact mx 1
              (represents_exact mx ltac:(lia)))
    as (m3 & e3 & Hres & Hm3 & He3 & Herr & Hexact).
  { rewrite fexp32. lia. }
  rewrite fexp32 in He3, Herr, Hexact.
  set (E := Z.max ex (Z.max (Zdigits2 mx + ex - 24) (-149))) in *.
  assert (HE : ex <= E /\ (E = ex \/ E <= -1)) by (unfold E; lia).
  clearbody E. destruct HE as [HEex HE].
  rewrite !Z.mul_1_r, ?Z.mul_1_l in Herr, Hexact.
  exists m3, e3. split; [exact Hres|]. split; [exact Hm3|]. split; [lia|].
  assert (Hu : 0 < 2 ^ (E - ex)) by (apply Z.pow_pos_nonneg; lia).
  assert (Hw : 0 < 2 ^ (e3 - E)) by (apply Z.pow_pos_nonneg; lia).
  assert (Hb : 0 < 2 ^ (23 - e3)) by (apply Z.pow_pos_nonneg; lia).
  assert (H1 : 2 ^ (e3 - ex) = 2 ^ (e3 - E) * 2 ^ (E - ex)).
  { rewrite <- Z.pow_add_r by lia. f_equal. lia. }
  assert (H2 : 2 ^ (23 - ex) = 2 ^ (23 - e3) * 2 ^ (e3 - E) * 2 ^ (E - ex)).
  { rewrite <- !Z.pow_add_r by lia. f_equal. lia. }
  split.
  - rewrite H1 in Herr. rewrite H2 in Hlt.
    set (u := 2 ^ (E - ex)) in *. set (w := 2 ^ (e3 - E)) in *.
    set (b := 2 ^ (23 - e3)) in *. clearbody u w b.
    destruct (Z_le_gt_dec m3 b) as [Hle|Hgt]; [exact Hle | exfalso].
    assert (Hstep : (b + 1) * (w * u) <= m3 * (w * u))
      by (apply Z.mul_le_mono_nonneg_r; nia).
    nia.
  - destruct HE as [->|Hneg].
    + rewrite Z.sub_diag, Z.pow_0_r, Z.mod_1_r in Hexact.
      destruct (Hexact eq_refl) as [Hval _].
      assert (Hq : (inject_Z m3 * 2 ^ e3 == inject_Z mx * 2 ^ ex)%Q).
      { rewrite <- Hval, inject_Z_mult.
        rewrite <- (two_pow_split ex e3) by lia. ring. }
      rewrite Hq. setoid_replace (inject_Z mx * 2 ^ ex - inject_Z mx * 2 ^ ex)%Q
        with 0%Q using relation Qeq by ring.
      discriminate.
    + pose proof (round_error_Q m3 e3 ex E mx 1 ltac:(lia) ltac:(lia) HEex) as HQ.
      rewrite !Z.mul_1_r, Z.mul_1_l in HQ. specialize (HQ Herr).
      assert (Hd1 : (inject_Z mx / inject_Z 1 == inject_Z mx)%Q)
        by (change (inject_Z 1) with 1%Q; field).
      rewrite Hd1 in HQ.
      eapply Qle_trans; [exact HQ|].
      pose proof (two_pow_le E (-1) ltac:(lia)) as Hp.
      change (2 ^ (-1))%Q with (1 # 2)%Q in Hp. lra.
Qed.

(** ** Division *)

Lemma new_location_spec (m r : Z) :
  0 < m -> 0 <= r < m -> new_location m r = loc_of_rem r m.
Proof.
  intros Hm Hr. unfold new_location, new_location_even, new_location_odd, loc_of_rem.
  destruct (Z.even m) eqn:Ev; [reflexivity|].
  destruct (r =? 0); [reflexivity|].
  f_equal.
  assert (Hodd : Z.odd m = true) by (rewrite <- Z.negb_even, Ev; reflexivity).
  apply Z.odd_spec in Hodd. destruct Hodd as [j Hj].
  destruct (Z.compare_spec (2 * r + 1) m) as [H|H|H];
    symmetry; [apply Z.compare_lt_iff | apply Z.compare_lt_iff | apply Z.compare_gt_iff];
    lia.
Qed.

Lemma div_eucl_div_mod (a b : Z) : Z.div_eucl a b = (a / b, a mod b).
Proof. unfold Z.div, Z.modulo. now destruct (Z.div_eucl a b). Qed.

(** The quotient of two positive floats, when below 1, is computed
    with an error of at most [2^-25], at an exponent of at most -23. *)
Lemma div_spec (m1 m2 : positive) (e1 e2 : Z) :
  Zpos m1 * 2 ^ (e1 - Z.min e1 e2) < Zpos m2 * 2 ^ (e2 - Z.min e1 e2) ->
  exists m3 e3 : Z,
    F32.div (S754_finite false m1 e1) (S754_finite false m2 e2)
      = float_of_mantissa false m3 e3 /\
    0 <= m3 /\ e3 <= -23 /\
    (Qabs (inject_Z m3 * 2 ^ e3
           - (inject_Z (Zpos m1) * 2 ^ e1) / (inject_Z (Zpos m2) * 2 ^ e2))
     <= 1 # 33554432)%Q.
Proof.
  intros Hlt. unfold F32.div, SFdiv, SFdiv_core_binary. cbn [xorb].
  rewrite fexp32.
  pose proof (Zdigits2_bounds (Zpos m1) ltac:(lia)) as [Hd1lo Hd1hi].
  pose proof (Zdigits2_bounds (Zpos m2) ltac:(lia)) as [Hd2lo Hd2hi].
  pose proof (Zdigits2_nonneg (Zpos m1)) as Hd1. pose proof (Zdigits2_nonneg (Zpos m2)) as Hd2.
  set (d1 := Zdigits2 (Zpos m1)) in *. set (d2 := Zdigits2 (Zpos m2)) in *.
  set (c := Z.min e1 e2) in *.
  assert (Hc : c <= e1 /\ c <= e2 /\ (c = e1 \/ c = e2)) by (unfold c; lia).
  clearbody c d1 d2.
  assert (Hd11 : 1 <= d1).
  { destruct (Z_le_gt_dec 1 d1) as [H|H]; [exact H|].
    replace d1 with 0 in Hd1hi by lia. cbn in Hd1hi. lia. }
  (* the quotient is below 1, so its exponent is not above 0 *)
  assert (Hdelta : d1 + e1 - (d2 + e2) <= 0).
  { assert (Ha : 2 ^ (d1 - 1 + (e1 - c)) <= Zpos m1 * 2 ^ (e1 - c)).
    { rewrite Z.pow_add_r by lia. apply Z.mul_le_mono_nonneg_r; [apply Z.pow_nonneg|]; lia. }
    assert (Hb : Zpos m2 * 2 ^ (e2 - c) < 2 ^ (d2 + (e2 - c))).
    { rewrite Z.pow_add_r by lia. apply Z.mul_lt_mono_pos_r; [apply Z.pow_pos_nonneg|]; lia. }
    assert (Hp : 2 ^ (d1 - 1 + (e1 - c)) < 2 ^ (d2 + (e2 - c))) by lia.
    apply Z.pow_lt_mono_r_iff in Hp; lia. }
  set (e' := Z.min (Z.max (d1 + e1 - (d2 + e2) - 24) (-149)) (e1 - e2)).
  assert (He' : e' <= -24 /\ e' <= e1 - e2 /\ e' <= c - e2) by (unfold e'; lia).
  clearbody e'. destruct He' as (He'24 & He'12 & He'c).
  set (s := e1 - e2 - e').
  assert (Hs : 0 <= s /\ s = e1 - e2 - e') by (unfold s; lia). clearbody s.
  destruct Hs as [Hs0 Hs].
  set (m' := match s with Z.pos _ => Z.shiftl (Zpos m1) s | Z0 => Zpos m1 | Z.neg _ => 0 end).
  assert (Hm' : m' = Zpos m1 * 2 ^ s).
  { unfold m'.
    destruct s as [|p|p];
      [change (2 ^ 0) with 1; lia | now rewrite Z.shiftl_mul_pow2 by lia | lia]. }
  clearbody m'.
  rewrite div_eucl_div_mod.
  assert (Hps : 0 < 2 ^ s) by (apply Z.pow_pos_nonneg; lia).
  assert (Hm'0 : 0 < m') by (rewrite Hm'; nia).
  (* the integer quotient is below [2^(- e')] *)
  assert (Hm'lt : m' < Zpos m2 * 2 ^ (- e')).
  { assert (Hk : 0 < 2 ^ (c - e2 - e')) by (apply Z.pow_pos_nonneg; lia).
    assert (H1 : m' = Zpos m1 * 2 ^ (e1 - c) * 2 ^ (c - e2 - e')).
    { rewrite Hm', <- Z.mul_assoc, <- Z.pow_add_r by lia. do 2 f_equal. lia. }
    assert (H2 : Zpos m2 * 2 ^ (- e') = Zpos m2 * 2 ^ (e2 - c) * 2 ^ (c - e2 - e')).
    { rewrite <- Z.mul_assoc, <- Z.pow_add_r by lia. do 2 f_equal. lia. }
    rewrite H1, H2. apply Z.mul_lt_mono_pos_r; assumption. }
  assert (Hq : 0 <= m' / Zpos m2 < 2 ^ (- e')).
  { split; [apply Z.div_pos; lia|]. apply Z.div_lt_upper_bound; lia. }
  assert (Hdq : Zdigits2 (m' / Zpos m2) <= - e') by (apply Zdigits2_le; lia).
  pose proof (Zdigits2_nonneg (m' / Zpos m2)) as Hdq0.
  assert (Hrep : represents
            (shr_record_of_loc (m' / Zpos m2) (new_location (Zpos m2) (m' mod Zpos m2)))
            m' (Zpos m2)).
  { repeat split; try lia.
    - now rewrite shr_m_record_of_loc.
    - rewrite loc_of_record_of_loc. apply new_location_spec; [lia|].
      apply Z.mod_pos_bound. lia. }
  destruct (binary_round_aux_spec false (m' / Zpos m2) e' _ m' (Zpos m2) Hrep)
    as (m3 & e3 & Hres & Hm3 & He3 & Herr & _).
  { rewrite fexp32. lia. }
  rewrite fexp32 in He3, Herr.
  set (E := Z.max e' (Z.max (Zdigits2 (m' / Zpos m2) + e' - 24) (-149))) in *.
  assert (HE : e' <= E <= -24) by (unfold E; lia). clearbody E.
  exists m3, e3. split; [exact Hres|]. split; [exact Hm3|]. split; [lia|].
  pose proof (round_error_Q m3 e3 e' E m' (Zpos m2) ltac:(lia) ltac:(lia) ltac:(lia) Herr)
    as HQ.
  assert (Hval : (inject_Z m' / inject_Z (Zpos m2) * 2 ^ e'
                  == inject_Z (Zpos m1) * 2 ^ e1 / (inject_Z (Zpos m2) * 2 ^ e2))%Q).
  { rewrite Hm', inject_Z_mult, Zpower_Qpower by lia. change (inject_Z 2) with 2%Q.
    assert (Hpw : (2 ^ e1 == 2 ^ s * 2 ^ e' * 2 ^ e2)%Q).
    { rewrite <- !Qpower_plus by discriminate. now replace (s + e' + e2) with e1 by lia. }
    rewrite Hpw.
    pose proof (two_pow_pos e2). pose proof (two_pow_pos e').
    assert (0 < inject_Z (Zpos m2))%Q by reflexivity.
    field. split; lra. }
  rewrite Hval in HQ.
  eapply Qle_trans; [exact HQ|].
  pose proof (two_pow_le E (-24) ltac:(lia)) as Hp.
  change (2 ^ (-24))%Q with (1 # 16777216)%Q in Hp.
  setoid_replace (1 # 33554432)%Q with ((1 # 16777216) * (1 # 2))%Q using relation Qeq
    by reflexivity.
  apply Qmult_le_compat_r; [exact Hp | discriminate].
Qed.

(** ** The digit loops *)

Lemma half_pow3_pow (n : nat) : 2 * half_pow3 n + 1 = 3 ^ Z.of_nat n.
Proof.
  induction n as [|n IH]; [reflexivity|].
  rewrite Nat2Z.inj_succ, Z.pow_succ_r by lia. cbn [half_pow3]. lia.
Qed.

Lemma half_pow3_max_val (n : nat) : half_pow3 n = max_val (Z.of_nat n).
Proof.
  unfold max_val. rewrite <- half_pow3_pow.
  replace (2 * half_pow3 n + 1 - 1) with (half_pow3 n * 2) by lia.
  now rewrite Z.div_mul by lia.
Qed.

Lemma half_pow3_nonneg (n : nat) : 0 <= half_pow3 n.
Proof. induction n; cbn [half_pow3]; lia. Qed.

Lemma half_pow3_mono (n m : nat) : (n <= m)%nat -> half_pow3 n <= half_pow3 m.
Proof.
  induction 1 as [|m _ IH]; [lia|].
  pose proof (half_pow3_nonneg m). cbn [half_pow3]. lia.
Qed.

Lemma nth_insert_eq (l : list Z) (i : nat) (x : Z) :
  (i < length l)%nat -> nth i (<[i := x]> l) 0 = x.
Proof.
  revert i. induction l as [|y l IH]; intros [|i] H; cbn in *; try lia; auto.
  apply IH. lia.
Qed.

Lemma nth_insert_ne (l : list Z) (i j : nat) (x : Z) :
  i <> j -> nth j (<[i := x]> l) 0 = nth j l 0.
Proof.
  revert i j. induction l as [|y l IH]; intros [|i] [|j] H; cbn; try lia; auto.
Qed.

(** The digit loop started at index [i] leaves the slots below [i]. *)
Lemma ternary_loop_below (fuel : nat) : forall (i j : nat) (k : Z) (a : list Z),
  (j < i)%nat -> nth j (ternary_loop fuel i k a) 0 = nth j a 0.
Proof.
  induction fuel as [|fuel IH]; intros i j k a Hj; cbn [ternary_loop]; [reflexivity|].
  repeat match goal with |- context [if ?b then _ else _] => destruct b end;
    rewrite IH by lia; apply nth_insert_ne; lia.
Qed.

(** One step of the digit loop on a non-negative [k]: the trit [t]
    written and the next [k'] satisfy [k = 3 * k' + t]. *)
Lemma ternary_step (k : Z) :
  0 <= k <= INT_MAX - 1 ->
  let rem := Z.rem k 3 in
  (k <? 0) && negb (rem =? 0) = false /\
  ((rem = 0 /\ k = 3 * wrap32 (Z.quot k 3) /\ 0 <= wrap32 (Z.quot k 3)) \/
   (rem = 1 /\ k = 3 * wrap32 (Z.quot k 3) + 1 /\ 0 <= wrap32 (Z.quot k 3)) \/
   (rem = 2 /\ k = 3 * wrap32 (Z.quot (wrap32 (k + 1)) 3) - 1 /\
    0 <= wrap32 (Z.quot (wrap32 (k + 1)) 3))).
Proof.
  intros Hk rem. unfold INT_MAX in Hk.
  pose proof (Z.rem_bound_pos k 3 ltac:(lia) ltac:(lia)) as Hr.
  pose proof (Z.quot_rem' k 3) as Hqr. fold rem in Hr, Hqr.
  assert (Hq : 0 <= Z.quot k 3 <= k) by lia.
  split.
  - replace (k <? 0) with false; [reflexivity|]. symmetry. apply Z.ltb_ge. lia.
  - rewrite (wrap32_small (Z.quot k 3)) by (unfold INT_MIN, INT_MAX; lia).
    rewrite (wrap32_small (k + 1)) by (unfold INT_MIN, INT_MAX; lia).
    pose proof (Z.rem_bound_pos (k + 1) 3 ltac:(lia) ltac:(lia)) as Hr1.
    pose proof (Z.quot_rem' (k + 1) 3) as Hqr1.
    assert (Hq1 : 0 <= Z.quot (k + 1) 3 <= k + 1) by lia.
    rewrite (wrap32_small (Z.quot (k + 1) 3)) by (unfold INT_MIN, INT_MAX; lia).
    assert (Hc : rem = 0 \/ rem = 1 \/ rem = 2) by lia.
    destruct Hc as [H|[H|H]]; [left | right; left | right; right]; repeat split; try lia.
Qed.

(** Encoding a non-negative [k] of at most [half_pow3 fuel] and
    weighing the trits back gives [k]: no wrap-around occurs as long
    as the final power fits [int]. *)
Lemma digit_loops_roundtrip (fuel : nat) : forall (i : nat) (k : Z) (a : list Z) (v p : Z),
  0 <= k <= half_pow3 fuel ->
  (i + fuel <= length a)%nat ->
  0 < p ->
  Z.abs v + p * half_pow3 fuel <= INT_MAX ->
  p * (2 * half_pow3 fuel + 1) <= INT_MAX ->
  weigh_loop fuel i (ternary_loop fuel i k a) v p
    = (v + p * k, p * (2 * half_pow3 fuel + 1)).
Proof.
  induction fuel as [|fuel IH]; intros i k a v p Hk Hlen Hp Hv Hpw.
  - cbn in *. f_equal; lia.
  - pose proof (half_pow3_nonneg fuel) as Hh.
    cbn [half_pow3] in *.
    destruct (ternary_step k) as [Hneg Hcases]; [unfold INT_MAX in *; nia|].
    cbn [ternary_loop weigh_loop]. rewrite Hneg.
    assert (Hw3 : wrap32 (p * 3) = 3 * p)
      by (rewrite wrap32_small by (unfold INT_MIN, INT_MAX in *; nia); lia).
    assert (Hstep : forall t k', t = -1 \/ t = 0 \/ t = 1 ->
              k = 3 * k' + t -> 0 <= k' ->
              weigh_loop fuel (S i) (ternary_loop fuel (S i) k' (<[i := t]> a))
                (wrap32 (v + wrap32
                   (nth i (ternary_loop fuel (S i) k' (<[i := t]> a)) 0 * p)))
                (wrap32 (p * 3))
              = (v + p * k, p * (2 * (3 * half_pow3 fuel + 1) + 1))).
    { intros t k' Ht Hkt Hk'.
      rewrite ternary_loop_below by lia. rewrite nth_insert_eq by lia.
      rewrite (wrap32_small (t * p)) by (unfold INT_MIN, INT_MAX in *; nia).
      rewrite (wrap32_small (v + t * p)) by (unfold INT_MIN, INT_MAX in *; nia).
      rewrite Hw3.
      rewrite IH; [f_equal; nia | try lia; try nia; rewrite length_insert; lia ..]. }
    destruct Hcases as [(Hr & Hkk & Hk')|[(Hr & Hkk & Hk')|(Hr & Hkk & Hk')]];
      rewrite Hr; cbn [Z.eqb Pos.eqb].
    + apply Hstep; lia.
    + apply Hstep; lia.
    + change (to_int8 (-1)) with (-1). apply Hstep; lia.
Qed.

Lemma pow3_loop_exact (fuel : nat) : forall p : Z,
  0 < p -> p * (2 * half_pow3 fuel + 1) <= INT_MAX ->
  pow3_loop fuel p = p * (2 * half_pow3 fuel + 1).
Proof.
  induction fuel as [|fuel IH]; intros p Hp Hb; cbn [pow3_loop half_pow3] in *; [lia|].
  pose proof (half_pow3_nonneg fuel).
  rewrite wrap32_small by (unfold INT_MIN, INT_MAX in *; nia).
  rewrite IH; nia.
Qed.

Lemma encode_max_val_half_pow3 (n : nat) :
  2 * half_pow3 n + 1 <= INT_MAX -> encode_max_val (Z.of_nat n) = half_pow3 n.
Proof.
  intros Hb. unfold encode_max_val. rewrite Nat2Z.id.
  rewrite pow3_loop_exact by lia.
  pose proof (half_pow3_nonneg n).
  replace (1 * (2 * half_pow3 n + 1) - 1) with (half_pow3 n * 2) by lia.
  rewrite (wrap32_small (half_pow3 n * 2)) by (unfold INT_MIN, INT_MAX in *; lia).
  rewrite Z.quot_mul by lia.
  apply wrap32_small. unfold INT_MIN, INT_MAX in *. lia.
Qed.

(** ** The scalar round trip on [0, 1] *)

(** A well-formed float in [0, 1] is a zero or a positive finite float
    [m * 2^e] with [m <= 2^(-e)]; [clamp] leaves it as it is. *)
Lemma unit_float_cases (v : F32.float) :
  F32.valid v = true -> F32.leb F32.zero v = true -> F32.leb v F32.one = true ->
  clamp v = v /\
  ((exists s, v = S754_zero s) \/
   (exists (m : positive) (e : Z),
      v = S754_finite false m e /\ e <= -23 /\ Zpos m <= 2 ^ (- e))).
Proof.
  unfold clamp. rewrite one_val, minus_one_val.
  unfold F32.valid, F32.leb, F32.ltb, F32.zero, SFleb, SFltb.
  destruct v as [s|s| |s m e]; cbv [SFcompare valid_binary]; try discriminate.
  - intros _ _ _. split; [reflexivity|]. left. now exists s.
  - destruct s; discriminate.
  - destruct s; try discriminate. intros Hvalid _ Hle.
    unfold bounded, canonical_mantissa in Hvalid.
    apply andb_true_iff in Hvalid. destruct Hvalid as [Hcanon _].
    apply Z.eqb_eq in Hcanon. rewrite fexp32 in Hcanon.
    pose proof (digits2_pos_bounds m) as [_ Hhi].
    assert (Hm24 : Zpos m < 2 ^ 24).
    { assert (2 ^ Zpos (digits2_pos m) <= 2 ^ 24) by (apply Z.pow_le_mono_r; lia). lia. }
    rewrite (Z.compare_antisym e (-23)).
    destruct (Z.compare_spec e (-23)) as [->|Hlt|Hgt]; cbn [CompOpp]; try discriminate.
    + rewrite !Pos.compare_cont_spec in *. cbn [Pos.switch_Eq] in *.
      rewrite (Pos.compare_antisym m 8388608).
      change (2 ^ (- -23)) with 8388608.
      destruct (Pos.compare_spec m 8388608) as [Hm|Hm|Hm]; cbn [CompOpp].
      * split; [reflexivity|]. right. exists m, (-23).
        split; [reflexivity|]. split; [apply Z.le_refl|].
        change (2 ^ (- -23)) with 8388608. rewrite Hm. reflexivity.
      * split; [reflexivity|]. right. exists m, (-23).
        split; [reflexivity|]. split; [apply Z.le_refl|].
        change (2 ^ (- -23)) with 8388608. apply Pos2Z.pos_lt_pos in Hm.
        apply Z.lt_le_incl. exact Hm.
      * discriminate Hle.
    + split; [reflexivity|]. right. exists m, e. repeat split; try lia.
      assert (2 ^ 24 <= 2 ^ (- e)) by (apply Z.pow_le_mono_r; lia). lia.
Qed.

Local Open Scope Q_scope.

Lemma of_int_value (z : Z) :
  (0 < z < 2 ^ 24)%Z ->
  exists (m : positive) (e : Z),
    F32.of_int z = S754_finite false m e /\ (e <= 0)%Z /\
    Zpos m = (z * 2 ^ (- e))%Z /\
    inject_Z (Zpos m) * 2 ^ e == inject_Z z.
Proof.
  intros Hz. destruct (of_int_exact z Hz) as (m & Hof & Hdg & Hm).
  exists m, (Zdigits2 z - 24)%Z. split; [exact Hof|]. split; [lia|].
  replace (- (Zdigits2 z - 24))%Z with (24 - Zdigits2 z)%Z by lia.
  split; [exact Hm|].
  rewrite Hm, inject_Z_mult.
  replace (24 - Zdigits2 z)%Z with (0 - (Zdigits2 z - 24))%Z by lia.
  rewrite <- Qmult_assoc, two_pow_split by lia.
  change (2 ^ 0) with 1. ring.
Qed.

(** Scaling a float [m * 2^e] of (0, 1] by [max_val] and rounding:
    the integer [k] obtained is in [0, M] and within 3/4 of the
    product. *)
Lemma quantise_mantissa (mv : positive) (ev M : Z) :
  (ev <= -23)%Z -> (Zpos mv <= 2 ^ (- ev))%Z ->
  (1 <= M < 2 ^ 23)%Z ->
  let k := F32.to_int (F32.roundf (F32.mul (S754_finite false mv ev) (F32.of_int M))) in
  (0 <= k <= M)%Z /\
  Qabs (inject_Z k - F32.F2Q (S754_finite false mv ev) * inject_Z M) <= 3 # 4.
Proof.
  intros Hev Hmv HM k.
  destruct (of_int_value M ltac:(lia)) as (mM & eM & HofM & HeM & HmM & HMq).
  subst k. rewrite HofM.
  assert (Hpv : (0 < 2 ^ (- ev))%Z) by (apply Z.pow_pos_nonneg; lia).
  assert (HpM : (0 < 2 ^ (- eM))%Z) by (apply Z.pow_pos_nonneg; lia).
  assert (Hprod : (Zpos mv * Zpos mM < 2 ^ (23 - (ev + eM)))%Z).
  { replace (23 - (ev + eM))%Z with (- ev + (23 + - eM))%Z by lia.
    rewrite !Z.pow_add_r by lia. rewrite HmM.
    assert (M * 2 ^ (- eM) < 2 ^ 23 * 2 ^ (- eM))%Z
      by (apply Z.mul_lt_mono_pos_r; lia).
    nia. }
  destruct (mul_spec mv mM ev eM ltac:(lia) Hprod)
    as (m3 & e3 & Hmul & Hm3 & He3 & Hb3 & HerrP).
  rewrite Hmul.
  destruct (roundf_to_int m3 e3 Hm3 He3 Hb3) as [Hk Herrk].
  set (k := F32.to_int (F32.roundf (float_of_mantissa false m3 e3))) in *.
  clearbody k.
  (* the two errors on the rationals *)
  set (c := Z.max (- e3) 0) in *.
  assert (HQk : Qabs (inject_Z k - inject_Z m3 * 2 ^ e3) <= 1 # 2).
  { pose proof (round_error_Q k 0 (- c) 0 (m3 * 2 ^ (e3 + c)) 1
                  ltac:(lia) ltac:(unfold c; lia) ltac:(unfold c; lia)) as HQ.
    replace (0 - - c)%Z with c in HQ by lia. rewrite Z.mul_1_r, Z.mul_1_l in HQ.
    specialize (HQ Herrk).
    assert (Hv : inject_Z (m3 * 2 ^ (e3 + c)) / inject_Z 1 * 2 ^ (- c)
                 == inject_Z m3 * 2 ^ e3).
    { rewrite inject_Z_mult. change (inject_Z 1) with 1.
      replace (e3 + c)%Z with (e3 - - c)%Z by lia.
      rewrite <- (two_pow_split (- c) e3) by (unfold c; lia). field. }
    rewrite Hv in HQ. change (2 ^ 0) with 1 in HQ.
    eapply Qle_trans; [|exact (Qle_refl (1 # 2))].
    setoid_replace (inject_Z k - inject_Z m3 * 2 ^ e3)
      with (inject_Z k * 1 - inject_Z m3 * 2 ^ e3) using relation Qeq by ring.
    eapply Qle_trans; [exact HQ|]. discriminate. }
  assert (HX : inject_Z (Zpos mv * Zpos mM) * 2 ^ (ev + eM)
               == F32.F2Q (S754_finite false mv ev) * inject_Z M).
  { cbn [F32.F2Q cond_Zopp]. rewrite <- HMq, inject_Z_mult.
    rewrite Qpower_plus by discriminate. ring. }
  rewrite HX in HerrP.
  set (V := F32.F2Q (S754_finite false mv ev)) in *.
  assert (HV1 : V <= 1).
  { unfold V. cbn [F32.F2Q cond_Zopp].
    assert (Hle : inject_Z (Zpos mv) <= inject_Z (2 ^ (0 - ev)))
      by (rewrite <- Zle_Qle; now replace (0 - ev)%Z with (- ev)%Z by lia).
    pose proof (two_pow_pos ev) as Hpe.
    apply (Qmult_le_compat_r _ _ (2 ^ ev)) in Hle; [|lra].
    rewrite two_pow_split in Hle by lia. exact Hle. }
  assert (HMpos : 1 <= inject_Z M)
    by (change 1 with (inject_Z 1); rewrite <- Zle_Qle; lia).
  apply Qabs_Qle_condition in HQk. apply Qabs_Qle_condition in HerrP.
  set (P := inject_Z m3 * 2 ^ e3) in *.
  assert (HkQ : Qabs (inject_Z k - V * inject_Z M) <= 3 # 4)
    by (apply Qabs_Qle_condition; lra).
  split; [|exact HkQ].
  split; [lia|].
  apply Qabs_Qle_condition in HkQ.
  assert (Hlt : inject_Z k < inject_Z (M + 1)).
  { rewrite inject_Z_plus. change (inject_Z 1) with 1. nra. }
  rewrite <- Zlt_Qlt in Hlt. lia.
Qed.

(** Scaling by [max_val] and rounding: the integer [k] obtained is in
    [0, M] and within 3/4 of [value * M]. *)
Lemma quantise (v : F32.float) (M : Z) :
  F32.valid v = true -> F32.leb F32.zero v = true -> F32.leb v F32.one = true ->
  (1 <= M < 2 ^ 23)%Z ->
  let k := F32.to_int (F32.roundf (F32.mul v (F32.of_int M))) in
  (0 <= k <= M)%Z /\
  Qabs (inject_Z k - F32.F2Q v * inject_Z M) <= 3 # 4.
Proof.
  intros Hvalid H0 H1 HM k.
  destruct (unit_float_cases v Hvalid H0 H1) as [_ [[s ->]|(mv & ev & -> & Hev & Hmv)]].
  - destruct (of_int_value M ltac:(lia)) as (mM & eM & HofM & _).
    subst k. rewrite HofM. cbn. split; [lia|]. discriminate.
  - apply quantise_mantissa; assumption.
Qed.

Lemma div_self (m : positive) (e : Z) :
  F32.div (S754_finite false m e) (S754_finite false m e) = F32.one.
Proof.
  unfold F32.div, SFdiv, SFdiv_core_binary. cbn [xorb].
  replace (Zdigits2 (Zpos m) + e - (Zdigits2 (Zpos m) + e))%Z with 0%Z by lia.
  replace (e - e)%Z with 0%Z by lia.
  change (Z.min (fexp F32.prec F32.emax 0) 0) with (-24)%Z.
  change (0 - -24)%Z with 24%Z. cbv iota beta.
  rewrite div_eucl_div_mod, Z.shiftl_mul_pow2 by lia.
  rewrite Z.mul_comm, Z.div_mul, Z.mod_mul by lia.
  replace (new_location (Zpos m) 0) with loc_Exact
    by (unfold new_location; destruct (Z.even (Zpos m)); reflexivity).
  vm_compute. reflexivity.
Qed.

(** Dividing the integer by [max_val] in binary32: the quotient is
    within [2^-25] of [k / M]. *)
Lemma dequantise (k M : Z) :
  (0 <= k <= M)%Z -> (1 <= M < 2 ^ 24)%Z ->
  Qabs (F32.F2Q (F32.div (F32.of_int k) (F32.of_int M)) - inject_Z k / inject_Z M)
  <= 1 # 33554432.
Proof.
  intros Hk HM.
  assert (HMq : 0 < inject_Z M) by (change 0 with (inject_Z 0); rewrite <- Zlt_Qlt; lia).
  destruct (of_int_value M ltac:(lia)) as (mM & eM & HofM & HeM & HmM & HMv).
  destruct (Z.eq_dec k 0%Z) as [->|Hk0]; [|destruct (Z.eq_dec k M) as [->|HkM]].
  - rewrite HofM. cbn.
    setoid_replace (0 - 0 / inject_Z M) with 0 using relation Qeq by (field; lra).
    discriminate.
  - rewrite HofM, div_self.
    setoid_replace (F32.F2Q F32.one - inject_Z M / inject_Z M) with 0
      using relation Qeq; [discriminate|].
    assert (H1 : F32.F2Q F32.one == 1) by (vm_compute; reflexivity).
    rewrite H1. field. lra.
  - destruct (of_int_value k ltac:(lia)) as (mk & ek & Hofk & Hek & Hmk & Hkv).
    rewrite Hofk, HofM.
    destruct (div_spec mk mM ek eM) as (m3 & e3 & Hdiv & Hm3 & _ & Herr).
    { set (c := Z.min ek eM).
      assert (Hc : (c <= ek /\ c <= eM)%Z) by (unfold c; lia). clearbody c.
      rewrite Hmk, HmM, <- !Z.mul_assoc, <- !Z.pow_add_r by lia.
      replace (- ek + (ek - c))%Z with (- c)%Z by lia.
      replace (- eM + (eM - c))%Z with (- c)%Z by lia.
      apply Z.mul_lt_mono_pos_r; [apply Z.pow_pos_nonneg|]; lia. }
    rewrite Hdiv, F2Q_of_mantissa by exact Hm3.
    rewrite Hkv, HMv in Herr. exact Herr.
Qed.

(** C1, as the code has it.  For [1 <= n <= 15] and every well-formed
    binary32 [value] in [0, 1], encoding [value] with [n] trits into an
    array of at least [n] slots and decoding it gives a float within
    [1 / max_val n] of [value], [max_val n = (3^n - 1) / 2]. *)
Theorem scalar_roundtrip_accuracy (n : Z) (value : F32.float) (a : list Z) :
  (1 <= n <= 15)%Z ->
  F32.valid value = true ->
  F32.leb F32.zero value = true ->
  F32.leb value F32.one = true ->
  (Z.to_nat n <= length a)%nat ->
  roundtrip_within_step value a n.
Proof.
  intros Hn Hvalid H0 H1 Hlen.
  set (f := Z.to_nat n).
  assert (Hnf : n = Z.of_nat f) by (unfold f; lia).
  assert (Hf : (1 <= f <= 15)%nat) by lia.
  set (M := half_pow3 f).
  assert (HM : (1 <= M <= 7174453)%Z).
  { split.
    - change 1%Z with (half_pow3 1). apply half_pow3_mono. lia.
    - change 7174453%Z with (half_pow3 15). apply half_pow3_mono. lia. }
  assert (Hmax : max_val n = M) by (rewrite Hnf; symmetry; apply half_pow3_max_val).
  assert (Henc : encode_max_val n = M).
  { rewrite Hnf. apply encode_max_val_half_pow3. fold M. unfold INT_MAX. lia. }
  unfold roundtrip_within_step, scalar_roundtrip, float_to_balanced_ternary.
  replace (n <=? 0)%Z with false by (symmetry; apply Z.leb_gt; lia).
  destruct (unit_float_cases value Hvalid H0 H1) as [Hclamp _].
  rewrite Hclamp, Henc, Hmax. cbn [snd].
  destruct (quantise value M Hvalid H0 H1 ltac:(lia)) as [Hk HkQ].
  set (k := F32.to_int (F32.roundf (F32.mul value (F32.of_int M)))) in *.
  clearbody k.
  unfold balanced_ternary_to_float.
  replace (n <=? 0)%Z with false by (symmetry; apply Z.leb_gt; lia).
  rewrite decode_max_val_encode, Henc. fold f.
  rewrite (digit_loops_roundtrip f 0 k a 0 1); fold M;
    try (unfold INT_MAX; lia); try lia.
  cbn [fst]. replace (0 + 1 * k)%Z with k by lia.
  pose proof (dequantise k M Hk ltac:(lia)) as HY.
  set (Y := F32.F2Q (F32.div (F32.of_int k) (F32.of_int M))) in *.
  set (V := F32.F2Q value) in *.
  assert (HMq1 : 1 <= inject_Z M)
    by (change 1 with (inject_Z 1); rewrite <- Zle_Qle; lia).
  assert (HMq2 : inject_Z M <= 8388608)
    by (change 8388608 with (inject_Z 8388608); rewrite <- Zle_Qle; lia).
  apply Qle_shift_div_l; [lra|].
  assert (Hr : inject_Z k / inject_Z M * inject_Z M == inject_Z k) by (field; lra).
  set (r := inject_Z k / inject_Z M) in *.
  apply Qabs_Qle_condition in HY. apply Qabs_Qle_condition in HkQ.
  assert (Habs : Qabs (Y - V) * inject_Z M == Qabs ((Y - V) * inject_Z M)).
  { rewrite Qabs_Qmult. rewrite (Qabs_pos (inject_Z M)) by lra. reflexivity. }
  rewrite Habs. apply Qabs_Qle_condition.
  set (Mq := inject_Z M) in *. set (K := inject_Z k) in *.
  split; nra.
Qed.

Local Open Scope Z_scope.

Lemma scalar_roundtrip_accuracy_witness :
  roundtrip_within_step (F32.lit 33 100) (repeat 0 8) 8.
Proof.
  apply (scalar_roundtrip_accuracy 8 (F32.lit 33 100) (repeat 0 8)).
  - lia.
  - vm_compute. reflexivity.
  - vm_compute. reflexivity.
  - vm_compute. reflexivity.
  - simpl. lia.
Defined.

(** The bound 15 on the number of trits cannot be raised: from 16 to
    20 trits there are values of [0, 1] whose round trip is more than
    one step away. *)
Lemma scalar_roundtrip_fails_from_16 :
  ~ roundtrip_within_step (S754_finite false 13684742 (-24)) (repeat 0 16) 16 /\
  ~ roundtrip_within_step (S754_finite false 16511784 (-24)) (repeat 0 17) 17 /\
  ~ roundtrip_within_step (S754_finite false 14850638 (-24)) (repeat 0 18) 18 /\
  ~ roundtrip_within_step (S754_finite false 15885983 (-24)) (repeat 0 19) 19 /\
  ~ roundtrip_within_step (S754_finite false 12106066 (-24)) (repeat 0 20) 20.
Proof.
  repeat split; unfold roundtrip_within_step; vm_compute; intros H; apply H; reflexivity.
Qed.

(** ** The digit loop, trit by trit *)

Lemma ternary_loop_unfold (fuel : nat) (i : nat) (k : Z) (a : list Z) :
  ternary_loop (S fuel) i k a
    = ternary_loop fuel (S i) (snd (digit_step k)) (<[i := fst (digit_step k)]> a).
Proof.
  cbn [ternary_loop]. unfold digit_step.
  repeat match goal with |- context [if ?b then _ else _] => destruct b end; reflexivity.
Qed.

Lemma digits_length (fuel : nat) : forall k, length (digits fuel k) = fuel.
Proof. induction fuel as [|fuel IH]; intros k; cbn; [reflexivity|]. now rewrite IH. Qed.

Lemma digit_step_trit (k : Z) : is_trit (fst (digit_step k)).
Proof.
  unfold digit_step, is_trit.
  repeat match goal with |- context [if ?b then _ else _] => destruct b end;
    cbn; auto.
Qed.

Lemma digits_trits (fuel : nat) : forall k, Forall is_trit (digits fuel k).
Proof.
  induction fuel as [|fuel IH]; intros k; cbn [digits]; constructor.
  - apply digit_step_trit.
  - apply IH.
Qed.

Lemma ternary_loop_len (fuel : nat) : forall (i : nat) (k : Z) (a : list Z),
  length (ternary_loop fuel i k a) = length a.
Proof.
  induction fuel as [|fuel IH]; intros i k a; [reflexivity|].
  rewrite ternary_loop_unfold, IH. apply length_insert.
Qed.

(** The slots from [i] on hold the trits of [digits]. *)
Lemma ternary_loop_at (fuel : nat) : forall (i j : nat) (k : Z) (a : list Z),
  (i + fuel <= length a)%nat -> (j < fuel)%nat ->
  nth (i + j) (ternary_loop fuel i k a) 0 = nth j (digits fuel k) 0.
Proof.
  induction fuel as [|fuel IH]; intros i j k a Hlen Hj; [lia|].
  rewrite ternary_loop_unfold. cbn [digits].
  destruct j as [|j].
  - rewrite Nat.add_0_r, ternary_loop_below by lia.
    cbn [nth]. apply nth_insert_eq. lia.
  - replace (i + S j)%nat with (S i + j)%nat by lia. cbn [nth].
    apply IH; [rewrite length_insert|]; lia.
Qed.

(** The slots past the last trit are left as they were. *)
Lemma ternary_loop_above (fuel : nat) : forall (i j : nat) (k : Z) (a : list Z),
  (i + fuel <= j)%nat -> nth j (ternary_loop fuel i k a) 0 = nth j a 0.
Proof.
  induction fuel as [|fuel IH]; intros i j k a Hj; [reflexivity|].
  rewrite ternary_loop_unfold, IH by lia. apply nth_insert_ne. lia.
Qed.

Lemma nth_is_trit (ts : list Z) (j : nat) : Forall is_trit ts -> is_trit (nth j ts 0).
Proof.
  intros H. revert j. induction H as [|t ts Ht _ IH]; intros [|j]; cbn;
    auto; unfold is_trit; auto.
Qed.

(** [weigh_loop] reads the slots [i .. i + fuel - 1] only. *)
Lemma weigh_loop_ext (fuel : nat) : forall (i : nat) (a b : list Z) (v p : Z),
  (forall j, (i <= j < i + fuel)%nat -> nth j a 0 = nth j b 0) ->
  weigh_loop fuel i a v p = weigh_loop fuel i b v p.
Proof.
  induction fuel as [|fuel IH]; intros i a b v p H; [reflexivity|].
  cbn [weigh_loop]. rewrite (H i) by lia. apply IH. intros j Hj. apply H. lia.
Qed.

Lemma balanced_ternary_to_float_ext (a b : list Z) (n : Z) :
  (forall j, (j < Z.to_nat n)%nat -> nth j a 0 = nth j b 0) ->
  balanced_ternary_to_float (Some a) n = balanced_ternary_to_float (Some b) n.
Proof.
  intros H. unfold balanced_ternary_to_float.
  destruct (n <=? 0); [reflexivity|].
  rewrite !decode_max_val_encode.
  rewrite (weigh_loop_ext (Z.to_nat n) 0 a b 0 1); [reflexivity|].
  intros j Hj. apply H. lia.
Qed.

Lemma float_to_balanced_ternary_trits (value : F32.float) (a : list Z) (n : Z) :
  0 < n ->
  float_to_balanced_ternary value (Some a) n
    = (0, Some (ternary_loop (Z.to_nat n) 0 (quantised value n) a)).
Proof.
  intros Hn. unfold float_to_balanced_ternary, quantised.
  replace (n <=? 0) with false by (symmetry; apply Z.leb_gt; lia). reflexivity.
Qed.

(** The round trip of a value through any array is the decoding of
    its element trits. *)
Lemma scalar_roundtrip_element (value : F32.float) (a : list Z) (n : Z) :
  0 < n -> (Z.to_nat n <= length a)%nat ->
  scalar_roundtrip value a n
    = balanced_ternary_to_float (Some (element_trits n value)) n.
Proof.
  intros Hn Hlen. unfold scalar_roundtrip.
  rewrite float_to_balanced_ternary_trits by exact Hn. cbn [snd].
  apply balanced_ternary_to_float_ext. intros j Hj.
  apply (ternary_loop_at (Z.to_nat n) 0 j); lia.
Qed.

(** X1.  On a non-null array of at least [num_trits > 0] slots
    [float_to_balanced_ternary] returns 0 for every float (a NaN or an
    infinity included), writes a trit of {-1, 0, +1} to each of the
    first [num_trits] slots and leaves the other slots and the length
    of the array as they were. *)
Theorem encode_writes_trits (value : F32.float) (a : list Z) (n : Z) :
  0 < n -> (Z.to_nat n <= length a)%nat ->
  exists a',
    float_to_balanced_ternary value (Some a) n = (0, Some a') /\
    length a' = length a /\
    (forall j, (j < Z.to_nat n)%nat -> is_trit (nth j a' 0)) /\
    (forall j, (Z.to_nat n <= j)%nat -> nth j a' 0 = nth j a 0).
Proof.
  intros Hn Hlen. eexists. split; [apply float_to_balanced_ternary_trits, Hn|].
  split; [apply ternary_loop_len|]. split.
  - intros j Hj.
    rewrite (ternary_loop_at (Z.to_nat n) 0 j) by lia.
    apply nth_is_trit, digits_trits.
  - intros j Hj. apply ternary_loop_above. lia.
Qed.

Lemma encode_writes_trits_witness :
  exists a',
    float_to_balanced_ternary S754_nan (Some [7; 7; 7; 7; 7]) 3 = (0, Some a') /\
    length a' = length [7; 7; 7; 7; 7] /\
    (forall j, (j < Z.to_nat 3)%nat -> is_trit (nth j a' 0)) /\
    (forall j, (Z.to_nat 3 <= j)%nat -> nth j a' 0 = nth j [7; 7; 7; 7; 7] 0).
Proof.
  apply (encode_writes_trits S754_nan [7; 7; 7; 7; 7] 3).
  - lia.
  - simpl. lia.
Defined.

(** X2.  The decoded round trip of a value does not depend on what
    the trit array held before, nor on its length beyond [num_trits]. *)
Theorem roundtrip_ignores_array_content (value : F32.float) (a b : list Z) (n : Z) :
  0 < n -> (Z.to_nat n <= length a)%nat -> (Z.to_nat n <= length b)%nat ->
  scalar_roundtrip value a n = scalar_roundtrip value b n.
Proof.
  intros Hn Ha Hb. now rewrite !scalar_roundtrip_element.
Qed.

Lemma roundtrip_ignores_array_content_witness :
  scalar_roundtrip (F32.lit 1 3) [1; 1; 1; 1] 4
    = scalar_roundtrip (F32.lit 1 3) [0; -1; 0; 1; 9; 9] 4.
Proof.
  apply (roundtrip_ignores_array_content (F32.lit 1 3) [1; 1; 1; 1] [0; -1; 0; 1; 9; 9] 4).
  - lia.
  - simpl. lia.
  - simpl. lia.
Defined.

(** ** The encoder writes the packed trit stream *)

Lemma memset0_length (n : nat) : forall p : list Z, length (memset0 n p) = length p.
Proof.
  induction n as [|n IH]; intros [|x p]; cbn; auto.
Qed.

Lemma memset0_nth (n : nat) : forall (p : list Z) (b : nat),
  nth b (memset0 n p) 0 = if (b <? n)%nat then 0 else nth b p 0.
Proof.
  induction n as [|n IH]; intros p b.
  - destruct p; reflexivity.
  - destruct p as [|x p]; cbn [memset0].
    + destruct b as [|b]; cbn [nth]; [reflexivity|].
      now destruct (S b <? S n)%nat.
    + destruct b as [|b]; cbn [nth]; [reflexivity|].
      rewrite IH. reflexivity.
Qed.

Lemma pad_loop_length (fuel : nat) : forall (tb : list Z) (pos : Z),
  length (pad_loop fuel tb pos) = length tb.
Proof.
  induction fuel as [|fuel IH]; intros tb pos; cbn [pad_loop]; [reflexivity|].
  destruct (pos <? 5); [|reflexivity]. rewrite IH. apply length_insert.
Qed.

(** The padding loop zeroes the slots from [pos] on. *)
Lemma pad_loop_nth (fuel : nat) : forall (tb : list Z) (pos : Z) (j : nat),
  0 <= pos -> 5 <= pos + Z.of_nat fuel -> length tb = 5%nat -> (j < 5)%nat ->
  nth j (pad_loop fuel tb pos) 0 = if Z.of_nat j <? pos then nth j tb 0 else 0.
Proof.
  induction fuel as [|fuel IH]; intros tb pos j Hpos Hf Hlen Hj; cbn [pad_loop].
  - replace (Z.of_nat j <? pos) with true by (symmetry; apply Z.ltb_lt; lia).
    reflexivity.
  - destruct (pos <? 5) eqn:H5.
    + apply Z.ltb_lt in H5.
      rewrite wrap32_small by (unfold INT_MIN, INT_MAX; lia).
      rewrite IH by (rewrite ?length_insert; lia).
      destruct (Z.of_nat j <? pos) eqn:Hjp.
      * apply Z.ltb_lt in Hjp.
        replace (Z.of_nat j <? pos + 1) with true by (symmetry; apply Z.ltb_lt; lia).
        apply nth_insert_ne. lia.
      * apply Z.ltb_ge in Hjp.
        destruct (Z.of_nat j <? pos + 1) eqn:Hjp1; [|reflexivity].
        apply Z.ltb_lt in Hjp1.
        replace (Z.to_nat pos) with j by lia. apply nth_insert_eq. lia.
    + apply Z.ltb_ge in H5.
      replace (Z.of_nat j <? pos) with true by (symmetry; apply Z.ltb_lt; lia).
      reflexivity.
Qed.

Lemma stream_byte_app (s ts : list Z) (b : nat) :
  (5 * b + 4 < length s)%nat -> stream_byte (s ++ ts) b = stream_byte s b.
Proof.
  intros H. unfold stream_byte. now rewrite !app_nth1 by lia.
Qed.

Lemma enc_step_spec (p0 s : list Z) (j : nat) (st : enc_state) :
  enc_inv p0 s st ->
  (length s < 5 * length p0)%nat ->
  Z.of_nat (length s) < SIZE_MOD ->
  enc_inv p0 (s ++ [nth j (e_trits st) 0]) (enc_step j st) /\
  e_trits (enc_step j st) = e_trits st.
Proof.
  intros (q & r & Hlen & Hr & Hpos & Hidx & Hbl & Hbuf & Hpl & Hlow & Hhigh) Hroom Hsz.
  set (t := nth j (e_trits st) 0).
  unfold enc_step. fold t. rewrite Hpos, Hidx.
  rewrite wrap32_small by (unfold INT_MIN, INT_MAX; lia).
  rewrite !Nat2Z.id.
  assert (Htb : forall x, (x <= r)%nat ->
            nth x (<[r := t]> (e_trit_buffer st)) 0 = nth (5 * q + x) (s ++ [t]) 0).
  { intros x Hx. destruct (Nat.eq_dec x r) as [->|Hne].
    - rewrite nth_insert_eq by lia.
      rewrite app_nth2 by lia. now replace (5 * q + r - length s)%nat with 0%nat by lia.
    - rewrite nth_insert_ne by lia. rewrite app_nth1 by lia. apply Hbuf. lia. }
  destruct (Z.of_nat r + 1 =? 5) eqn:H5.
  - apply Z.eqb_eq in H5. split; [|reflexivity].
    exists (S q), 0%nat.
    cbn [e_trits e_trit_buffer e_buffer_pos e_packed_index e_packed].
    rewrite to_size_t_small by (unfold SIZE_MOD in *; lia).
    rewrite length_app, !length_insert. cbn [length].
    repeat split; try lia.
    + intros b Hb. destruct (Nat.eq_dec b q) as [->|Hne].
      * rewrite nth_insert_eq by lia.
        unfold pack_buffer, stream_byte.
        rewrite (Htb 0%nat), (Htb 1%nat), (Htb 2%nat), (Htb 3%nat), (Htb 4%nat) by lia.
        now rewrite Nat.add_0_r.
      * rewrite nth_insert_ne by lia. rewrite Hlow by lia.
        symmetry. apply stream_byte_app. lia.
    + intros b Hb. rewrite nth_insert_ne by lia. apply Hhigh. lia.
  - apply Z.eqb_neq in H5. split; [|reflexivity].
    exists q, (S r).
    cbn [e_trits e_trit_buffer e_buffer_pos e_packed_index e_packed].
    rewrite length_app, !length_insert. cbn [length].
    repeat split; try lia.
    + intros x Hx. apply Htb. lia.
    + intros b Hb. rewrite Hlow by lia. symmetry. apply stream_byte_app. lia.
    + exact Hhigh.
Qed.

Lemma enc_inner_spec (p0 : list Z) (fuel : nat) :
  forall (ts s : list Z) (j : nat) (st : enc_state),
  length ts = fuel ->
  (forall x, (x < fuel)%nat -> nth (j + x) (e_trits st) 0 = nth x ts 0) ->
  enc_inv p0 s st ->
  (length s + fuel <= 5 * length p0)%nat ->
  Z.of_nat (length s + fuel) < SIZE_MOD ->
  enc_inv p0 (s ++ ts) (enc_inner fuel j st).
Proof.
  induction fuel as [|fuel IH]; intros ts s j st Hts Hnth Hinv Hroom Hsz.
  - destruct ts; [|discriminate]. now rewrite app_nil_r.
  - destruct ts as [|t ts]; [discriminate|]. cbn [enc_inner].
    destruct (enc_step_spec p0 s j st Hinv) as [Hinv1 Htr]; try lia.
    replace (s ++ t :: ts) with ((s ++ [t]) ++ ts) by (now rewrite <- app_assoc).
    apply IH.
    + cbn in Hts. lia.
    + intros x Hx. rewrite Htr.
      replace (S j + x)%nat with (j + S x)%nat by lia. apply (Hnth (S x)). lia.
    + specialize (Hnth 0%nat ltac:(lia)). rewrite Nat.add_0_r in Hnth.
      cbn [nth] in Hnth. now rewrite <- Hnth.
    + rewrite length_app. cbn [length]. lia.
    + rewrite length_app. cbn [length]. lia.
Qed.

Lemma enc_inner_trits (fuel : nat) : forall (j : nat) (st : enc_state),
  e_trits (enc_inner fuel j st) = e_trits st.
Proof.
  induction fuel as [|fuel IH]; intros j st; cbn [enc_inner]; [reflexivity|].
  rewrite IH. unfold enc_step. now destruct (_ =? 5).
Qed.

Lemma element_trits_length (n : Z) (v : F32.float) :
  length (element_trits n v) = Z.to_nat n.
Proof. apply digits_length. Qed.

Lemma trit_stream_length (n : Z) (m : list F32.float) :
  length (trit_stream n m) = (length m * Z.to_nat n)%nat.
Proof.
  unfold trit_stream. induction m as [|v m IH]; cbn; [reflexivity|].
  rewrite length_app, element_trits_length. unfold trit_stream in IH. lia.
Qed.

Lemma trit_stream_trits (n : Z) (m : list F32.float) : Forall is_trit (trit_stream n m).
Proof.
  unfold trit_stream. induction m as [|v m IH]; cbn; [constructor|].
  apply Forall_app. split; [apply digits_trits | exact IH].
Qed.

Lemma take_drop_step {A : Type} (m : list A) (i fuel : nat) (d : A) :
  (i < length m)%nat ->
  take (S fuel) (drop i m) = nth i m d :: take fuel (drop (S i) m).
Proof.
  revert i. induction m as [|x m IH]; intros i Hi; cbn in Hi; [lia|].
  destruct i as [|i]; cbn; [now rewrite drop_0|].
  apply IH. lia.
Qed.

Lemma enc_outer_spec (p0 : list Z) (m : list F32.float) (trits_per_val : Z) (fuel : nat) :
  1 <= trits_per_val <= 64 ->
  forall (i : nat) (s : list Z) (st : enc_state),
  enc_inv p0 s st ->
  length (e_trits st) = 64%nat ->
  (i + fuel <= length m)%nat ->
  (length s + fuel * Z.to_nat trits_per_val <= 5 * length p0)%nat ->
  Z.of_nat (length s + fuel * Z.to_nat trits_per_val) < SIZE_MOD ->
  enc_inv p0 (s ++ trit_stream trits_per_val (take fuel (drop i m)))
    (enc_outer fuel i m trits_per_val st).
Proof.
  intros Htpv. induction fuel as [|fuel IH]; intros i s st Hinv Hlen Hi Hroom Hsz.
  - cbn. now rewrite app_nil_r.
  - cbn [enc_outer].
    rewrite float_to_balanced_ternary_trits by lia. cbn [snd default from_option id].
    rewrite (take_drop_step m i fuel F32.zero) by lia.
    unfold trit_stream. cbn [map concat]. fold (trit_stream trits_per_val).
    rewrite app_assoc.
    set (v := nth i m F32.zero).
    set (tl := ternary_loop (Z.to_nat trits_per_val) 0 (quantised v trits_per_val)
                 (e_trits st)).
    set (st0 := {| e_trits := tl; e_trit_buffer := e_trit_buffer st;
                   e_buffer_pos := e_buffer_pos st;
                   e_packed_index := e_packed_index st; e_packed := e_packed st |}).
    assert (Hinv0 : enc_inv p0 s st0) by exact Hinv.
    assert (Hin : enc_inv p0 (s ++ element_trits trits_per_val v)
                    (enc_inner (Z.to_nat trits_per_val) 0 st0)).
    { apply enc_inner_spec; try assumption; try lia.
      - apply element_trits_length.
      - intros x Hx. cbn [e_trits st0]. unfold tl.
        apply (ternary_loop_at (Z.to_nat trits_per_val) 0 x); lia. }
    apply IH; try assumption; try lia.
    + rewrite enc_inner_trits. subst st0 tl. cbn [e_trits]. now rewrite ternary_loop_len.
    + rewrite length_app, element_trits_length. lia.
    + rewrite length_app, element_trits_length. lia.
Qed.

Lemma enc_flush_spec (p0 s : list Z) (st : enc_state) :
  enc_inv p0 s st ->
  (length s <= 5 * length p0)%nat ->
  length (enc_flush st) = length p0 /\
  (forall b, (5 * b < length s)%nat -> nth b (enc_flush st) 0 = stream_byte s b) /\
  (forall b, (length s <= 5 * b)%nat -> nth b (enc_flush st) 0 = nth b p0 0).
Proof.
  intros (q & r & Hlen & Hr & Hpos & Hidx & Hbl & Hbuf & Hpl & Hlow & Hhigh) Hroom.
  unfold enc_flush. rewrite Hpos, Hidx, Nat2Z.id.
  destruct (0 <? Z.of_nat r) eqn:H0.
  - apply Z.ltb_lt in H0.
    assert (Hpad : forall j, (j < 5)%nat ->
              nth j (pad_loop 5 (e_trit_buffer st) (Z.of_nat r)) 0 = nth (5 * q + j) s 0).
    { intros j Hj. rewrite pad_loop_nth by lia.
      destruct (Z.of_nat j <? Z.of_nat r) eqn:Hjr.
      - apply Z.ltb_lt in Hjr. apply Hbuf. lia.
      - apply Z.ltb_ge in Hjr. symmetry. apply nth_overflow. lia. }
    rewrite length_insert. split; [exact Hpl|]. split.
    + intros b Hb. destruct (Nat.eq_dec b q) as [->|Hne].
      * rewrite nth_insert_eq by lia. unfold pack_buffer, stream_byte.
        rewrite (Hpad 0%nat), (Hpad 1%nat), (Hpad 2%nat), (Hpad 3%nat), (Hpad 4%nat) by lia.
        now rewrite Nat.add_0_r.
      * rewrite nth_insert_ne by lia. apply Hlow. lia.
    + intros b Hb. rewrite nth_insert_ne by lia. apply Hhigh. lia.
  - apply Z.ltb_ge in H0. split; [exact Hpl|]. split.
    + intros b Hb. apply Hlow. lia.
    + intros b Hb. apply Hhigh. lia.
Qed.

Lemma stream_byte_range (s : list Z) (b : nat) :
  Forall is_trit s -> 0 <= stream_byte s b <= 242.
Proof.
  intros Hs. unfold stream_byte.
  pose proof (nth_is_trit s (5 * b) Hs) as H0.
  pose proof (nth_is_trit s (5 * b + 1) Hs) as H1.
  pose proof (nth_is_trit s (5 * b + 2) Hs) as H2.
  pose proof (nth_is_trit s (5 * b + 3) Hs) as H3.
  pose proof (nth_is_trit s (5 * b + 4) Hs) as H4.
  rewrite pack_trits_value by assumption.
  rewrite is_trit_cases in *. lia.
Qed.

(** What [float_matrix_to_ternary] leaves in the output buffer on
    valid arguments. *)
Lemma float_matrix_to_ternary_stream
    (m : list F32.float) (rows cols trits_per_val : Z) (p : list Z) (packed_size : Z) :
  0 < rows -> 0 < cols -> 1 <= trits_per_val <= 64 ->
  rows * cols <= INT_MAX ->
  length m = Z.to_nat (rows * cols) ->
  calculate_packed_size rows cols trits_per_val <= packed_size ->
  (Z.to_nat packed_size <= length p)%nat ->
  exists out,
    float_matrix_to_ternary (Some m) rows cols trits_per_val (Some p) packed_size
      = (0, Some out) /\
    length out = length p /\
    (forall b, Z.of_nat b < calculate_packed_size rows cols trits_per_val ->
       nth b out 0 = stream_byte (trit_stream trits_per_val m) b) /\
    (forall b, calculate_packed_size rows cols trits_per_val <= Z.of_nat b ->
       nth b out 0 = if Z.of_nat b <? packed_size then 0 else nth b p 0).
Proof.
  intros Hr Hc Ht Hfit Hm Hsize Hp.
  assert (Hreq : calculate_packed_size rows cols trits_per_val
                 = (rows * cols * trits_per_val + 4) / 5).
  { apply calculate_packed_size_exact; try lia. unfold INT_MAX, SIZE_MOD in *. nia. }
  pose proof (element_count rows cols Hr Hc Hfit) as Hn.
  assert (Hrc : 0 < rows * cols) by nia.
  pose proof (ceil_div5 (rows * cols * trits_per_val)) as Hceil.
  unfold is_ceil_div in Hceil. rewrite <- Hreq in Hceil.
  unfold float_matrix_to_ternary.
  replace ((rows <=? 0) || (cols <=? 0) || (trits_per_val <=? 0)) with false
    by (symmetry; rewrite !orb_false_iff, !Z.leb_gt; lia).
  set (required := calculate_packed_size rows cols trits_per_val) in *.
  clearbody required.
  replace (packed_size <? required) with false by (symmetry; apply Z.ltb_ge; lia).
  replace (64 <? trits_per_val) with false by (symmetry; apply Z.ltb_ge; lia).
  eexists. split; [reflexivity|].
  set (p0 := memset0 (Z.to_nat packed_size) p).
  set (s := trit_stream trits_per_val m).
  assert (Hs : Z.of_nat (length s) = rows * cols * trits_per_val).
  { unfold s. rewrite trit_stream_length, Hm. nia. }
  assert (Hp0 : length p0 = length p) by apply memset0_length.
  assert (Hfuel : Z.to_nat (wrap32 (rows * cols)) = length m) by lia.
  rewrite Hfuel.
  match goal with |- context [enc_outer _ _ _ _ ?st] => set (st0 := st) end.
  assert (Hinv : enc_inv p0 s (enc_outer (length m) 0 m trits_per_val st0)).
  { assert (Hinit : enc_inv p0 [] st0).
    { exists 0%nat, 0%nat. cbn. repeat split; try lia; try reflexivity. }
    pose proof (enc_outer_spec p0 m trits_per_val (length m) Ht 0 [] st0 Hinit) as H.
    rewrite drop_0, firstn_all in H. cbn [app length] in H.
    apply H.
    - reflexivity.
    - lia.
    - unfold s in Hs. rewrite trit_stream_length in Hs. lia.
    - unfold s in Hs. rewrite trit_stream_length in Hs.
      unfold INT_MAX, SIZE_MOD in *. nia. }
  destruct (enc_flush_spec p0 s _ Hinv) as (Hlen & Hlow & Hhigh); [lia|].
  split; [lia|]. split.
  - intros b Hb. apply Hlow. lia.
  - intros b Hb. rewrite Hhigh by lia. unfold p0. rewrite memset0_nth.
    destruct (Z.of_nat b <? packed_size) eqn:Hbp.
    + apply Z.ltb_lt in Hbp.
      replace (b <? Z.to_nat packed_size)%nat with true
        by (symmetry; apply Nat.ltb_lt; lia). reflexivity.
    + apply Z.ltb_ge in Hbp.
      replace (b <? Z.to_nat packed_size)%nat with false
        by (symmetry; apply Nat.ltb_ge; lia). reflexivity.
Qed.

(** X3.  On valid arguments [float_matrix_to_ternary] returns 0 and
    leaves in byte [b] of the output, for every [b] below
    [calculate_packed_size], the packing (a value of 0..242) of trits
    [5b .. 5b+4] of the stream made of the [trits_per_val] trits of
    each element in turn, padded with zero trits; the bytes from there
    up to [packed_size] are 0 and the bytes from [packed_size] on are
    left as they were. *)
Theorem encoder_output_layout
    (m : list F32.float) (rows cols trits_per_val : Z) (p : list Z) (packed_size : Z) :
  0 < rows -> 0 < cols -> 1 <= trits_per_val <= 64 ->
  rows * cols <= INT_MAX ->
  length m = Z.to_nat (rows * cols) ->
  calculate_packed_size rows cols trits_per_val <= packed_size ->
  (Z.to_nat packed_size <= length p)%nat ->
  exists out,
    float_matrix_to_ternary (Some m) rows cols trits_per_val (Some p) packed_size
      = (0, Some out) /\
    length out = length p /\
    (forall b, Z.of_nat b < calculate_packed_size rows cols trits_per_val ->
       nth b out 0 = stream_byte (trit_stream trits_per_val m) b /\
       0 <= nth b out 0 <= 242) /\
    (forall b, calculate_packed_size rows cols trits_per_val <= Z.of_nat b < packed_size ->
       nth b out 0 = 0) /\
    (forall b, packed_size <= Z.of_nat b -> nth b out 0 = nth b p 0).
Proof.
  intros Hr Hc Ht Hfit Hm Hsize Hp.
  destruct (float_matrix_to_ternary_stream m rows cols trits_per_val p packed_size
              Hr Hc Ht Hfit Hm Hsize Hp) as (out & Hout & Hlen & Hlow & Hhigh).
  exists out. split; [exact Hout|]. split; [exact Hlen|]. split; [|split].
  - intros b Hb. rewrite (Hlow b Hb). split; [reflexivity|].
    apply stream_byte_range, trit_stream_trits.
  - intros b Hb. rewrite Hhigh by lia.
    replace (Z.of_nat b <? packed_size) with true by (symmetry; apply Z.ltb_lt; lia).
    reflexivity.
  - intros b Hb. rewrite Hhigh by lia.
    replace (Z.of_nat b <? packed_size) with false by (symmetry; apply Z.ltb_ge; lia).
    reflexivity.
Qed.

Lemma encoder_output_layout_witness :
  exists out,
    float_matrix_to_ternary (Some [F32.lit 1 3; F32.one]) 1 2 3
      (Some [9; 9; 9; 9]) 3 = (0, Some out) /\
    length out = length [9; 9; 9; 9] /\
    (forall b, Z.of_nat b < calculate_packed_size 1 2 3 ->
       nth b out 0 = stream_byte (trit_stream 3 [F32.lit 1 3; F32.one]) b /\
       0 <= nth b out 0 <= 242) /\
    (forall b, calculate_packed_size 1 2 3 <= Z.of_nat b < 3 -> nth b out 0 = 0) /\
    (forall b, 3 <= Z.of_nat b -> nth b out 0 = nth b [9; 9; 9; 9] 0).
Proof.
  apply (encoder_output_layout [F32.lit 1 3; F32.one] 1 2 3 [9; 9; 9; 9] 3).
  - lia.
  - lia.
  - lia.
  - unfold INT_MAX. lia.
  - reflexivity.
  - vm_compute. discriminate.
  - simpl. lia.
Defined.

(** X4.  With [trits_per_val] above 64 and a buffer that passes the
    size check, [float_matrix_to_ternary] returns -1 only after it
    has cleared the buffer: the first [packed_size] bytes are 0, the
    others are as they were. *)
Theorem rejected_width_clears_buffer
    (m : list F32.float) (rows cols trits_per_val : Z) (p : list Z) (packed_size : Z) :
  0 < rows -> 0 < cols -> 64 < trits_per_val ->
  calculate_packed_size rows cols trits_per_val <= packed_size ->
  exists out,
    float_matrix_to_ternary (Some m) rows cols trits_per_val (Some p) packed_size
      = (-1, Some out) /\
    length out = length p /\
    (forall b, Z.of_nat b < packed_size -> nth b out 0 = 0) /\
    (forall b, packed_size <= Z.of_nat b -> nth b out 0 = nth b p 0).
Proof.
  intros Hr Hc Ht Hsize. unfold float_matrix_to_ternary.
  replace ((rows <=? 0) || (cols <=? 0) || (trits_per_val <=? 0)) with false
    by (symmetry; rewrite !orb_false_iff, !Z.leb_gt; lia).
  replace (packed_size <? calculate_packed_size rows cols trits_per_val) with false
    by (symmetry; apply Z.ltb_ge; lia).
  replace (64 <? trits_per_val) with true by (symmetry; apply Z.ltb_lt; lia).
  eexists. split; [reflexivity|]. split; [apply memset0_length|]. split.
  - intros b Hb. rewrite memset0_nth.
    replace (b <? Z.to_nat packed_size)%nat with true
      by (symmetry; apply Nat.ltb_lt; lia). reflexivity.
  - intros b Hb. rewrite memset0_nth.
    replace (b <? Z.to_nat packed_size)%nat with false
      by (symmetry; apply Nat.ltb_ge; lia). reflexivity.
Qed.

Lemma rejected_width_clears_buffer_witness :
  exists out,
    float_matrix_to_ternary (Some [F32.one]) 1 1 65 (Some [7; 7; 7; 7; 7; 7; 7; 7; 7; 7; 7; 7; 7; 7])
      13 = (-1, Some out) /\
    length out = length [7; 7; 7; 7; 7; 7; 7; 7; 7; 7; 7; 7; 7; 7] /\
    (forall b, Z.of_nat b < 13 -> nth b out 0 = 0) /\
    (forall b, 13 <= Z.of_nat b ->
       nth b out 0 = nth b [7; 7; 7; 7; 7; 7; 7; 7; 7; 7; 7; 7; 7; 7] 0).
Proof.
  apply (rejected_width_clears_buffer [F32.one] 1 1 65
           [7; 7; 7; 7; 7; 7; 7; 7; 7; 7; 7; 7; 7; 7] 13).
  - lia.
  - lia.
  - lia.
  - vm_compute. discriminate.
Defined.

(** ** The decoder reads the packed trit stream *)

Lemma unpack_trits_byte_trits (b : Z) (a : list Z) :
  length a = 5%nat -> unpack_trits b (Some a) = Some (byte_trits b).
Proof.
  intros Hlen.
  destruct a as [|a0 [|a1 [|a2 [|a3 [|a4 [|a5 l]]]]]]; try discriminate.
  reflexivity.
Qed.

Lemma byte_trits_length (b : Z) : length (byte_trits b) = 5%nat.
Proof. reflexivity. Qed.

Lemma nat_divmod5 (t q r : nat) :
  (r < 5)%nat -> t = (5 * q + r)%nat -> (t / 5 = q /\ t mod 5 = r)%nat.
Proof.
  intros Hr ->. split.
  - symmetry. apply (Nat.div_unique _ 5 q r); lia.
  - symmetry. apply (Nat.mod_unique _ 5 q r); lia.
Qed.

Lemma dec_step_stream (buf : list Z) (ps : Z) (j : nat) (t : Z) (st : dec_state) :
  0 <= ps < SIZE_MOD -> 0 <= t ->
  dec_stream_inv buf ps t st ->
  match dec_step buf ps j st with
  | inl st' => dec_stream_inv buf ps (t + 1) st' /\
               d_matrix st' = d_matrix st /\
               d_trits st' = <[j := buffer_trit buf (Z.to_nat t)]> (d_trits st)
  | inr st' => st' = st /\ 5 * ps <= t
  end.
Proof.
  intros Hps Ht (Hinv & Hul & Hun).
  pose proof (dec_step_spec buf ps Hps j t st Hinv) as Hspec.
  destruct Hinv as (Hpos & Heq & Hle & Hrd).
  unfold dec_step, dec_refill in *.
  destruct (5 <=? d_unpack_pos st) eqn:H5.
  - apply Z.leb_le in H5.
    destruct (ps <=? d_packed_index st) eqn:Hex; [exact Hspec|].
    apply Z.leb_gt in Hex. destruct Hspec as [Hinv1 Hm].
    rewrite unpack_trits_byte_trits in * by exact Hul.
    cbn [default from_option id d_unpacked d_unpack_pos d_trits d_packed_index d_matrix] in *.
    rewrite to_size_t_small in * by lia.
    split; [|split; [reflexivity|]].
    + split; [exact Hinv1|].
      cbn [d_unpacked d_packed_index]. split; [reflexivity|]. intros _.
      now replace (d_packed_index st + 1 - 1) with (d_packed_index st) by lia.
    + f_equal. unfold buffer_trit.
      destruct (nat_divmod5 (Z.to_nat t) (Z.to_nat (d_packed_index st)) 0) as [-> ->];
        [lia | lia | reflexivity].
  - apply Z.leb_gt in H5. destruct Hspec as [Hinv1 Hm].
    cbn [d_unpacked d_unpack_pos d_trits d_packed_index d_matrix] in *.
    split; [|split; [reflexivity|]].
    + split; [exact Hinv1|]. cbn [d_unpacked d_packed_index]. split; assumption.
    + f_equal. unfold buffer_trit. rewrite Hun by lia.
      destruct (nat_divmod5 (Z.to_nat t) (Z.to_nat (d_packed_index st - 1))
                  (Z.to_nat (d_unpack_pos st))) as [-> ->]; [lia | lia | reflexivity].
Qed.

Lemma dec_inner_stream (buf : list Z) (ps : Z) (fuel : nat) :
  0 <= ps < SIZE_MOD ->
  forall (j : nat) (t : Z) (st : dec_state),
  0 <= t ->
  dec_stream_inv buf ps t st ->
  (j + fuel <= length (d_trits st))%nat ->
  match dec_inner buf ps fuel j st with
  | inl st' => dec_stream_inv buf ps (t + Z.of_nat fuel) st' /\
               d_matrix st' = d_matrix st /\
               length (d_trits st') = length (d_trits st) /\
               (forall x, (x < fuel)%nat ->
                  nth (j + x) (d_trits st') 0 = buffer_trit buf (Z.to_nat t + x)) /\
               (forall y, (y < j)%nat -> nth y (d_trits st') 0 = nth y (d_trits st) 0)
  | inr st' => d_matrix st' = d_matrix st /\
               exists t', t <= t' < t + Z.of_nat fuel /\ t' = 5 * ps
  end.
Proof.
  intros Hps. induction fuel as [|fuel IH]; intros j t st Ht Hinv Hlen.
  - cbn [dec_inner]. rewrite Z.add_0_r.
    split; [exact Hinv|]. split; [reflexivity|]. split; [reflexivity|].
    split; [intros x Hx; lia | reflexivity].
  - cbn [dec_inner].
    pose proof (dec_step_stream buf ps j t st Hps Ht Hinv) as Hstep.
    destruct (dec_step buf ps j st) as [st1|st1].
    + destruct Hstep as (Hinv1 & Hm1 & Htr1).
      assert (Hlen1 : length (d_trits st1) = length (d_trits st))
        by (rewrite Htr1; apply length_insert).
      specialize (IH (S j) (t + 1) st1 ltac:(lia) Hinv1 ltac:(lia)).
      destruct (dec_inner buf ps fuel (S j) st1) as [st2|st2].
      * destruct IH as (Hinv2 & Hm2 & Hlen2 & Hnew & Hold).
        replace (t + Z.of_nat (S fuel)) with (t + 1 + Z.of_nat fuel) by lia.
        split; [exact Hinv2|]. split; [congruence|]. split; [congruence|]. split.
        -- intros x Hx. destruct x as [|x].
           ++ rewrite !Nat.add_0_r, Hold by lia.
              rewrite Htr1. apply nth_insert_eq. lia.
           ++ replace (j + S x)%nat with (S j + x)%nat by lia.
              rewrite Hnew by lia. f_equal. lia.
        -- intros y Hy. rewrite Hold by lia. rewrite Htr1.
           apply nth_insert_ne. lia.
      * destruct IH as (Hm2 & t' & Ht' & Hex).
        split; [congruence|]. exists t'. split; [lia | exact Hex].
    + destruct Hstep as [-> Hex]. split; [reflexivity|].
      destruct Hinv as ((Hpos & Heq & Hle & _) & _).
      exists t. split; lia.
Qed.

Lemma nth_map_seq (f : nat -> Z) (a n x : nat) :
  (x < n)%nat -> nth x (map f (seq a n)) 0 = f (a + x)%nat.
Proof.
  revert a x. induction n as [|n IH]; intros a x Hx; [lia|].
  destruct x as [|x]; cbn [seq map nth].
  - now rewrite Nat.add_0_r.
  - rewrite IH by lia. f_equal. lia.
Qed.

Lemma nth_insert_float_eq (l : list F32.float) (i : nat) (x : F32.float) :
  (i < length l)%nat -> nth i (<[i := x]> l) F32.zero = x.
Proof.
  revert i. induction l as [|y l IH]; intros [|i] H; cbn in *; try lia; auto.
  apply IH. lia.
Qed.

Lemma nth_insert_float_ne (l : list F32.float) (i j : nat) (x : F32.float) :
  i <> j -> nth j (<[i := x]> l) F32.zero = nth j l F32.zero.
Proof.
  revert i j. induction l as [|y l IH]; intros [|i] [|j] H; cbn; try lia; auto.
Qed.

Lemma dec_outer_stream (buf : list Z) (ps trits_per_val : Z) (fuel : nat) :
  0 <= ps < SIZE_MOD -> 1 <= trits_per_val <= 64 ->
  forall (i : nat) (st : dec_state),
  dec_stream_inv buf ps (Z.of_nat i * trits_per_val) st ->
  length (d_trits st) = 64%nat ->
  match dec_outer buf ps trits_per_val fuel i st with
  | inl st' => decoded_range buf trits_per_val i fuel (d_matrix st) (d_matrix st')
  | inr st' => exists c, (c < fuel)%nat /\
                 Z.of_nat (i + c) * trits_per_val <= 5 * ps
                   < Z.of_nat (i + c + 1) * trits_per_val /\
                 decoded_range buf trits_per_val i c (d_matrix st) (d_matrix st')
  end.
Proof.
  intros Hps Htpv. induction fuel as [|fuel IH]; intros i st Hinv Hlen.
  - cbn [dec_outer]. split; [reflexivity|]. split; [intros x Hx; lia | reflexivity].
  - cbn [dec_outer].
    pose proof (dec_inner_stream buf ps (Z.to_nat trits_per_val) Hps 0
                  (Z.of_nat i * trits_per_val) st ltac:(lia) Hinv ltac:(lia)) as Hin.
    rewrite Z2Nat.id in Hin by lia.
    destruct (dec_inner buf ps (Z.to_nat trits_per_val) 0 st) as [st1|st1].
    + destruct Hin as (Hinv1 & Hm1 & Hlen1 & Hnew & _).
      set (f := balanced_ternary_to_float (Some (d_trits st1)) trits_per_val).
      assert (Hf : f = decoded_element buf trits_per_val i).
      { unfold f, decoded_element. apply balanced_ternary_to_float_ext.
        intros x Hx. rewrite nth_map_seq by exact Hx.
        specialize (Hnew x Hx). rewrite Nat.add_0_l in Hnew. rewrite Hnew.
        f_equal. nia. }
      match goal with |- context [dec_outer _ _ _ _ _ ?s] => set (st2 := s) end.
      assert (Hinv2 : dec_stream_inv buf ps (Z.of_nat (S i) * trits_per_val) st2).
      { replace (Z.of_nat (S i) * trits_per_val)
          with (Z.of_nat i * trits_per_val + trits_per_val) by lia.
        exact Hinv1. }
      specialize (IH (S i) st2 Hinv2 ltac:(cbn; lia)).
      assert (Hone : decoded_range buf trits_per_val i 1 (d_matrix st) (d_matrix st2)).
      { unfold st2; cbn [d_matrix]. rewrite Hm1, Hf. split; [apply length_insert|]. split.
        - intros x Hx Hxl. replace x with i by lia. apply nth_insert_float_eq. lia.
        - intros x Hx. apply nth_insert_float_ne. lia. }
      assert (Hcomp : forall c m', decoded_range buf trits_per_val (S i) c (d_matrix st2) m' ->
                        decoded_range buf trits_per_val i (S c) (d_matrix st) m').
      { intros c m' (Hl & Hin' & Hout'). destruct Hone as (Hl1 & Hin1 & Hout1).
        split; [congruence|]. split.
        - intros x Hx Hxl. destruct (Nat.eq_dec x i) as [->|Hne].
          + rewrite Hout' by lia. apply Hin1; lia.
          + apply Hin'; lia.
        - intros x Hx. rewrite Hout' by lia. apply Hout1. lia. }
      destruct (dec_outer buf ps trits_per_val fuel (S i) st2) as [st3|st3].
      * apply Hcomp, IH.
      * destruct IH as (c & Hc & Hb & Hrange).
        exists (S c). split; [lia|]. split.
        -- replace (i + S c)%nat with (S i + c)%nat by lia. exact Hb.
        -- apply Hcomp, Hrange.
    + destruct Hin as (Hm1 & t' & Ht' & Hex).
      exists 0%nat. split; [lia|]. split.
      * rewrite Nat.add_0_r. lia.
      * rewrite Hm1. split; [reflexivity|]. split; [intros x Hx; lia | reflexivity].
Qed.

(** On valid arguments and a large enough [packed_size] the decoding
    loops run to their end and every element is decoded. *)
Lemma dec_outer_complete
    (buf : list Z) (packed_size trits_per_val : Z) (m : list F32.float) (rows cols : Z) :
  0 < rows -> 0 < cols -> 1 <= trits_per_val <= 64 ->
  rows * cols <= INT_MAX ->
  0 <= packed_size < SIZE_MOD ->
  calculate_packed_size rows cols trits_per_val <= packed_size ->
  length m = Z.to_nat (rows * cols) ->
  exists st',
    dec_outer buf packed_size trits_per_val (Z.to_nat (wrap32 (rows * cols))) 0
      {| d_trits := repeat 0 64; d_unpacked := [0; 0; 0; 0; 0]; d_unpack_pos := 5;
         d_packed_index := 0; d_matrix := m; d_reads := [] |} = inl st' /\
    decoded_range buf trits_per_val 0 (length m) m (d_matrix st').
Proof.
  intros Hr Hc Ht Hfit Hps Hsize Hm.
  assert (Hreq : calculate_packed_size rows cols trits_per_val
                 = (rows * cols * trits_per_val + 4) / 5).
  { apply calculate_packed_size_exact; try lia. unfold INT_MAX, SIZE_MOD in *. nia. }
  pose proof (ceil_div5 (rows * cols * trits_per_val)) as Hceil.
  unfold is_ceil_div in Hceil. rewrite <- Hreq in Hceil.
  pose proof (element_count rows cols Hr Hc Hfit) as Hn.
  assert (Hfuel : Z.to_nat (wrap32 (rows * cols)) = length m) by lia.
  rewrite Hfuel.
  match goal with |- context [dec_outer _ _ _ _ _ ?s] => set (st0 := s) end.
  assert (Hinit : dec_stream_inv buf packed_size (Z.of_nat 0 * trits_per_val) st0).
  { split; [apply dec_inv_init; lia|]. split; [reflexivity|]. cbn. lia. }
  pose proof (dec_outer_stream buf packed_size trits_per_val (length m) Hps Ht
                0 st0 Hinit eq_refl) as Hout.
  destruct (dec_outer buf packed_size trits_per_val (length m) 0 st0) as [st'|st'].
  - exists st'. split; [reflexivity | exact Hout].
  - destruct Hout as (c & Hc' & Hb & _). exfalso.
    assert (Z.of_nat (0 + c + 1) * trits_per_val <= rows * cols * trits_per_val) by nia.
    lia.
Qed.

(** X5.  On valid arguments and [packed_size] at least
    [calculate_packed_size], [ternary_to_float_matrix] returns 0 and
    sets element [i] of the matrix, for every [i] below [rows * cols],
    to the decoding of trits [i n .. i n + n - 1] of the buffer,
    [n = trits_per_val], trit [t] being trit [t mod 5] of byte
    [t / 5]; the length of the matrix is kept. *)
Theorem decoder_reads_trit_stream
    (buf : list Z) (packed_size trits_per_val : Z) (m : list F32.float) (rows cols : Z) :
  0 < rows -> 0 < cols -> 1 <= trits_per_val <= 64 ->
  rows * cols <= INT_MAX ->
  0 <= packed_size < SIZE_MOD ->
  calculate_packed_size rows cols trits_per_val <= packed_size ->
  (Z.to_nat packed_size <= length buf)%nat ->
  length m = Z.to_nat (rows * cols) ->
  exists m',
    r_code (ternary_to_float_matrix (Some buf) packed_size trits_per_val
              (Some m) rows cols) = 0 /\
    r_matrix (ternary_to_float_matrix (Some buf) packed_size trits_per_val
                (Some m) rows cols) = Some m' /\
    length m' = length m /\
    forall i, (i < length m)%nat ->
      nth i m' F32.zero = decoded_element buf trits_per_val i.
Proof.
  intros Hr Hc Ht Hfit Hps Hsize _ Hm.
  destruct (dec_outer_complete buf packed_size trits_per_val m rows cols
              Hr Hc Ht Hfit Hps Hsize Hm) as (st' & Hrun & Hl & Hin & _).
  unfold ternary_to_float_matrix.
  replace ((rows <=? 0) || (cols <=? 0) || (trits_per_val <=? 0)) with false
    by (symmetry; rewrite !orb_false_iff, !Z.leb_gt; lia).
  replace (64 <? trits_per_val) with false by (symmetry; apply Z.ltb_ge; lia).
  rewrite Hrun. cbn [r_code r_matrix].
  exists (d_matrix st'). split; [reflexivity|]. split; [reflexivity|].
  split; [exact Hl|]. intros i Hi. apply Hin; lia.
Qed.

Lemma decoder_reads_trit_stream_witness :
  exists m',
    r_code (ternary_to_float_matrix (Some [121; 242; 0]) 3 7
              (Some [F32.one; F32.one]) 1 2) = 0 /\
    r_matrix (ternary_to_float_matrix (Some [121; 242; 0]) 3 7
                (Some [F32.one; F32.one]) 1 2) = Some m' /\
    length m' = length [F32.one; F32.one] /\
    forall i, (i < length [F32.one; F32.one])%nat ->
      nth i m' F32.zero = decoded_element [121; 242; 0] 7 i.
Proof.
  apply (decoder_reads_trit_stream [121; 242; 0] 3 7 [F32.one; F32.one] 1 2).
  - lia.
  - lia.
  - lia.
  - unfold INT_MAX. lia.
  - unfold SIZE_MOD. lia.
  - vm_compute. discriminate.
  - simpl. lia.
  - reflexivity.
Defined.

(** X6.  When [packed_size] is below [calculate_packed_size] the
    decoder returns -1 after it has already overwritten the elements
    whose trits the [packed_size] bytes cover: the elements below
    [5 * packed_size / trits_per_val] hold their decodings, the others
    are as they were. *)
Theorem starved_decoder_partial_output
    (buf : list Z) (packed_size trits_per_val : Z) (m : list F32.float) (rows cols : Z) :
  0 < rows -> 0 < cols -> 1 <= trits_per_val <= 64 ->
  rows * cols <= INT_MAX ->
  0 <= packed_size < calculate_packed_size rows cols trits_per_val ->
  (Z.to_nat packed_size <= length buf)%nat ->
  length m = Z.to_nat (rows * cols) ->
  exists m',
    r_code (ternary_to_float_matrix (Some buf) packed_size trits_per_val
              (Some m) rows cols) = -1 /\
    r_matrix (ternary_to_float_matrix (Some buf) packed_size trits_per_val
                (Some m) rows cols) = Some m' /\
    length m' = length m /\
    (forall i, Z.of_nat i < 5 * packed_size / trits_per_val ->
       nth i m' F32.zero = decoded_element buf trits_per_val i) /\
    (forall i, 5 * packed_size / trits_per_val <= Z.of_nat i ->
       nth i m' F32.zero = nth i m F32.zero).
Proof.
  intros Hr Hc Ht Hfit Hps _ Hm.
  assert (Hreq : calculate_packed_size rows cols trits_per_val
                 = (rows * cols * trits_per_val + 4) / 5).
  { apply calculate_packed_size_exact; try lia. unfold INT_MAX, SIZE_MOD in *. nia. }
  pose proof (ceil_div5 (rows * cols * trits_per_val)) as Hceil.
  unfold is_ceil_div in Hceil. rewrite <- Hreq in Hceil.
  assert (Hps' : 0 <= packed_size < SIZE_MOD).
  { split; [lia|]. unfold INT_MAX, SIZE_MOD in *. nia. }
  pose proof (element_count rows cols Hr Hc Hfit) as Hn.
  unfold ternary_to_float_matrix.
  replace ((rows <=? 0) || (cols <=? 0) || (trits_per_val <=? 0)) with false
    by (symmetry; rewrite !orb_false_iff, !Z.leb_gt; lia).
  replace (64 <? trits_per_val) with false by (symmetry; apply Z.ltb_ge; lia).
  match goal with |- context [dec_outer _ _ _ _ _ ?s] => set (st0 := s) end.
  assert (Hinit : dec_stream_inv buf packed_size (Z.of_nat 0 * trits_per_val) st0).
  { split; [apply dec_inv_init; lia|]. split; [reflexivity|]. cbn. lia. }
  pose proof (dec_outer_stream buf packed_size trits_per_val
                (Z.to_nat (wrap32 (rows * cols))) Hps' Ht 0 st0 Hinit eq_refl) as Hout.
  pose proof (dec_outer_spec buf packed_size Hps' trits_per_val
                (Z.to_nat (wrap32 (rows * cols))) ltac:(lia) 0 0 st0
                (proj1 Hinit)) as Hspec.
  destruct (dec_outer buf packed_size trits_per_val _ 0 st0) as [st'|st'].
  - exfalso. rewrite Hn, Z.add_0_l in Hspec.
    destruct Hspec as (Hpos & Heq & Hle & _). lia.
  - destruct Hout as (c & Hc' & Hb & Hl & Hin & Hkeep).
    cbn [r_code r_matrix d_matrix st0] in *.
    assert (Hdiv : 5 * packed_size / trits_per_val = Z.of_nat c).
    { symmetry. apply Z.div_unique with (r := 5 * packed_size - Z.of_nat c * trits_per_val).
      - left. lia.
      - lia. }
    exists (d_matrix st'). split; [reflexivity|]. split; [reflexivity|].
    split; [exact Hl|]. rewrite Hdiv. split.
    + intros i Hi. apply Hin; lia.
    + intros i Hi. apply Hkeep. lia.
Qed.

Lemma starved_decoder_partial_output_witness :
  exists m',
    r_code (ternary_to_float_matrix (Some [121; 242; 0]) 1 3
              (Some [F32.one; F32.one; F32.one]) 1 3) = -1 /\
    r_matrix (ternary_to_float_matrix (Some [121; 242; 0]) 1 3
                (Some [F32.one; F32.one; F32.one]) 1 3) = Some m' /\
    length m' = length [F32.one; F32.one; F32.one] /\
    (forall i, Z.of_nat i < 5 * 1 / 3 ->
       nth i m' F32.zero = decoded_element [121; 242; 0] 3 i) /\
    (forall i, 5 * 1 / 3 <= Z.of_nat i ->
       nth i m' F32.zero = nth i [F32.one; F32.one; F32.one] F32.zero).
Proof.
  apply (starved_decoder_partial_output [121; 242; 0] 1 3 [F32.one; F32.one; F32.one] 1 3).
  - lia.
  - lia.
  - lia.
  - unfold INT_MAX. lia.
  - vm_compute. split; [discriminate | reflexivity].
  - simpl. lia.
  - reflexivity.
Defined.

(** ** The matrix round trip, element by element *)

Lemma byte_trits_pack (t0 t1 t2 t3 t4 : Z) :
  is_trit t0 -> is_trit t1 -> is_trit t2 -> is_trit t3 -> is_trit t4 ->
  byte_trits (pack_trits t0 t1 t2 t3 t4) = [t0; t1; t2; t3; t4].
Proof.
  unfold is_trit.
  intros [->|[->| ->]] [->|[->| ->]] [->|[->| ->]] [->|[->| ->]] [->|[->| ->]];
    reflexivity.
Qed.

(** Trit [t] of a buffer that holds the packing of a stream of trits
    is trit [t] of the stream. *)
Lemma buffer_trit_stream (out s : list Z) (required t : nat) :
  (forall b, (b < required)%nat -> nth b out 0 = stream_byte s b) ->
  Forall is_trit s ->
  (t < 5 * required)%nat ->
  buffer_trit out t = nth t s 0.
Proof.
  intros Hout Hs Ht. unfold buffer_trit.
  pose proof (Nat.div_mod_eq t 5) as Hdm.
  pose proof (Nat.mod_upper_bound t 5 ltac:(lia)) as Hr.
  set (q := (t / 5)%nat) in *. set (r := (t mod 5)%nat) in *.
  rewrite Hout by lia. unfold stream_byte.
  rewrite byte_trits_pack by (apply nth_is_trit, Hs).
  rewrite Hdm.
  destruct r as [|[|[|[|[|r]]]]]; try lia; cbn [nth]; f_equal; lia.
Qed.

Lemma trit_stream_nth (n : Z) (m : list F32.float) : forall (i j : nat),
  (i < length m)%nat -> (j < Z.to_nat n)%nat ->
  nth (i * Z.to_nat n + j) (trit_stream n m) 0
    = nth j (element_trits n (nth i m F32.zero)) 0.
Proof.
  unfold trit_stream.
  induction m as [|v m IH]; intros i j Hi Hj; cbn [length] in Hi; [lia|].
  cbn [map concat]. destruct i as [|i].
  - cbn [Nat.mul Nat.add nth]. apply app_nth1. rewrite element_trits_length. lia.
  - rewrite app_nth2 by (rewrite element_trits_length; lia).
    rewrite element_trits_length. cbn [nth].
    replace (S i * Z.to_nat n + j - Z.to_nat n)%nat with (i * Z.to_nat n + j)%nat by lia.
    apply IH; lia.
Qed.

(** Decoding the output of the encoder: element [i] is the decoding
    of the trits of element [i] of the encoded matrix. *)
Lemma matrix_roundtrip_elements
    (m m' : list F32.float) (rows cols trits_per_val : Z) (p : list Z) (packed_size : Z) :
  0 < rows -> 0 < cols -> 1 <= trits_per_val <= 64 ->
  rows * cols <= INT_MAX ->
  length m = Z.to_nat (rows * cols) ->
  length m' = Z.to_nat (rows * cols) ->
  calculate_packed_size rows cols trits_per_val <= packed_size < SIZE_MOD ->
  (Z.to_nat packed_size <= length p)%nat ->
  exists out st',
    float_matrix_to_ternary (Some m) rows cols trits_per_val (Some p) packed_size
      = (0, Some out) /\
    dec_outer out packed_size trits_per_val (Z.to_nat (wrap32 (rows * cols))) 0
      {| d_trits := repeat 0 64; d_unpacked := [0; 0; 0; 0; 0]; d_unpack_pos := 5;
         d_packed_index := 0; d_matrix := m'; d_reads := [] |} = inl st' /\
    length (d_matrix st') = length m /\
    forall i, (i < length m)%nat ->
      nth i (d_matrix st') F32.zero
        = balanced_ternary_to_float
            (Some (element_trits trits_per_val (nth i m F32.zero))) trits_per_val.
Proof.
  intros Hr Hc Ht Hfit Hm Hm' Hsize Hp.
  assert (Hreq : calculate_packed_size rows cols trits_per_val
                 = (rows * cols * trits_per_val + 4) / 5).
  { apply calculate_packed_size_exact; try lia. unfold INT_MAX, SIZE_MOD in *. nia. }
  pose proof (ceil_div5 (rows * cols * trits_per_val)) as Hceil.
  unfold is_ceil_div in Hceil. rewrite <- Hreq in Hceil.
  assert (Hrc : 0 < rows * cols) by nia.
  destruct (float_matrix_to_ternary_stream m rows cols trits_per_val p packed_size
              Hr Hc Ht Hfit Hm ltac:(lia) Hp) as (out & Hout & Hlen & Hlow & _).
  destruct (dec_outer_complete out packed_size trits_per_val m' rows cols
              Hr Hc Ht Hfit ltac:(lia) ltac:(lia) Hm') as (st' & Hrun & Hl & Hin & _).
  exists out, st'. split; [exact Hout|]. split; [exact Hrun|].
  split; [lia|]. intros i Hi.
  rewrite Hin by lia. unfold decoded_element.
  apply balanced_ternary_to_float_ext. intros j Hj.
  rewrite nth_map_seq by exact Hj.
  rewrite <- trit_stream_nth by lia.
  apply (buffer_trit_stream out _
           (Z.to_nat (calculate_packed_size rows cols trits_per_val))).
  - intros b Hb. apply Hlow. lia.
  - apply trit_stream_trits.
  - assert (Z.of_nat (i * Z.to_nat trits_per_val + j) < rows * cols * trits_per_val)
      by nia.
    lia.
Qed.

(** X7.  Encoding a matrix and decoding the buffer obtained gives,
    in every element, what the scalar functions give on that element:
    [balanced_ternary_to_float] of the trits
    [float_to_balanced_ternary] writes for it.  The previous contents
    of the packed buffer and of the output matrix play no part. *)
Theorem matrix_roundtrip_is_elementwise
    (m m' : list F32.float) (rows cols trits_per_val : Z) (p : list Z) (packed_size : Z)
    (a : list Z) :
  0 < rows -> 0 < cols -> 1 <= trits_per_val <= 64 ->
  rows * cols <= INT_MAX ->
  length m = Z.to_nat (rows * cols) ->
  length m' = Z.to_nat (rows * cols) ->
  calculate_packed_size rows cols trits_per_val <= packed_size < SIZE_MOD ->
  (Z.to_nat packed_size <= length p)%nat ->
  (Z.to_nat trits_per_val <= length a)%nat ->
  exists out res,
    float_matrix_to_ternary (Some m) rows cols trits_per_val (Some p) packed_size
      = (0, Some out) /\
    r_code (ternary_to_float_matrix (Some out) packed_size trits_per_val
              (Some m') rows cols) = 0 /\
    r_matrix (ternary_to_float_matrix (Some out) packed_size trits_per_val
                (Some m') rows cols) = Some res /\
    length res = length m /\
    forall i, (i < length m)%nat ->
      nth i res F32.zero = scalar_roundtrip (nth i m F32.zero) a trits_per_val.
Proof.
  intros Hr Hc Ht Hfit Hm Hm' Hsize Hp Ha.
  destruct (matrix_roundtrip_elements m m' rows cols trits_per_val p packed_size
              Hr Hc Ht Hfit Hm Hm' Hsize Hp) as (out & st' & Hout & Hrun & Hl & Hel).
  exists out, (d_matrix st'). split; [exact Hout|].
  unfold ternary_to_float_matrix.
  replace ((rows <=? 0) || (cols <=? 0) || (trits_per_val <=? 0)) with false
    by (symmetry; rewrite !orb_false_iff, !Z.leb_gt; lia).
  replace (64 <? trits_per_val) with false by (symmetry; apply Z.ltb_ge; lia).
  rewrite Hrun. cbn [r_code r_matrix].
  split; [reflexivity|]. split; [reflexivity|]. split; [exact Hl|].
  intros i Hi. rewrite (Hel i Hi). symmetry.
  apply scalar_roundtrip_element; lia.
Qed.

Lemma matrix_roundtrip_is_elementwise_witness :
  exists out res,
    float_matrix_to_ternary (Some [F32.lit 1 3; F32.lit (-1) 2]) 1 2 4
      (Some [9; 9; 9]) 2 = (0, Some out) /\
    r_code (ternary_to_float_matrix (Some out) 2 4
              (Some [F32.zero; F32.zero]) 1 2) = 0 /\
    r_matrix (ternary_to_float_matrix (Some out) 2 4
                (Some [F32.zero; F32.zero]) 1 2) = Some res /\
    length res = length [F32.lit 1 3; F32.lit (-1) 2] /\
    forall i, (i < length [F32.lit 1 3; F32.lit (-1) 2])%nat ->
      nth i res F32.zero
        = scalar_roundtrip (nth i [F32.lit 1 3; F32.lit (-1) 2] F32.zero) [0; 0; 0; 0] 4.
Proof.
  apply (matrix_roundtrip_is_elementwise [F32.lit 1 3; F32.lit (-1) 2]
           [F32.zero; F32.zero] 1 2 4 [9; 9; 9] 2 [0; 0; 0; 0]).
  - lia.
  - lia.
  - lia.
  - unfold INT_MAX. lia.
  - reflexivity.
  - reflexivity.
  - vm_compute. split; [discriminate | reflexivity].
  - simpl. lia.
  - simpl. lia.
Defined.

Local Open Scope Q_scope.

(** The decoding of the trits of a well-formed value of [0, 1] is
    within one step of the value, for up to 15 trits. *)
Lemma element_roundtrip_error (n : Z) (v : F32.float) :
  (1 <= n <= 15)%Z ->
  F32.valid v = true -> F32.leb F32.zero v = true -> F32.leb v F32.one = true ->
  Qabs (F32.F2Q (balanced_ternary_to_float (Some (element_trits n v)) n) - F32.F2Q v)
  <= 1 / inject_Z (max_val n).
Proof.
  intros Hn Hvalid H0 H1.
  set (f := Z.to_nat n).
  assert (Hnf : n = Z.of_nat f) by (unfold f; lia).
  set (M := half_pow3 f).
  assert (HM : (1 <= M <= 7174453)%Z).
  { split.
    - change 1%Z with (half_pow3 1). apply half_pow3_mono. lia.
    - change 7174453%Z with (half_pow3 15). apply half_pow3_mono. lia. }
  assert (Hmax : max_val n = M) by (rewrite Hnf; symmetry; apply half_pow3_max_val).
  assert (Henc : encode_max_val n = M).
  { rewrite Hnf. apply encode_max_val_half_pow3. fold M. unfold INT_MAX. lia. }
  rewrite <- (scalar_roundtrip_element v (repeat 0%Z f) n)
    by (rewrite ?repeat_length; lia).
  unfold scalar_roundtrip. rewrite float_to_balanced_ternary_trits by lia.
  cbn [snd]. unfold quantised.
  destruct (unit_float_cases v Hvalid H0 H1) as [Hclamp _].
  rewrite Hclamp, Henc, Hmax.
  destruct (quantise v M Hvalid H0 H1 ltac:(lia)) as [Hk HkQ].
  set (k := F32.to_int (F32.roundf (F32.mul v (F32.of_int M)))) in *.
  clearbody k.
  unfold balanced_ternary_to_float.
  replace (n <=? 0)%Z with false by (symmetry; apply Z.leb_gt; lia).
  rewrite decode_max_val_encode, Henc. fold f.
  rewrite (digit_loops_roundtrip f 0 k (repeat 0%Z f) 0 1); fold M;
    rewrite ?repeat_length; try (unfold INT_MAX; lia); try lia.
  cbn [fst]. replace (0 + 1 * k)%Z with k by lia.
  pose proof (dequantise k M Hk ltac:(lia)) as HY.
  set (Y := F32.F2Q (F32.div (F32.of_int k) (F32.of_int M))) in *.
  set (V := F32.F2Q v) in *.
  assert (HMq1 : 1 <= inject_Z M)
    by (change 1 with (inject_Z 1); rewrite <- Zle_Qle; lia).
  assert (HMq2 : inject_Z M <= 8388608)
    by (change 8388608 with (inject_Z 8388608); rewrite <- Zle_Qle; lia).
  apply Qle_shift_div_l; [lra|].
  apply Qabs_Qle_condition in HY. apply Qabs_Qle_condition in HkQ.
  assert (Hr : inject_Z k / inject_Z M * inject_Z M == inject_Z k) by (field; lra).
  set (r := inject_Z k / inject_Z M) in *.
  assert (Habs : Qabs (Y - V) * inject_Z M == Qabs ((Y - V) * inject_Z M)).
  { rewrite Qabs_Qmult. rewrite (Qabs_pos (inject_Z M)) by lra. reflexivity. }
  rewrite Habs. apply Qabs_Qle_condition.
  set (Mq := inject_Z M) in *. set (K := inject_Z k) in *.
  split; nra.
Qed.

(** X8.  For a matrix of well-formed values of [0, 1] and at most
    15 trits per value, encoding and decoding the matrix gives in
    every element a float within [1 / max_val trits_per_val] of the
    original. *)
Theorem matrix_roundtrip_accuracy
    (m m' : list F32.float) (rows cols trits_per_val : Z) (p : list Z) (packed_size : Z) :
  (0 < rows)%Z -> (0 < cols)%Z -> (1 <= trits_per_val <= 15)%Z ->
  (rows * cols <= INT_MAX)%Z ->
  length m = Z.to_nat (rows * cols) ->
  length m' = Z.to_nat (rows * cols) ->
  (calculate_packed_size rows cols trits_per_val <= packed_size < SIZE_MOD)%Z ->
  (Z.to_nat packed_size <= length p)%nat ->
  (forall v, In v m ->
     F32.valid v = true /\ F32.leb F32.zero v = true /\ F32.leb v F32.one = true) ->
  exists out res,
    float_matrix_to_ternary (Some m) rows cols trits_per_val (Some p) packed_size
      = (0%Z, Some out) /\
    r_code (ternary_to_float_matrix (Some out) packed_size trits_per_val
              (Some m') rows cols) = 0%Z /\
    r_matrix (ternary_to_float_matrix (Some out) packed_size trits_per_val
                (Some m') rows cols) = Some res /\
    length res = length m /\
    forall i, (i < length m)%nat ->
      Qabs (F32.F2Q (nth i res F32.zero) - F32.F2Q (nth i m F32.zero))
      <= 1 / inject_Z (max_val trits_per_val).
Proof.
  intros Hr Hc Ht Hfit Hm Hm' Hsize Hp Hunit.
  destruct (matrix_roundtrip_elements m m' rows cols trits_per_val p packed_size
              Hr Hc ltac:(lia) Hfit Hm Hm' Hsize Hp) as (out & st' & Hout & Hrun & Hl & Hel).
  exists out, (d_matrix st'). split; [exact Hout|].
  unfold ternary_to_float_matrix.
  replace ((rows <=? 0) || (cols <=? 0) || (trits_per_val <=? 0))%Z with false
    by (symmetry; rewrite !orb_false_iff, !Z.leb_gt; lia).
  replace (64 <? trits_per_val)%Z with false by (symmetry; apply Z.ltb_ge; lia).
  rewrite Hrun. cbn [r_code r_matrix].
  split; [reflexivity|]. split; [reflexivity|]. split; [exact Hl|].
  intros i Hi. rewrite (Hel i Hi).
  destruct (Hunit (nth i m F32.zero)) as (Hv & H0 & H1); [apply nth_In; exact Hi|].
  apply element_roundtrip_error; assumption.
Qed.

Local Open Scope Z_scope.

Lemma matrix_roundtrip_accuracy_witness :
  exists out res,
    float_matrix_to_ternary (Some [F32.lit 1 3; F32.lit 3 4]) 1 2 8
      (Some [9; 9; 9; 9]) 4 = (0, Some out) /\
    r_code (ternary_to_float_matrix (Some out) 4 8
              (Some [F32.zero; F32.zero]) 1 2) = 0 /\
    r_matrix (ternary_to_float_matrix (Some out) 4 8
                (Some [F32.zero; F32.zero]) 1 2) = Some res /\
    length res = length [F32.lit 1 3; F32.lit 3 4] /\
    forall i, (i < length [F32.lit 1 3; F32.lit 3 4])%nat ->
      (Qabs (F32.F2Q (nth i res F32.zero)
             - F32.F2Q (nth i [F32.lit 1 3; F32.lit 3 4] F32.zero))
       <= 1 / inject_Z (max_val 8))%Q.
Proof.
  apply (matrix_roundtrip_accuracy [F32.lit 1 3; F32.lit 3 4]
           [F32.zero; F32.zero] 1 2 8 [9; 9; 9; 9] 4).
  - lia.
  - lia.
  - lia.
  - unfold INT_MAX. lia.
  - reflexivity.
  - reflexivity.
  - vm_compute. split; [discriminate | reflexivity].
  - simpl. lia.
  - intros v [<-|[<-|[]]]; vm_compute; repeat split; reflexivity.
Defined.

(** ** Bytes, digits and weights *)

(** X9.  Packing the five trits that [unpack_trits] extracts from a
    byte gives the byte modulo 243: every byte of 0..242 is the
    packing of its own trits, and the bytes 243..255 are read as the
    bytes 0..12. *)
Theorem repack_modulo_243 (b : Z) (a : list Z) :
  0 <= b <= 255 -> (5 <= length a)%nat ->
  exists t0 t1 t2 t3 t4,
    unpack_trits b (Some a) = Some ([t0; t1; t2; t3; t4] ++ drop 5 a) /\
    pack_trits t0 t1 t2 t3 t4 = b mod 243.
Proof.
  intros Hb Hlen.
  destruct a as [|a0 [|a1 [|a2 [|a3 [|a4 l]]]]]; simpl in Hlen; try lia.
  do 5 eexists. split; [reflexivity|].
  pose proof (Z.quot_rem' b 3) as E0.
  pose proof (Z.rem_bound_pos b 3 ltac:(lia) ltac:(lia)) as R0.
  set (q0 := Z.quot b 3) in *.
  rewrite (to_uint8_small q0) by lia.
  pose proof (Z.quot_rem' q0 3) as E1.
  pose proof (Z.rem_bound_pos q0 3 ltac:(lia) ltac:(lia)) as R1.
  set (q1 := Z.quot q0 3) in *.
  rewrite (to_uint8_small q1) by lia.
  pose proof (Z.quot_rem' q1 3) as E2.
  pose proof (Z.rem_bound_pos q1 3 ltac:(lia) ltac:(lia)) as R2.
  set (q2 := Z.quot q1 3) in *.
  rewrite (to_uint8_small q2) by lia.
  pose proof (Z.quot_rem' q2 3) as E3.
  pose proof (Z.rem_bound_pos q2 3 ltac:(lia) ltac:(lia)) as R3.
  set (q3 := Z.quot q2 3) in *.
  rewrite (to_uint8_small q3) by lia.
  pose proof (Z.quot_rem' q3 3) as E4.
  pose proof (Z.rem_bound_pos q3 3 ltac:(lia) ltac:(lia)) as R4.
  rewrite !to_int8_small by lia.
  rewrite pack_trits_value by (apply is_trit_cases; lia).
  apply (Z.mod_unique b 243 (Z.quot q3 3)); [left; lia | lia].
Qed.

Lemma repack_modulo_243_witness :
  exists t0 t1 t2 t3 t4,
    unpack_trits 250 (Some [0; 0; 0; 0; 0; 7]) = Some ([t0; t1; t2; t3; t4] ++ drop 5 [0; 0; 0; 0; 0; 7]) /\
    pack_trits t0 t1 t2 t3 t4 = 250 mod 243.
Proof.
  apply (repack_modulo_243 250 [0; 0; 0; 0; 0; 7]).
  - lia.
  - simpl. lia.
Defined.

(** The trits the digit loop leaves in the slots it has written. *)
Lemma ternary_loop_take (fuel : nat) : forall (i : nat) (k : Z) (a : list Z),
  (i + fuel <= length a)%nat ->
  take fuel (drop i (ternary_loop fuel i k a)) = digits fuel k.
Proof.
  induction fuel as [|fuel IH]; intros i k a Hlen; [reflexivity|].
  rewrite (take_drop_step _ i fuel 0) by (rewrite ternary_loop_len; lia).
  cbn [digits]. f_equal.
  - rewrite ternary_loop_unfold, ternary_loop_below by lia.
    apply nth_insert_eq. lia.
  - rewrite ternary_loop_unfold. apply IH. rewrite length_insert. lia.
Qed.

Lemma digit_step_nonneg (k : Z) :
  0 <= k < INT_MAX ->
  is_trit (fst (digit_step k)) /\ 0 <= snd (digit_step k) /\
  k = 3 * snd (digit_step k) + fst (digit_step k).
Proof.
  intros Hk. destruct (ternary_step k) as [Hneg Hcases]; [lia|].
  unfold digit_step. rewrite Hneg.
  destruct Hcases as [(Hr & Hkk & Hk')|[(Hr & Hkk & Hk')|(Hr & Hkk & Hk')]];
    rewrite Hr; cbn [Z.eqb Pos.eqb fst snd]; unfold is_trit;
    change (to_int8 (-1)) with (-1); repeat split; auto; lia.
Qed.

Lemma digits_nonneg_value (fuel : nat) : forall k : Z,
  0 <= k <= half_pow3 fuel -> k < INT_MAX ->
  trits_value (digits fuel k) = k.
Proof.
  induction fuel as [|fuel IH]; intros k Hk Hint; cbn [digits trits_value half_pow3] in *;
    [lia|].
  destruct (digit_step_nonneg k) as (Ht & Hk' & Heq); [lia|].
  rewrite is_trit_cases in Ht.
  rewrite IH; lia.
Qed.

(** One pass of the digit loop on a negative [k]: the trit [t] and
    the next [k'] satisfy [k = 3 k' + t] unless [k % 3] is -2, where
    [k = 3 k' + t - 3]. *)
Lemma digit_step_neg (k : Z) :
  INT_MIN <= k < 0 ->
  is_trit (fst (digit_step k)) /\ snd (digit_step k) <= 0 /\
  k = 3 * snd (digit_step k) + fst (digit_step k)
      - (if Z.rem k 3 =? -2 then 3 else 0).
Proof.
  intros Hk. unfold INT_MIN in Hk.
  assert (Hr : -3 < Z.rem k 3 <= 0).
  { pose proof (Z.rem_bound_abs k 3 ltac:(lia)).
    pose proof (Z.rem_nonpos k 3 ltac:(lia) ltac:(lia)). lia. }
  pose proof (Z.quot_rem' k 3) as Hqr.
  assert (Hq : k <= Z.quot k 3 <= 0) by lia.
  pose proof (Z.quot_rem' (k + 1) 3) as Hqr1.
  assert (Hr1 : -3 < Z.rem (k + 1) 3 <= 0).
  { pose proof (Z.rem_bound_abs (k + 1) 3 ltac:(lia)).
    pose proof (Z.rem_nonpos (k + 1) 3 ltac:(lia) ltac:(lia)). lia. }
  unfold digit_step.
  replace (k <? 0) with true by (symmetry; apply Z.ltb_lt; lia).
  rewrite (wrap32_small (Z.quot k 3)) by (unfold INT_MIN, INT_MAX; lia).
  rewrite (wrap32_small (k + 1)) by (unfold INT_MIN, INT_MAX; lia).
  rewrite (wrap32_small (Z.quot (k + 1) 3)) by (unfold INT_MIN, INT_MAX; lia).
  assert (Hc : Z.rem k 3 = 0 \/ Z.rem k 3 = -1 \/ Z.rem k 3 = -2) by lia.
  destruct Hc as [H|[H|H]]; rewrite H in *; cbn [Z.eqb Pos.eqb negb andb fst snd];
    unfold is_trit.
  - repeat split; auto; lia.
  - change (wrap32 (-1 + 3)) with 2. cbn [Z.eqb Pos.eqb fst snd].
    change (to_int8 (-1)) with (-1). repeat split; auto; lia.
  - change (wrap32 (-2 + 3)) with 1. cbn [Z.eqb Pos.eqb fst snd].
    repeat split; auto; lia.
Qed.

Lemma digits_neg_value (fuel : nat) : forall k : Z,
  - half_pow3 fuel <= k <= 0 -> INT_MIN <= k ->
  exists e, 0 <= e /\ (Z.rem k 3 = -2 -> 1 <= e) /\
            trits_value (digits fuel k) = k + 3 * e.
Proof.
  induction fuel as [|fuel IH]; intros k Hk Hint; cbn [digits trits_value half_pow3] in *.
  - exists 0. replace k with 0 by lia. repeat split; try lia.
    intros H. cbv in H. discriminate H.
  - pose proof (half_pow3_nonneg fuel) as Hh.
    destruct (Z.eq_dec k 0) as [->|Hk0].
    + destruct (IH 0 ltac:(lia) ltac:(unfold INT_MIN; lia)) as (e & He & _ & Hv).
      exists (3 * e). change (digit_step 0) with (0, 0). cbn [fst snd].
      rewrite Hv. repeat split; try lia.
      intros H. cbv in H. discriminate H.
    + destruct (digit_step_neg k) as (Ht & Hk' & Heq); [lia|].
      rewrite is_trit_cases in Ht.
      set (d := if Z.rem k 3 =? -2 then 3 else 0) in *.
      assert (Hd : (Z.rem k 3 = -2 /\ d = 3) \/ (Z.rem k 3 <> -2 /\ d = 0)).
      { unfold d. destruct (Z.rem k 3 =? -2) eqn:E;
          [left; apply Z.eqb_eq in E | right; apply Z.eqb_neq in E]; auto. }
      clearbody d.
      destruct (IH (snd (digit_step k))) as (e & He & _ & Hv);
        [unfold INT_MIN in *; lia | unfold INT_MIN in *; lia |].
      rewrite Hv.
      destruct Hd as [[Hrem ->]|[Hrem ->]].
      * exists (1 + 3 * e). repeat split; lia.
      * exists (3 * e). repeat split; lia.
Qed.

(** X10.  For [0 <= k <= (3^n - 1) / 2], [k] below [INT_MAX], the
    digit loop of [float_to_balanced_ternary] writes the balanced
    ternary digits of [k]: the trits left in the first [n] slots have
    the weighted sum [k]. *)
Theorem digit_loop_exact_on_nonnegative (n k : Z) (a : list Z) :
  0 <= n -> 0 <= k <= max_val n -> k < INT_MAX ->
  (Z.to_nat n <= length a)%nat ->
  trits_value (take (Z.to_nat n) (ternary_loop (Z.to_nat n) 0 k a)) = k.
Proof.
  intros Hn Hk Hint Hlen.
  rewrite <- (drop_0 (ternary_loop (Z.to_nat n) 0 k a)).
  rewrite ternary_loop_take by lia.
  apply digits_nonneg_value; [|exact Hint].
  rewrite half_pow3_max_val, Z2Nat.id by lia. exact Hk.
Qed.

Lemma digit_loop_exact_on_nonnegative_witness :
  trits_value (take (Z.to_nat 8) (ternary_loop (Z.to_nat 8) 0 2460 (repeat 0 8))) = 2460.
Proof.
  apply (digit_loop_exact_on_nonnegative 8 2460 (repeat 0 8)).
  - lia.
  - vm_compute. split; discriminate.
  - unfold INT_MAX. lia.
  - simpl. lia.
Defined.

(** X11.  For an [int] [k] with [-(3^n - 1) / 2 <= k <= 0] the trits
    the digit loop writes have a weighted sum [k + 3 e] with [e >= 0],
    and [e >= 1] when [k % 3] is -2: the loop keeps the truncated
    quotient [k / 3] there, so such a [k] is never written as
    itself. *)
Theorem digit_loop_on_negative (n k : Z) (a : list Z) :
  0 <= n -> - max_val n <= k <= 0 -> INT_MIN <= k ->
  (Z.to_nat n <= length a)%nat ->
  exists e, 0 <= e /\ (Z.rem k 3 = -2 -> 1 <= e) /\
    trits_value (take (Z.to_nat n) (ternary_loop (Z.to_nat n) 0 k a)) = k + 3 * e.
Proof.
  intros Hn Hk Hint Hlen.
  rewrite <- (drop_0 (ternary_loop (Z.to_nat n) 0 k a)).
  rewrite ternary_loop_take by lia.
  apply digits_neg_value; [|exact Hint].
  rewrite half_pow3_max_val, Z2Nat.id by lia. exact Hk.
Qed.

Lemma digit_loop_on_negative_witness :
  exists e, 0 <= e /\ (Z.rem (-1640) 3 = -2 -> 1 <= e) /\
    trits_value (take (Z.to_nat 8) (ternary_loop (Z.to_nat 8) 0 (-1640) (repeat 0 8)))
      = -1640 + 3 * e.
Proof.
  apply (digit_loop_on_negative 8 (-1640) (repeat 0 8)).
  - lia.
  - vm_compute. split; discriminate.
  - unfold INT_MIN. lia.
  - simpl. lia.
Defined.

(** The accumulation loop on trits: no wrap-around occurs as long as
    the final power fits [int]. *)
Lemma weigh_loop_sum (fuel : nat) : forall (i : nat) (a : list Z) (v p : Z),
  (i + fuel <= length a)%nat ->
  (forall j, (i <= j < i + fuel)%nat -> is_trit (nth j a 0)) ->
  0 < p ->
  Z.abs v + p * half_pow3 fuel <= INT_MAX ->
  p * (2 * half_pow3 fuel + 1) <= INT_MAX ->
  Z.abs (trits_value (take fuel (drop i a))) <= half_pow3 fuel /\
  weigh_loop fuel i a v p
    = (v + p * trits_value (take fuel (drop i a)), p * (2 * half_pow3 fuel + 1)).
Proof.
  induction fuel as [|fuel IH]; intros i a v p Hlen Htr Hp Hv Hpw.
  - rewrite firstn_O. cbn [trits_value weigh_loop half_pow3]. split; [lia|]. f_equal; lia.
  - pose proof (half_pow3_nonneg fuel) as Hh.
    rewrite (take_drop_step a i fuel 0) by lia.
    cbn [weigh_loop trits_value half_pow3] in *.
    pose proof (Htr i ltac:(lia)) as Ht. rewrite is_trit_cases in Ht.
    set (t := nth i a 0) in *.
    rewrite (wrap32_small (t * p)) by (unfold INT_MIN, INT_MAX in *; nia).
    rewrite (wrap32_small (v + t * p)) by (unfold INT_MIN, INT_MAX in *; nia).
    rewrite (wrap32_small (p * 3)) by (unfold INT_MIN, INT_MAX in *; nia).
    destruct (IH (S i) a (v + t * p) (p * 3)) as [Hb Hw];
      [lia | intros j Hj; apply Htr; lia | lia | nia | nia |].
    rewrite Hw. split; [lia|]. f_equal; lia.
Qed.

(** The integer sum and the final power for at most 19 trits. *)
Lemma weigh_loop_trits (a : list Z) (n : Z) :
  1 <= n <= 19 -> (Z.to_nat n <= length a)%nat ->
  (forall j, (j < Z.to_nat n)%nat -> is_trit (nth j a 0)) ->
  Z.abs (trits_value (take (Z.to_nat n) a)) <= max_val n /\
  fst (weigh_loop (Z.to_nat n) 0 a 0 1) = trits_value (take (Z.to_nat n) a).
Proof.
  intros Hn Hlen Htr.
  set (f := Z.to_nat n).
  assert (Hf : (f <= 19)%nat) by lia.
  assert (Hh : half_pow3 f <= half_pow3 19) by (apply half_pow3_mono; exact Hf).
  change (half_pow3 19) with 581130733 in Hh.
  pose proof (half_pow3_nonneg f) as Hh0.
  assert (Hmax : max_val n = half_pow3 f)
    by (unfold f; rewrite half_pow3_max_val, Z2Nat.id by lia; reflexivity).
  destruct (weigh_loop_sum f 0 a 0 1) as [Hb Hw];
    [lia | intros j Hj; apply Htr; lia | lia | unfold INT_MAX; lia | unfold INT_MAX; lia |].
  rewrite drop_0 in Hb, Hw. rewrite Hmax, Hw. split; [exact Hb|]. cbn [fst]. lia.
Qed.

(** X12.  For at most 19 trits of {-1, 0, +1},
    [balanced_ternary_to_float] divides the weighted sum of the trits,
    which is at most [(3^n - 1) / 2] in magnitude, by
    [(3^n - 1) / 2], both converted to [float]: its integer arithmetic
    does not wrap. *)
Theorem decoder_weighted_sum (a : list Z) (n : Z) :
  1 <= n <= 19 -> (Z.to_nat n <= length a)%nat ->
  (forall j, (j < Z.to_nat n)%nat -> is_trit (nth j a 0)) ->
  Z.abs (trits_value (take (Z.to_nat n) a)) <= max_val n /\
  balanced_ternary_to_float (Some a) n
    = F32.div (F32.of_int (trits_value (take (Z.to_nat n) a))) (F32.of_int (max_val n)).
Proof.
  intros Hn Hlen Htr.
  destruct (weigh_loop_trits a n Hn Hlen Htr) as [Hb Hw].
  split; [exact Hb|].
  unfold balanced_ternary_to_float.
  replace (n <=? 0) with false by (symmetry; apply Z.leb_gt; lia).
  now rewrite decode_max_val_encode, encode_max_val_exact, Hw by lia.
Qed.

Lemma decoder_weighted_sum_witness :
  Z.abs (trits_value (take (Z.to_nat 4) [1; -1; 0; 1; 5])) <= max_val 4 /\
  balanced_ternary_to_float (Some [1; -1; 0; 1; 5]) 4
    = F32.div (F32.of_int (trits_value (take (Z.to_nat 4) [1; -1; 0; 1; 5])))
        (F32.of_int (max_val 4)).
Proof.
  apply (decoder_weighted_sum [1; -1; 0; 1; 5] 4).
  - lia.
  - simpl. lia.
  - intros j Hj. unfold is_trit.
    destruct j as [|[|[|[|j]]]]; simpl in *; lia.
Defined.

(** ** Accuracy of each direction *)

(** Rounding does not look at the sign. *)
Lemma binary_round_aux_opp (mx ex : Z) (lx : location) :
  binary_round_aux F32.prec F32.emax true mx ex lx
    = SFopp (binary_round_aux F32.prec F32.emax false mx ex lx).
Proof.
  unfold binary_round_aux.
  destruct (shr_fexp F32.prec F32.emax mx ex lx) as [mrs e].
  destruct (shr_fexp F32.prec F32.emax _ e loc_Exact) as [mrs' e'].
  destruct (shr_m mrs'); [reflexivity | | reflexivity].
  now destruct (e' <=? F32.emax - F32.prec).
Qed.

Lemma of_int_neg (p : positive) : F32.of_int (Zneg p) = SFopp (F32.of_int (Zpos p)).
Proof.
  unfold F32.of_int, binary_normalize, binary_round.
  destruct (shl_align p 0 _) as [mz ez]. apply binary_round_aux_opp.
Qed.

Lemma div_neg (m1 m2 : positive) (e1 e2 : Z) :
  F32.div (S754_finite true m1 e1) (S754_finite false m2 e2)
    = SFopp (F32.div (S754_finite false m1 e1) (S754_finite false m2 e2)).
Proof.
  unfold F32.div, SFdiv. cbn [xorb].
  destruct (SFdiv_core_binary F32.prec F32.emax (Zpos m1) e1 (Zpos m2) e2) as [[mz ez] lz].
  apply binary_round_aux_opp.
Qed.

Local Open Scope Q_scope.

Lemma F2Q_opp (x : F32.float) : F32.F2Q (SFopp x) == - F32.F2Q x.
Proof.
  destruct x as [s|s| |s m e]; cbn [SFopp F32.F2Q]; try reflexivity.
  destruct s; cbn [negb cond_Zopp].
  - change (Z.opp (Zpos m)) with (Zneg m).
    change (inject_Z (Zneg m)) with (- inject_Z (Zpos m)). ring.
  - change (Z.opp (Zpos m)) with (Zneg m).
    change (inject_Z (Zneg m)) with (- inject_Z (Zpos m)). ring.
Qed.

(** The division of [balanced_ternary_to_float] for any sign of the
    sum. *)
Lemma dequantise_signed (k M : Z) :
  (Z.abs k <= M)%Z -> (1 <= M < 2 ^ 24)%Z ->
  Qabs (F32.F2Q (F32.div (F32.of_int k) (F32.of_int M)) - inject_Z k / inject_Z M)
  <= 1 # 33554432.
Proof.
  intros Hk HM.
  destruct k as [|p|p].
  - apply dequantise; lia.
  - apply dequantise; lia.
  - assert (HMq : 0 < inject_Z M) by (change 0 with (inject_Z 0); rewrite <- Zlt_Qlt; lia).
    pose proof (dequantise (Zpos p) M ltac:(lia) HM) as Hpos.
    destruct (of_int_value M ltac:(lia)) as (mM & eM & HofM & _).
    destruct (of_int_value (Zpos p) ltac:(lia)) as (mk & ek & Hofk & _).
    rewrite of_int_neg, Hofk, HofM in *. cbn [SFopp negb].
    rewrite div_neg, F2Q_opp.
    set (Y := F32.F2Q (F32.div (S754_finite false mk ek) (S754_finite false mM eM))) in *.
    change (inject_Z (Zneg p)) with (- inject_Z (Zpos p)).
    setoid_replace (- Y - - inject_Z (Zpos p) / inject_Z M)
      with (- (Y - inject_Z (Zpos p) / inject_Z M)) using relation Qeq by (field; lra).
    rewrite Qabs_opp. exact Hpos.
Qed.

(** X13.  For at most 15 trits of {-1, 0, +1} the float
    [balanced_ternary_to_float] returns is within [2^-25] of the
    weighted sum of the trits divided by [(3^n - 1) / 2]. *)
Theorem decoder_accuracy (a : list Z) (n : Z) :
  (1 <= n <= 15)%Z -> (Z.to_nat n <= length a)%nat ->
  (forall j, (j < Z.to_nat n)%nat -> is_trit (nth j a 0%Z)) ->
  Qabs (F32.F2Q (balanced_ternary_to_float (Some a) n)
        - inject_Z (trits_value (take (Z.to_nat n) a)) / inject_Z (max_val n))
  <= 1 # 33554432.
Proof.
  intros Hn Hlen Htr.
  destruct (weigh_loop_trits a n ltac:(lia) Hlen Htr) as [Hb Hw].
  assert (HM : (1 <= max_val n <= 7174453)%Z).
  { replace n with (Z.of_nat (Z.to_nat n)) by lia. rewrite <- half_pow3_max_val. split.
    - change 1%Z with (half_pow3 1). apply half_pow3_mono. lia.
    - change 7174453%Z with (half_pow3 15). apply half_pow3_mono. lia. }
  unfold balanced_ternary_to_float.
  replace (n <=? 0)%Z with false by (symmetry; apply Z.leb_gt; lia).
  rewrite decode_max_val_encode, encode_max_val_exact, Hw by lia.
  apply dequantise_signed; lia.
Qed.

Local Open Scope Z_scope.

Lemma decoder_accuracy_witness :
  (Qabs (F32.F2Q (balanced_ternary_to_float (Some [1; -1; 0; -1; 5]%Z) 4)
         - inject_Z (trits_value (take (Z.to_nat 4) [1; -1; 0; -1; 5]%Z))
           / inject_Z (max_val 4))
   <= 1 # 33554432)%Q.
Proof.
  apply (decoder_accuracy [1; -1; 0; -1; 5] 4).
  - lia.
  - simpl. lia.
  - intros j Hj. unfold is_trit.
    destruct j as [|[|[|[|j]]]]; simpl in *; lia.
Defined.

Local Open Scope Q_scope.

(** X14.  For a well-formed value [v] of [0, 1] and at most 15 trits,
    [float_to_balanced_ternary] writes the balanced ternary digits of
    an integer [k] of [0 .. (3^n - 1) / 2] that is within 3/4 of
    [v * (3^n - 1) / 2]. *)
Theorem encoder_quantisation (n : Z) (v : F32.float) (a : list Z) :
  (1 <= n <= 15)%Z ->
  F32.valid v = true -> F32.leb F32.zero v = true -> F32.leb v F32.one = true ->
  (Z.to_nat n <= length a)%nat ->
  exists a' k,
    float_to_balanced_ternary v (Some a) n = (0%Z, Some a') /\
    trits_value (take (Z.to_nat n) a') = k /\
    (0 <= k <= max_val n)%Z /\
    Qabs (inject_Z k - F32.F2Q v * inject_Z (max_val n)) <= 3 # 4.
Proof.
  intros Hn Hvalid H0 H1 Hlen.
  set (f := Z.to_nat n).
  assert (Hnf : n = Z.of_nat f) by (unfold f; lia).
  set (M := half_pow3 f).
  assert (HM : (1 <= M <= 7174453)%Z).
  { split.
    - change 1%Z with (half_pow3 1). apply half_pow3_mono. lia.
    - change 7174453%Z with (half_pow3 15). apply half_pow3_mono. lia. }
  assert (Hmax : max_val n = M) by (rewrite Hnf; symmetry; apply half_pow3_max_val).
  assert (Henc : encode_max_val n = M).
  { rewrite Hnf. apply encode_max_val_half_pow3. fold M. unfold INT_MAX. lia. }
  destruct (unit_float_cases v Hvalid H0 H1) as [Hclamp _].
  destruct (quantise v M Hvalid H0 H1 ltac:(lia)) as [Hk HkQ].
  exists (ternary_loop f 0 (quantised v n) a), (quantised v n).
  split; [apply float_to_balanced_ternary_trits; lia|].
  unfold quantised. rewrite Hclamp, Henc, Hmax.
  set (k := F32.to_int (F32.roundf (F32.mul v (F32.of_int M)))) in *.
  split; [|split; [exact Hk | exact HkQ]].
  rewrite <- (drop_0 (ternary_loop f 0 k a)).
  rewrite ternary_loop_take by lia.
  apply digits_nonneg_value; [fold M; lia | unfold INT_MAX; lia].
Qed.

Local Open Scope Z_scope.

Lemma encoder_quantisation_witness :
  exists a' k,
    float_to_balanced_ternary (F32.lit 1 3) (Some (repeat 0 8)) 8 = (0, Some a') /\
    trits_value (take (Z.to_nat 8) a') = k /\
    0 <= k <= max_val 8 /\
    (Qabs (inject_Z k - F32.F2Q (F32.lit 1 3) * inject_Z (max_val 8)) <= 3 # 4)%Q.
Proof.
  apply (encoder_quantisation 8 (F32.lit 1 3) (repeat 0 8)).
  - lia.
  - vm_compute. reflexivity.
  - vm_compute. reflexivity.
  - vm_compute. reflexivity.
  - simpl. lia.
Defined.

(** ** Encoding what has been decoded *)

(** [clamp] leaves a positive float [m * 2^e] of (0, 1] as it is. *)
Lemma clamp_unit_mantissa (m : positive) (e : Z) :
  e <= -23 -> Zpos m <= 2 ^ (- e) ->
  clamp (S754_finite false m e) = S754_finite false m e.
Proof.
  intros He Hm. unfold clamp. rewrite one_val, minus_one_val.
  unfold F32.ltb, SFltb. cbv [SFcompare].
  destruct (Z.compare_spec (-23) e) as [Heq|Hlt|Hgt]; [|lia|reflexivity].
  subst e. change (2 ^ (- -23)) with 8388608 in Hm.
  rewrite Pos.compare_cont_spec. cbn [Pos.switch_Eq].
  destruct (Pos.compare_spec 8388608 m) as [H|H|H]; [reflexivity | | reflexivity].
  apply Pos2Z.pos_lt_pos in H. exfalso. apply (Z.lt_irrefl (Zpos m)).
  eapply Z.le_lt_trans; [exact Hm | exact H].
Qed.

Local Open Scope Q_scope.

(** Scaling the float [k / M] by [M] and rounding gives [k] back. *)
Lemma requantise (k M : Z) :
  (0 <= k <= M)%Z -> (1 <= M <= 7174453)%Z ->
  F32.to_int (F32.roundf (F32.mul (clamp (F32.div (F32.of_int k) (F32.of_int M)))
                            (F32.of_int M))) = k.
Proof.
  intros Hk HM.
  assert (HMq : 1 <= inject_Z M)
    by (change 1 with (inject_Z 1); rewrite <- Zle_Qle; lia).
  assert (HMq2 : inject_Z M <= 7174453)
    by (change 7174453 with (inject_Z 7174453); rewrite <- Zle_Qle; lia).
  assert (Hclose : forall (m : positive) (e : Z),
            (e <= -23)%Z -> (Zpos m <= 2 ^ (- e))%Z ->
            Qabs (inject_Z (Zpos m) * 2 ^ e - inject_Z k / inject_Z M) <= 1 # 33554432 ->
            F32.to_int (F32.roundf (F32.mul (clamp (S754_finite false m e))
                                      (F32.of_int M))) = k).
  { intros m e He Hm Herr.
    rewrite clamp_unit_mantissa by assumption.
    destruct (quantise_mantissa m e M He Hm ltac:(lia)) as [Hk' HkQ].
    set (k' := F32.to_int (F32.roundf (F32.mul (S754_finite false m e) (F32.of_int M))))
      in *.
    clearbody k'. cbn [F32.F2Q cond_Zopp] in HkQ.
    set (Y := inject_Z (Zpos m) * 2 ^ e) in *.
    assert (Hr : inject_Z k / inject_Z M * inject_Z M == inject_Z k) by (field; lra).
    set (r := inject_Z k / inject_Z M) in *.
    apply Qabs_Qle_condition in HkQ. apply Qabs_Qle_condition in Herr.
    set (Mq := inject_Z M) in *. set (K := inject_Z k) in *.
    assert (Hup : (Y - r) * Mq <= (1 # 33554432) * Mq)
      by (apply Qmult_le_compat_r; lra).
    assert (Hdn : (- (1 # 33554432)) * Mq <= (Y - r) * Mq)
      by (apply Qmult_le_compat_r; lra).
    assert (Hlo : inject_Z k < inject_Z (k' + 1)).
    { rewrite inject_Z_plus. change (inject_Z 1) with 1. fold K.
      clearbody r Y Mq K. lra. }
    assert (Hhi : inject_Z k' < inject_Z (k + 1)).
    { rewrite inject_Z_plus. change (inject_Z 1) with 1. fold K.
      clearbody r Y Mq K. lra. }
    rewrite <- Zlt_Qlt in Hlo, Hhi. lia. }
  destruct (Z.eq_dec k 0%Z) as [->|Hk0]; [|destruct (Z.eq_dec k M) as [->|HkM]].
  - destruct (of_int_value M ltac:(lia)) as (mM & eM & HofM & _).
    rewrite HofM. reflexivity.
  - destruct (of_int_value M ltac:(lia)) as (mM & eM & HofM & _).
    rewrite HofM, div_self, one_val, <- HofM. apply Hclose.
    + lia.
    + change (2 ^ (- -23))%Z with 8388608%Z. lia.
    + setoid_replace (inject_Z 8388608 * 2 ^ (-23) - inject_Z M / inject_Z M) with 0
        using relation Qeq; [discriminate|].
      change (inject_Z 8388608 * 2 ^ (-23)) with ((8388608 # 1) * (1 # 8388608)).
      field. lra.
  - destruct (of_int_value M ltac:(lia)) as (mM & eM & HofM & HeM & HmM & HMv).
    destruct (of_int_value k ltac:(lia)) as (mk & ek & Hofk & Hek & Hmk & Hkv).
    rewrite Hofk, HofM.
    destruct (div_spec mk mM ek eM) as (m3 & e3 & Hdiv & Hm3 & He3 & Herr).
    { set (c := Z.min ek eM).
      assert (Hc : (c <= ek /\ c <= eM)%Z) by (unfold c; lia). clearbody c.
      rewrite Hmk, HmM, <- !Z.mul_assoc, <- !Z.pow_add_r by lia.
      replace (- ek + (ek - c))%Z with (- c)%Z by lia.
      replace (- eM + (eM - c))%Z with (- c)%Z by lia.
      apply Z.mul_lt_mono_pos_r; [apply Z.pow_pos_nonneg|]; lia. }
    rewrite Hkv, HMv in Herr. rewrite Hdiv, <- HofM.
    assert (Hk1 : 1 <= inject_Z k)
      by (change 1 with (inject_Z 1); rewrite <- Zle_Qle; lia).
    assert (HkM1 : inject_Z k + 1 <= inject_Z M).
    { change 1 with (inject_Z 1). rewrite <- inject_Z_plus, <- Zle_Qle. lia. }
    assert (Hr : inject_Z k / inject_Z M * inject_Z M == inject_Z k) by (field; lra).
    pose proof Herr as Herr'. apply Qabs_Qle_condition in Herr'.
    set (r := inject_Z k / inject_Z M) in *.
    set (Y := inject_Z m3 * 2 ^ e3) in *.
    assert (HY0 : 0 < Y) by nra.
    assert (HY1 : Y < 1) by nra.
    destruct m3 as [|p|p]; try lia.
    { exfalso. unfold Y in HY0. change (inject_Z 0) with 0 in HY0. lra. }
    cbn [float_of_mantissa]. apply Hclose; [exact He3 | | exact Herr].
    unfold Y in HY1.
    pose proof (two_pow_pos (- e3)) as Hp.
    assert (Hlt : inject_Z (Zpos p) < inject_Z (2 ^ (0 - e3))).
    { apply (Qmult_lt_r _ _ (2 ^ e3)); [apply two_pow_pos|].
      rewrite two_pow_split by lia. exact HY1. }
    rewrite <- Zlt_Qlt in Hlt. replace (0 - e3)%Z with (- e3)%Z in Hlt by lia. lia.
Qed.

Local Open Scope Z_scope.

(** Two lists of trits of the same length with the same weighted sum
    are equal. *)
Lemma trits_value_inj (l1 : list Z) : forall l2 : list Z,
  length l1 = length l2 -> Forall is_trit l1 -> Forall is_trit l2 ->
  trits_value l1 = trits_value l2 -> l1 = l2.
Proof.
  induction l1 as [|t1 l1 IH]; intros [|t2 l2] Hlen H1 H2 Hv; try discriminate;
    [reflexivity|].
  apply Forall_cons_1 in H1, H2. destruct H1 as [Ht1 H1], H2 as [Ht2 H2].
  rewrite is_trit_cases in Ht1, Ht2. cbn [trits_value] in Hv.
  assert (t1 = t2) by lia. subst t2.
  f_equal. apply IH; [cbn in Hlen; lia | assumption | assumption | lia].
Qed.

Lemma take_trits (a : list Z) (n : nat) :
  (n <= length a)%nat ->
  (forall j, (j < n)%nat -> is_trit (nth j a 0)) -> Forall is_trit (take n a).
Proof.
  revert a. induction n as [|n IH]; intros a Hlen H; [constructor|].
  destruct a as [|x a]; cbn in Hlen; [lia|]. cbn [take]. constructor.
  - apply (H 0%nat). lia.
  - apply IH; [lia|]. intros j Hj. apply (H (S j)). lia.
Qed.

(** X15.  Decoding at most 15 trits whose weighted sum is not
    negative with [balanced_ternary_to_float] and encoding the float
    again with [float_to_balanced_ternary] writes the same trits. *)
Theorem reencode_decoded_trits (a b : list Z) (n : Z) :
  1 <= n <= 15 ->
  (Z.to_nat n <= length a)%nat -> (Z.to_nat n <= length b)%nat ->
  (forall j, (j < Z.to_nat n)%nat -> is_trit (nth j a 0)) ->
  0 <= trits_value (take (Z.to_nat n) a) ->
  exists b',
    float_to_balanced_ternary (balanced_ternary_to_float (Some a) n) (Some b) n
      = (0, Some b') /\
    take (Z.to_nat n) b' = take (Z.to_nat n) a.
Proof.
  intros Hn Hla Hlb Htr Hpos.
  destruct (weigh_loop_trits a n ltac:(lia) Hla Htr) as [Hb Hw].
  set (k := trits_value (take (Z.to_nat n) a)) in *.
  set (f := Z.to_nat n).
  assert (Hnf : n = Z.of_nat f) by (unfold f; lia).
  set (M := half_pow3 f).
  assert (HM : 1 <= M <= 7174453).
  { split.
    - change 1 with (half_pow3 1). apply half_pow3_mono. lia.
    - change 7174453 with (half_pow3 15). apply half_pow3_mono. lia. }
  assert (Hmax : max_val n = M) by (rewrite Hnf; symmetry; apply half_pow3_max_val).
  assert (Henc : encode_max_val n = M).
  { rewrite Hnf. apply encode_max_val_half_pow3. fold M. unfold INT_MAX. lia. }
  eexists. split; [apply float_to_balanced_ternary_trits; lia|].
  rewrite <- (drop_0 (ternary_loop _ _ _ _)). fold f.
  rewrite ternary_loop_take by lia.
  assert (Hq : quantised (balanced_ternary_to_float (Some a) n) n = k).
  { unfold quantised, balanced_ternary_to_float.
    replace (n <=? 0) with false by (symmetry; apply Z.leb_gt; lia).
    rewrite decode_max_val_encode, Henc, Hw. apply requantise; lia. }
  rewrite Hq.
  apply trits_value_inj.
  - rewrite digits_length, length_take. unfold f. lia.
  - apply digits_trits.
  - apply take_trits; assumption.
  - rewrite Hmax in Hb.
    apply digits_nonneg_value; unfold M, f in *; fold k; [lia | unfold INT_MAX; lia].
Qed.

Lemma reencode_decoded_trits_witness :
  exists b',
    float_to_balanced_ternary (balanced_ternary_to_float (Some [1; -1; 0; 1; 5]) 4)
      (Some [9; 9; 9; 9]) 4 = (0, Some b') /\
    take (Z.to_nat 4) b' = take (Z.to_nat 4) [1; -1; 0; 1; 5].
Proof.
  apply (reencode_decoded_trits [1; -1; 0; 1; 5] [9; 9; 9; 9] 4).
  - lia.
  - simpl. lia.
  - simpl. lia.
  - intros j Hj. unfold is_trit.
    destruct j as [|[|[|[|j]]]]; simpl in *; lia.
  - vm_compute. discriminate.
Defined.

(** ** Values below zero *)

Lemma SFopp_involutive (x : spec_float) : SFopp (SFopp x) = x.
Proof. destruct x as [s|s| |s m e]; cbn; now rewrite ?negb_involutive. Qed.

Lemma binary_round_opp (s : bool) (m : positive) (e : Z) :
  binary_round F32.prec F32.emax (negb s) m e
    = SFopp (binary_round F32.prec F32.emax s m e).
Proof.
  unfold binary_round. destruct (shl_align m e _) as [mz ez].
  destruct s; cbn [negb].
  - rewrite binary_round_aux_opp. now rewrite SFopp_involutive.
  - apply binary_round_aux_opp.
Qed.

(** [roundf] is odd. *)
Lemma roundf_opp (x : F32.float) : F32.roundf (SFopp x) = SFopp (F32.roundf x).
Proof.
  destruct x as [s|s| |s m e]; try reflexivity.
  cbn [SFopp F32.roundf]. destruct (0 <=? e); [reflexivity|].
  destruct (Z.shiftr (Zpos m + 2 ^ (- e - 1)) (- e)) as [|q|q].
  - destruct s; reflexivity.
  - destruct s; cbn [negb cond_Zopp Z.opp binary_normalize].
    + apply (binary_round_opp true).
    + apply (binary_round_opp false).
  - destruct s; cbn [negb cond_Zopp Z.opp binary_normalize].
    + apply (binary_round_opp false).
    + apply (binary_round_opp true).
Qed.

(** [(int)] is odd where it is not negative. *)
Lemma to_int_opp (x : F32.float) :
  0 <= F32.to_int x -> F32.to_int (SFopp x) = - F32.to_int x.
Proof.
  destruct x as [s|s| |s m e]; cbn [SFopp F32.to_int];
    try (unfold INT_MIN; lia).
  set (mag := if 0 <=? e then Zpos m * 2 ^ e else Z.shiftr (Zpos m) (- e)).
  assert (Hopp : cond_Zopp (negb s) mag = - cond_Zopp s mag)
    by (destruct s; cbn; lia).
  rewrite Hopp. set (z := cond_Zopp s mag). clearbody z.
  destruct ((INT_MIN <=? z) && (z <=? INT_MAX)) eqn:Hr; [|unfold INT_MIN; lia].
  intros Hz. apply andb_true_iff in Hr. destruct Hr as [H1 H2].
  apply Z.leb_le in H1, H2.
  replace ((INT_MIN <=? - z) && (- z <=? INT_MAX)) with true; [reflexivity|].
  symmetry. apply andb_true_iff. unfold INT_MIN, INT_MAX in *.
  split; apply Z.leb_le; lia.
Qed.

Lemma mul_neg (m1 m2 : positive) (e1 e2 : Z) :
  F32.mul (S754_finite true m1 e1) (S754_finite false m2 e2)
    = SFopp (F32.mul (S754_finite false m1 e1) (S754_finite false m2 e2)).
Proof. unfold F32.mul, SFmul. cbn [xorb]. apply binary_round_aux_opp. Qed.

(** A well-formed float in [-1, 0] is a zero or a negative finite
    float [- m * 2^e] with [m <= 2^(-e)]; [clamp] leaves it as it
    is. *)
Lemma negative_unit_float_cases (v : F32.float) :
  F32.valid v = true -> F32.leb F32.minus_one v = true -> F32.leb v F32.zero = true ->
  clamp v = v /\
  ((exists s, v = S754_zero s) \/
   (exists (m : positive) (e : Z),
      v = S754_finite true m e /\ e <= -23 /\ Zpos m <= 2 ^ (- e))).
Proof.
  unfold clamp. rewrite one_val, minus_one_val.
  unfold F32.valid, F32.leb, F32.ltb, F32.zero, SFleb, SFltb.
  destruct v as [s|s| |s m e]; cbv [SFcompare valid_binary]; try discriminate.
  - intros _ _ _. split; [reflexivity|]. left. now exists s.
  - destruct s; discriminate.
  - destruct s; try discriminate. intros Hvalid Hle _.
    unfold bounded, canonical_mantissa in Hvalid.
    apply andb_true_iff in Hvalid. destruct Hvalid as [Hcanon _].
    apply Z.eqb_eq in Hcanon. rewrite fexp32 in Hcanon.
    pose proof (digits2_pos_bounds m) as [_ Hhi].
    assert (Hm24 : Zpos m < 2 ^ 24).
    { assert (2 ^ Zpos (digits2_pos m) <= 2 ^ 24) by (apply Z.pow_le_mono_r; lia). lia. }
    rewrite (Z.compare_antisym e (-23)) in Hle.
    destruct (Z.compare_spec e (-23)) as [->|Hlt|Hgt]; cbn [CompOpp] in *;
      try discriminate.
    + rewrite !Pos.compare_cont_spec in *. cbn [Pos.switch_Eq] in *.
      rewrite (Pos.compare_antisym m 8388608) in Hle.
      change (2 ^ (- -23)) with 8388608.
      destruct (Pos.compare_spec m 8388608) as [Hm|Hm|Hm]; cbn [CompOpp] in *.
      * split; [reflexivity|]. right. exists m, (-23).
        split; [reflexivity|]. split; [apply Z.le_refl|].
        change (2 ^ (- -23)) with 8388608. rewrite Hm. reflexivity.
      * split; [reflexivity|]. right. exists m, (-23).
        split; [reflexivity|]. split; [apply Z.le_refl|].
        change (2 ^ (- -23)) with 8388608. apply Pos2Z.pos_lt_pos in Hm.
        apply Z.lt_le_incl. exact Hm.
      * discriminate Hle.
    + split; [reflexivity|]. right. exists m, e. repeat split; try lia.
      assert (2 ^ 24 <= 2 ^ (- e)) by (apply Z.pow_le_mono_r; lia). lia.
Qed.

Local Open Scope Q_scope.

(** Scaling a value of [-1, 0] and rounding: the integer [k] obtained
    is in [-M, 0] and within 3/4 of [value * M]. *)
Lemma quantise_negative (v : F32.float) (M : Z) :
  F32.valid v = true -> F32.leb F32.minus_one v = true -> F32.leb v F32.zero = true ->
  (1 <= M < 2 ^ 23)%Z ->
  let k := F32.to_int (F32.roundf (F32.mul v (F32.of_int M))) in
  (- M <= k <= 0)%Z /\
  Qabs (inject_Z k - F32.F2Q v * inject_Z M) <= 3 # 4.
Proof.
  intros Hvalid H0 H1 HM k.
  destruct (negative_unit_float_cases v Hvalid H0 H1)
    as [_ [[s ->]|(mv & ev & -> & Hev & Hmv)]].
  - destruct (of_int_value M ltac:(lia)) as (mM & eM & HofM & _).
    subst k. rewrite HofM. cbn. split; [lia|]. discriminate.
  - destruct (quantise_mantissa mv ev M Hev Hmv HM) as [Hk HkQ].
    destruct (of_int_value M ltac:(lia)) as (mM & eM & HofM & _).
    subst k. rewrite HofM in *.
    rewrite mul_neg, roundf_opp, to_int_opp by lia.
    set (k := F32.to_int (F32.roundf (F32.mul (S754_finite false mv ev)
                                        (S754_finite false mM eM)))) in *.
    clearbody k. split; [lia|].
    cbn [F32.F2Q cond_Zopp] in *.
    change (Z.opp (Zpos mv)) with (Zneg mv).
    change (inject_Z (Zneg mv)) with (- inject_Z (Zpos mv)).
    rewrite inject_Z_opp.
    setoid_replace (- inject_Z k - - inject_Z (Zpos mv) * 2 ^ ev * inject_Z M)
      with (- (inject_Z k - inject_Z (Zpos mv) * 2 ^ ev * inject_Z M))
      using relation Qeq by ring.
    rewrite Qabs_opp. exact HkQ.
Qed.

(** X16.  For a well-formed value [v] of [-1, 0] and at most 15 trits,
    [float_to_balanced_ternary] scales [v] to an integer [k] of
    [-(3^n - 1) / 2 .. 0] within 3/4 of [v * (3^n - 1) / 2], but the
    trits it writes have the weighted sum [k + 3 e] with [e >= 0], and
    [e >= 1] when [k % 3] is -2. *)
Theorem encoder_quantisation_negative (n : Z) (v : F32.float) (a : list Z) :
  (1 <= n <= 15)%Z ->
  F32.valid v = true -> F32.leb F32.minus_one v = true -> F32.leb v F32.zero = true ->
  (Z.to_nat n <= length a)%nat ->
  exists a' k e,
    float_to_balanced_ternary v (Some a) n = (0%Z, Some a') /\
    (- max_val n <= k <= 0)%Z /\
    Qabs (inject_Z k - F32.F2Q v * inject_Z (max_val n)) <= 3 # 4 /\
    (0 <= e)%Z /\ (Z.rem k 3 = (-2)%Z -> (1 <= e)%Z) /\
    trits_value (take (Z.to_nat n) a') = (k + 3 * e)%Z.
Proof.
  intros Hn Hvalid H0 H1 Hlen.
  set (f := Z.to_nat n).
  assert (Hnf : n = Z.of_nat f) by (unfold f; lia).
  set (M := half_pow3 f).
  assert (HM : (1 <= M <= 7174453)%Z).
  { split.
    - change 1%Z with (half_pow3 1). apply half_pow3_mono. lia.
    - change 7174453%Z with (half_pow3 15). apply half_pow3_mono. lia. }
  assert (Hmax : max_val n = M) by (rewrite Hnf; symmetry; apply half_pow3_max_val).
  assert (Henc : encode_max_val n = M).
  { rewrite Hnf. apply encode_max_val_half_pow3. fold M. unfold INT_MAX. lia. }
  destruct (negative_unit_float_cases v Hvalid H0 H1) as [Hclamp _].
  destruct (quantise_negative v M Hvalid H0 H1 ltac:(lia)) as [Hk HkQ].
  assert (Hq : quantised v n = F32.to_int (F32.roundf (F32.mul v (F32.of_int M))))
    by (unfold quantised; now rewrite Hclamp, Henc).
  set (k := F32.to_int (F32.roundf (F32.mul v (F32.of_int M)))) in *.
  clearbody k.
  destruct (digits_neg_value f k) as (e & He & Hrem & Hsum);
    [fold M; lia | unfold INT_MIN; lia |].
  exists (ternary_loop f 0 (quantised v n) a), k, e.
  split; [apply float_to_balanced_ternary_trits; lia|].
  rewrite Hmax. split; [exact Hk|]. split; [exact HkQ|].
  split; [exact He|]. split; [exact Hrem|].
  rewrite <- (drop_0 (ternary_loop f 0 _ a)).
  rewrite ternary_loop_take, Hq by lia. exact Hsum.
Qed.

Local Open Scope Z_scope.

Lemma encoder_quantisation_negative_witness :
  exists a' k e,
    float_to_balanced_ternary (F32.lit (-1) 2) (Some (repeat 0 8)) 8 = (0, Some a') /\
    - max_val 8 <= k <= 0 /\
    (Qabs (inject_Z k - F32.F2Q (F32.lit (-1) 2) * inject_Z (max_val 8)) <= 3 # 4)%Q /\
    0 <= e /\ (Z.rem k 3 = -2 -> 1 <= e) /\
    trits_value (take (Z.to_nat 8) a') = k + 3 * e.
Proof.
  apply (encoder_quantisation_negative 8 (F32.lit (-1) 2) (repeat 0 8)).
  - lia.
  - vm_compute. reflexivity.
  - vm_compute. reflexivity.
  - vm_compute. reflexivity.
  - simpl. lia.
Defined.

Local Open Scope Q_scope.

(** X17.  For a well-formed value of [-1, 0] and at most 15 trits the
    scalar round trip is never more than one step [1 / max_val n]
    below the value; and when the scaled integer [k] has
    [k % 3 == -2], it is more than two steps above it. *)
Theorem negative_roundtrip_bounds (n : Z) (v : F32.float) (a : list Z) :
  (1 <= n <= 15)%Z ->
  F32.valid v = true -> F32.leb F32.minus_one v = true -> F32.leb v F32.zero = true ->
  (Z.to_nat n <= length a)%nat ->
  (- (1) / inject_Z (max_val n) <= F32.F2Q (scalar_roundtrip v a n) - F32.F2Q v) /\
  (Z.rem (quantised v n) 3 = (-2)%Z ->
   2 / inject_Z (max_val n) < F32.F2Q (scalar_roundtrip v a n) - F32.F2Q v).
Proof.
  intros Hn Hvalid H0 H1 Hlen.
  set (f := Z.to_nat n).
  assert (Hnf : n = Z.of_nat f) by (unfold f; lia).
  set (M := half_pow3 f).
  assert (HM : (1 <= M <= 7174453)%Z).
  { split.
    - change 1%Z with (half_pow3 1). apply half_pow3_mono. lia.
    - change 7174453%Z with (half_pow3 15). apply half_pow3_mono. lia. }
  assert (Hmax : max_val n = M) by (rewrite Hnf; symmetry; apply half_pow3_max_val).
  assert (Henc : encode_max_val n = M).
  { rewrite Hnf. apply encode_max_val_half_pow3. fold M. unfold INT_MAX. lia. }
  destruct (negative_unit_float_cases v Hvalid H0 H1) as [Hclamp _].
  destruct (quantise_negative v M Hvalid H0 H1 ltac:(lia)) as [Hk HkQ].
  assert (Hq : quantised v n = F32.to_int (F32.roundf (F32.mul v (F32.of_int M))))
    by (unfold quantised; now rewrite Hclamp, Henc).
  rewrite Hq.
  set (k := F32.to_int (F32.roundf (F32.mul v (F32.of_int M)))) in *.
  clearbody k.
  destruct (digits_neg_value f k) as (e & He & Hrem & Hsum);
    [fold M; lia | unfold INT_MIN; lia |].
  rewrite scalar_roundtrip_element by lia.
  unfold element_trits. fold f. rewrite Hq.
  assert (Htr : forall j, (j < Z.to_nat n)%nat -> is_trit (nth j (digits f k) 0%Z))
    by (intros j _; apply nth_is_trit, digits_trits).
  assert (Hdl : (Z.to_nat n <= length (digits f k))%nat)
    by (rewrite digits_length; unfold f; lia).
  destruct (weigh_loop_trits (digits f k) n ltac:(lia) Hdl Htr) as [Hb Hw].
  fold f in Hb, Hw.
  assert (Htake : take f (digits f k) = digits f k)
    by (apply firstn_all2; rewrite digits_length; lia).
  rewrite Htake in Hb, Hw.
  rewrite Hsum, Hmax in *.
  assert (HY : Qabs (F32.F2Q (balanced_ternary_to_float (Some (digits f k)) n)
                     - inject_Z (k + 3 * e) / inject_Z M) <= 1 # 33554432).
  { unfold balanced_ternary_to_float.
    replace (n <=? 0)%Z with false by (symmetry; apply Z.leb_gt; lia).
    rewrite decode_max_val_encode, Henc. fold f. rewrite Hw.
    apply dequantise_signed; lia. }
  set (Y := F32.F2Q (balanced_ternary_to_float (Some (digits f k)) n)) in *.
  set (V := F32.F2Q v) in *.
  assert (HMq1 : 1 <= inject_Z M)
    by (change 1 with (inject_Z 1); rewrite <- Zle_Qle; lia).
  assert (HMq2 : inject_Z M <= 7174453)
    by (change 7174453 with (inject_Z 7174453); rewrite <- Zle_Qle; lia).
  assert (HE0 : 0 <= inject_Z e)
    by (change 0 with (inject_Z 0); rewrite <- Zle_Qle; lia).
  assert (Hr : inject_Z (k + 3 * e) / inject_Z M * inject_Z M
               == inject_Z k + 3 * inject_Z e).
  { rewrite inject_Z_plus, inject_Z_mult. change (inject_Z 3) with 3. field. lra. }
  set (r := inject_Z (k + 3 * e) / inject_Z M) in *.
  apply Qabs_Qle_condition in HY. apply Qabs_Qle_condition in HkQ.
  set (Mq := inject_Z M) in *. set (K := inject_Z k) in *. set (E := inject_Z e) in *.
  assert (Hdn : (- (1 # 33554432)) * Mq <= (Y - r) * Mq)
    by (apply Qmult_le_compat_r; lra).
  split.
  - apply Qle_shift_div_r; [lra|]. clearbody r Y V Mq K E. lra.
  - intros Hrem2. specialize (Hrem Hrem2).
    assert (HE1 : 1 <= E)
      by (unfold E; change 1 with (inject_Z 1); rewrite <- Zle_Qle; lia).
    apply Qlt_shift_div_r; [lra|]. clearbody r Y V Mq K E. lra.
Qed.

Local Open Scope Z_scope.

Lemma negative_roundtrip_bounds_witness :
  (- (1) / inject_Z (max_val 8)
   <= F32.F2Q (scalar_roundtrip (F32.lit (-1) 2) (repeat 0%Z 8) 8)
      - F32.F2Q (F32.lit (-1) 2))%Q /\
  (Z.rem (quantised (F32.lit (-1) 2) 8) 3 = -2 ->
   (2 / inject_Z (max_val 8)
    < F32.F2Q (scalar_roundtrip (F32.lit (-1) 2) (repeat 0%Z 8) 8)
      - F32.F2Q (F32.lit (-1) 2))%Q).
Proof.
  apply (negative_roundtrip_bounds 8 (F32.lit (-1) 2) (repeat 0 8)).
  - lia.
  - vm_compute. reflexivity.
  - vm_compute. reflexivity.
  - vm_compute. reflexivity.
  - simpl. lia.
Defined.

(** ** The device layer *)

Module NriocFacts.
Import Nrioc.

(** What every call keeps. *)
Lemma perform_keeps (c : call) (g : driver) :
  array_width g = 27 -> array_height g = 27 -> weights_buffer g = None ->
  state g <> NR_STATE_ERROR ->
  let g' := snd (perform c g) in
  array_width g' = 27 /\ array_height g' = 27 /\ weights_buffer g' = None /\
  state g' <> NR_STATE_ERROR.
Proof.
  intros Hw Hh Hb Hs.
  destruct g as [s w h b t]. cbn in Hw, Hh, Hb, Hs. subst w h b.
  destruct c as [| |cmd now|timeout_ms|weights width height now|input output width height now];
    cbn [perform].
  - unfold nrioc_init. destruct s; cbn; repeat split; auto; discriminate.
  - unfold nrioc_shutdown. destruct s; cbn; repeat split; auto; discriminate.
  - unfold nrioc_submit. destruct cmd as [c|]; [|cbn; auto].
    destruct s; cbn; repeat split; auto; discriminate.
  - unfold nrioc_wait. destruct s; cbn; repeat split; auto; discriminate.
  - unfold nrioc_load_weights.
    destruct (_ || _ || _); [cbn; auto|].
    destruct (_ || _); [cbn; auto|].
    destruct s; cbn; repeat split; auto; discriminate.
  - unfold nrioc_compute.
    destruct (_ || _ || _ || _); [cbn; auto|].
    destruct (_ || _); [cbn; auto|].
    destruct s; cbn; repeat split; auto; discriminate.
Qed.

(** X18.  Whatever sequence of calls a client makes from the initial
    [g_driver], the array stays 27 x 27 (and [nrioc_get_array_size]
    reports it), [weights_buffer] stays null and the state is never
    [NR_STATE_ERROR]; and no call returns [NR_TIMEOUT] or
    [NR_OUT_OF_MEMORY]. *)
Theorem driver_invariant (cs : list call) (c : call) (w h : Z) :
  nrioc_get_array_size (Some w) (Some h) (run cs g_driver) = (NR_OK, Some 27, Some 27) /\
  weights_buffer (run cs g_driver) = None /\
  state (run cs g_driver) <> NR_STATE_ERROR /\
  fst (perform c (run cs g_driver)) <> NR_TIMEOUT /\
  fst (perform c (run cs g_driver)) <> NR_OUT_OF_MEMORY.
Proof.
  assert (Hinv : forall g,
            array_width g = 27 -> array_height g = 27 -> weights_buffer g = None ->
            state g <> NR_STATE_ERROR ->
            array_width (run cs g) = 27 /\ array_height (run cs g) = 27 /\
            weights_buffer (run cs g) = None /\ state (run cs g) <> NR_STATE_ERROR).
  { unfold run. induction cs as [|c0 cs IH]; intros g Hw Hh Hb Hs; cbn [fold_left].
    - auto.
    - destruct (perform_keeps c0 g Hw Hh Hb Hs) as (Hw' & Hh' & Hb' & Hs').
      apply IH; assumption. }
  destruct (Hinv g_driver) as (Hw & Hh & Hb & Hs); try reflexivity; [discriminate|].
  unfold nrioc_get_array_size. rewrite Hw, Hh.
  split; [reflexivity|]. split; [exact Hb|]. split; [exact Hs|]. split.
  - set (g := run cs g_driver) in *. clearbody g.
    destruct g as [s w0 h0 b t].
    destruct c as [| |cmd now|timeout_ms|weights width height now|input output width height now];
      cbn [perform].
    + unfold nrioc_init. destruct s; discriminate.
    + unfold nrioc_shutdown. destruct s; discriminate.
    + unfold nrioc_submit. destruct cmd; [destruct s|]; discriminate.
    + unfold nrioc_wait. destruct s; discriminate.
    + unfold nrioc_load_weights.
      destruct (_ || _ || _); [discriminate|]. destruct (_ || _); [discriminate|].
      destruct s; discriminate.
    + unfold nrioc_compute.
      destruct (_ || _ || _ || _); [discriminate|]. destruct (_ || _); [discriminate|].
      destruct s; discriminate.
  - set (g := run cs g_driver) in *. clearbody g.
    destruct g as [s w0 h0 b t].
    destruct c as [| |cmd now|timeout_ms|weights width height now|input output width height now];
      cbn [perform].
    + unfold nrioc_init. destruct s; discriminate.
    + unfold nrioc_shutdown. destruct s; discriminate.
    + unfold nrioc_submit. destruct cmd; [destruct s|]; discriminate.
    + unfold nrioc_wait. destruct s; discriminate.
    + unfold nrioc_load_weights.
      destruct (_ || _ || _); [discriminate|]. destruct (_ || _); [discriminate|].
      destruct s; discriminate.
    + unfold nrioc_compute.
      destruct (_ || _ || _ || _); [discriminate|]. destruct (_ || _); [discriminate|].
      destruct s; discriminate.
Qed.

(** X19.  [nrioc_load_weights] returns [NR_OK] exactly when the
    pointer is not null, the dimensions are positive and within the
    array, and the driver is neither uninitialised nor busy; it then
    leaves the driver idle with the time of the call recorded.  In
    every other case [g_driver] is unchanged, and the parameters are
    checked before the state: invalid parameters give
    [NR_INVALID_PARAM] even on an uninitialised driver. *)
Theorem load_weights_outcome (weights : pointer) (width height now : Z) (g : driver) :
  (fst (nrioc_load_weights weights width height now g) = NR_OK <->
     weights <> None /\ fits_array g width height /\
     state g <> NR_STATE_UNINITIALIZED /\ state g <> NR_STATE_BUSY) /\
  (fst (nrioc_load_weights weights width height now g) = NR_OK ->
     snd (nrioc_load_weights weights width height now g)
       = {| state := NR_STATE_IDLE; array_width := array_width g;
            array_height := array_height g; weights_buffer := weights_buffer g;
            last_command_time := to_uint64 now |}) /\
  (fst (nrioc_load_weights weights width height now g) <> NR_OK ->
     snd (nrioc_load_weights weights width height now g) = g) /\
  (~ (weights <> None /\ fits_array g width height) ->
     fst (nrioc_load_weights weights width height now g) = NR_INVALID_PARAM) /\
  (weights <> None -> fits_array g width height ->
     state g = NR_STATE_UNINITIALIZED ->
     fst (nrioc_load_weights weights width height now g) = NR_NO_DEVICE) /\
  (weights <> None -> fits_array g width height ->
     state g = NR_STATE_BUSY ->
     fst (nrioc_load_weights weights width height now g) = NR_BUSY).
Proof.
  unfold nrioc_load_weights, fits_array.
  destruct weights as [a|]; cbn [is_null orb].
  - destruct (width <=? 0) eqn:Hw0; cbn [orb].
    { apply Z.leb_le in Hw0. cbn [fst snd].
      repeat split; try discriminate; try tauto; try lia; intros; try lia; tauto. }
    destruct (height <=? 0) eqn:Hh0; cbn [orb].
    { apply Z.leb_le in Hh0. cbn [fst snd].
      repeat split; try discriminate; try tauto; try lia; intros; try lia; tauto. }
    apply Z.leb_gt in Hw0, Hh0.
    destruct (array_width g <? width) eqn:Hw1; cbn [orb].
    { apply Z.ltb_lt in Hw1. cbn [fst snd].
      repeat split; try discriminate; try tauto; try lia; intros; try lia; tauto. }
    destruct (array_height g <? height) eqn:Hh1; cbn [orb].
    { apply Z.ltb_lt in Hh1. cbn [fst snd].
      repeat split; try discriminate; try tauto; try lia; intros; try lia; tauto. }
    apply Z.ltb_ge in Hw1, Hh1.
    unfold nrioc_submit, nrioc_wait.
    destruct g as [s w h b t]. cbn [state array_width array_height] in *.
    destruct s; cbn; repeat split; try discriminate; try congruence; try lia;
      intros; try congruence; try tauto.
    all: exfalso; match goal with H : ~ _ |- _ => apply H end;
      repeat split; try discriminate; lia.
  - cbn [fst snd]. repeat split; try discriminate; try tauto; intros; try tauto.
Qed.

Lemma load_weights_outcome_witness :
  fst (nrioc_load_weights (Some 4096) 27 3 1767225600
         (snd (nrioc_init g_driver))) = NR_OK /\
  fst (nrioc_load_weights (Some 4096) 28 3 1767225600 g_driver) = NR_INVALID_PARAM /\
  fst (nrioc_load_weights (Some 4096) 27 3 1767225600 g_driver) = NR_NO_DEVICE.
Proof.
  split; [|split].
  - apply (proj1 (load_weights_outcome (Some 4096) 27 3 1767225600
                    (snd (nrioc_init g_driver)))).
    repeat split; vm_compute; first [reflexivity | discriminate].
  - apply (proj1 (proj2 (proj2 (proj2
             (load_weights_outcome (Some 4096) 28 3 1767225600 g_driver))))).
    intros [_ [[_ H] _]]. vm_compute in H. apply H. reflexivity.
  - apply (proj1 (proj2 (proj2 (proj2 (proj2
             (load_weights_outcome (Some 4096) 27 3 1767225600 g_driver)))))).
    + discriminate.
    + repeat split; vm_compute; first [reflexivity | discriminate].
    + reflexivity.
Defined.

(** X20.  A command submitted to an idle driver is stamped with the
    time of the call and makes the driver busy; until [nrioc_wait] is
    called every further [nrioc_submit] returns [NR_BUSY] and changes
    neither the command nor the driver, and [nrioc_load_weights] and
    [nrioc_compute] fail without effect; [nrioc_wait] then returns
    [NR_OK] for every timeout and leaves the driver idle. *)
Theorem submit_then_wait (c : nrioc_command_t) (now timeout_ms : Z) (g : driver) :
  state g = NR_STATE_IDLE ->
  exists c' g',
    nrioc_submit (Some c) now g = (NR_OK, Some c', g') /\
    cmd_timestamp c' = to_uint64 now /\
    nrioc_get_status g' = NR_STATE_BUSY /\
    (forall c2 now2, nrioc_submit (Some c2) now2 g' = (NR_BUSY, Some c2, g')) /\
    (forall p width height now2,
       fst (nrioc_load_weights p width height now2 g') <> NR_OK /\
       snd (nrioc_load_weights p width height now2 g') = g') /\
    (forall p q width height now2,
       fst (nrioc_compute p q width height now2 g') <> NR_OK /\
       snd (nrioc_compute p q width height now2 g') = g') /\
    nrioc_wait timeout_ms g'
      = (NR_OK, {| state := NR_STATE_IDLE; array_width := array_width g;
                   array_height := array_height g; weights_buffer := weights_buffer g;
                   last_command_time := to_uint64 now |}).
Proof.
  intros Hs. destruct g as [s w h b t]. cbn in Hs. subst s.
  eexists. eexists. split; [reflexivity|]. cbn.
  split; [reflexivity|]. split; [reflexivity|]. split; [reflexivity|]. split; [|split].
  - intros p width height now2. unfold nrioc_load_weights.
    destruct (_ || _ || _); [split; [discriminate | reflexivity]|].
    destruct (_ || _); split; try discriminate; reflexivity.
  - intros p q width height now2. unfold nrioc_compute.
    destruct (_ || _ || _ || _); [split; [discriminate | reflexivity]|].
    destruct (_ || _); split; try discriminate; reflexivity.
  - reflexivity.
Qed.

Lemma submit_then_wait_witness :
  exists c' g',
    nrioc_submit
      (Some {| cmd_type := NR_CMD_COMPUTE; cmd_src := Some 4096; cmd_dst := Some 8192;
               cmd_width := 27; cmd_height := 27; cmd_flags := 0; cmd_timestamp := 0 |})
      1767225600 (snd (nrioc_init g_driver)) = (NR_OK, Some c', g') /\
    cmd_timestamp c' = to_uint64 1767225600 /\
    nrioc_get_status g' = NR_STATE_BUSY /\
    (forall c2 now2, nrioc_submit (Some c2) now2 g' = (NR_BUSY, Some c2, g')) /\
    (forall p width height now2,
       fst (nrioc_load_weights p width height now2 g') <> NR_OK /\
       snd (nrioc_load_weights p width height now2 g') = g') /\
    (forall p q width height now2,
       fst (nrioc_compute p q width height now2 g') <> NR_OK /\
       snd (nrioc_compute p q width height now2 g') = g') /\
    nrioc_wait 1000 g'
      = (NR_OK, {| state := NR_STATE_IDLE;
                   array_width := array_width (snd (nrioc_init g_driver));
                   array_height := array_height (snd (nrioc_init g_driver));
                   weights_buffer := weights_buffer (snd (nrioc_init g_driver));
                   last_command_time := to_uint64 1767225600 |}).
Proof.
  apply (submit_then_wait
           {| cmd_type := NR_CMD_COMPUTE; cmd_src := Some 4096; cmd_dst := Some 8192;
              cmd_width := 27; cmd_height := 27; cmd_flags := 0; cmd_timestamp := 0 |}
           1767225600 1000 (snd (nrioc_init g_driver))).
  reflexivity.
Defined.

(** X21.  [nrioc_init] succeeds exactly on an uninitialised driver
    and [nrioc_shutdown] exactly on an initialised one, busy or not;
    a second [nrioc_init] returns [NR_ERROR] and changes nothing, and
    after a shutdown the driver can be initialised again, while
    [nrioc_submit] and [nrioc_wait] return [NR_NO_DEVICE]. *)
Theorem init_shutdown_cycle (g : driver) (c : nrioc_command_t) (now timeout_ms : Z) :
  (fst (nrioc_init g) = NR_OK <-> state g = NR_STATE_UNINITIALIZED) /\
  (fst (nrioc_shutdown g) = NR_OK <-> state g <> NR_STATE_UNINITIALIZED) /\
  (state g = NR_STATE_UNINITIALIZED ->
     nrioc_init (snd (nrioc_init g)) = (NR_ERROR, snd (nrioc_init g)) /\
     fst (nrioc_shutdown (snd (nrioc_init g))) = NR_OK /\
     nrioc_shutdown g = (NR_ERROR, g) /\
     nrioc_submit (Some c) now g = (NR_NO_DEVICE, Some c, g) /\
     nrioc_wait timeout_ms g = (NR_NO_DEVICE, g)) /\
  (state g <> NR_STATE_UNINITIALIZED ->
     nrioc_init g = (NR_ERROR, g) /\
     fst (nrioc_init (snd (nrioc_shutdown g))) = NR_OK /\
     nrioc_shutdown (snd (nrioc_shutdown g)) = (NR_ERROR, snd (nrioc_shutdown g)) /\
     fst (fst (nrioc_submit (Some c) now (snd (nrioc_shutdown g)))) = NR_NO_DEVICE).
Proof.
  destruct g as [s w h b t]. cbn [state].
  unfold nrioc_init, nrioc_shutdown, nrioc_submit, nrioc_wait.
  destruct s; cbn; repeat split; try discriminate; try congruence; intros; congruence.
Qed.

Lemma init_shutdown_cycle_witness :
  nrioc_init (snd (nrioc_init g_driver)) = (NR_ERROR, snd (nrioc_init g_driver)) /\
  fst (nrioc_shutdown (snd (nrioc_init g_driver))) = NR_OK.
Proof.
  destruct (proj1 (proj2 (proj2
              (init_shutdown_cycle g_driver
                 {| cmd_type := NR_CMD_NOP; cmd_src := None; cmd_dst := None;
                    cmd_width := 0; cmd_height := 0; cmd_flags := 0; cmd_timestamp := 0 |}
                 0 0))) eq_refl) as (H1 & H2 & _).
  split; [exact H1 | exact H2].
Defined.

End NriocFacts.
